(** * SHF CSV ingestion pipeline ([src/lib/data-processor.ts])

    A shallow embedding of [SHFDataProcessor] and [processSHFCSV], and the
    properties of the ingestion pipeline proved on it.

    - JavaScript strings are sequences of UTF-16 code units: [list N].
    - [Map<string,string>] is an insertion-ordered association list,
      [Set<string>] an insertion-ordered list without duplicates.
    - The storage collaborator (the Supabase client) is an explicit [World]:
      its tables, the history of calls issued against it and a fault plan
      that decides, per call, whether the call succeeds, answers with an
      [error] or rejects.  Asynchronous code runs in a state-and-exception
      monad over that world. *)

From Stdlib Require Import String Ascii DecimalString.
From Stdlib Require Import List NArith ZArith Bool Lia Arith PeanoNat.
Import ListNotations.

Set Implicit Arguments.

(* ================================================================= *)
(** ** JavaScript strings *)

Module Js.

Definition jsstring := list N.

(** Source text of a literal (UTF-8 bytes of this file) to code units.
    Only one-, two- and three-byte sequences occur in the literals used. *)
Fixpoint utf8 (bs : list N) : jsstring :=
  match bs with
  | [] => []
  | b :: r =>
      if (b <? 128)%N then b :: utf8 r
      else if (b <? 224)%N then
        match r with
        | c :: r' => ((b - 192) * 64 + (c - 128))%N :: utf8 r'
        | [] => [b]
        end
      else
        match r with
        | c :: d :: r' =>
            ((b - 224) * 4096 + (c - 128) * 64 + (d - 128))%N :: utf8 r'
        | _ => [b]
        end
  end.

Definition js (s : String.string) : jsstring :=
  utf8 (map N_of_ascii (String.list_ascii_of_string s)).

(** [a === b] on strings. *)
Fixpoint streq (a b : jsstring) : bool :=
  match a, b with
  | [], [] => true
  | x :: a', y :: b' => (x =? y)%N && streq a' b'
  | _, _ => false
  end.

(** Truthiness of a string value: the empty string is falsy. *)
Definition truthy (s : jsstring) : bool :=
  match s with [] => false | _ :: _ => true end.

(** [s.startsWith(p)] *)
Fixpoint startsWith (p s : jsstring) : bool :=
  match p, s with
  | [], _ => true
  | x :: p', y :: s' => (x =? y)%N && startsWith p' s'
  | _ :: _, [] => false
  end.

(** WhiteSpace and LineTerminator code units, as [String.prototype.trim]
    and the numeric parsers strip them. *)
Definition isWhiteSpace (c : N) : bool :=
  ((9 <=? c) && (c <=? 13) || (c =? 32) || (c =? 160) || (c =? 5760)
   || (8192 <=? c) && (c <=? 8202) || (c =? 8232) || (c =? 8233)
   || (c =? 8239) || (c =? 8287) || (c =? 12288) || (c =? 65279))%N.

Fixpoint trimStart (s : jsstring) : jsstring :=
  match s with
  | [] => []
  | c :: s' => if isWhiteSpace c then trimStart s' else s
  end.

Definition trimEnd (s : jsstring) : jsstring := rev (trimStart (rev s)).

Definition trim (s : jsstring) : jsstring := trimEnd (trimStart s).

(** [s.split(sep)] for a one-character separator: never empty. *)
Fixpoint split (sep : N) (s : jsstring) : list jsstring :=
  match s with
  | [] => [[]]
  | c :: s' =>
      if (c =? sep)%N then [] :: split sep s'
      else match split sep s' with
           | h :: t => (c :: h) :: t
           | [] => [[c]]
           end
  end.

(** [s.replace(a, b)] with one-character strings: first occurrence only. *)
Fixpoint replaceFirst (a b : N) (s : jsstring) : jsstring :=
  match s with
  | [] => []
  | c :: s' => if (c =? a)%N then b :: s' else c :: replaceFirst a b s'
  end.

(** [\w] of a regular expression without the unicode flag. *)
Definition isWordChar (c : N) : bool :=
  ((48 <=? c) && (c <=? 57) || (65 <=? c) && (c <=? 90) || (c =? 95)
   || (97 <=? c) && (c <=? 122))%N.

Definition isDigit (c : N) : bool := ((48 <=? c) && (c <=? 57))%N.

End Js.
Import Js.

(* ================================================================= *)
(** ** Regular expressions of the text normalizer

    Every pattern of [convertToUTF8] is a sequence of characters, some of
    them optional ([h?]), either bare ([new RegExp(wrong, 'g')]) or enclosed
    in word boundaries ([/\b...\b/g]). *)

Module Regex.

Inductive atom : Type :=
| Lit (c : N)
| Opt (c : N).

Record regex : Type := mkRegex { bounded : bool; body : list atom }.

Definition wordBefore (prev : option N) : bool :=
  match prev with Some c => isWordChar c | None => false end.

Definition wordAt (s : jsstring) : bool :=
  match s with c :: _ => isWordChar c | [] => false end.

(** The assertion [\b] between the character [prev] and the input [s]. *)
Definition atBoundary (prev : option N) (s : jsstring) : bool :=
  xorb (wordBefore prev) (wordAt s).

(** Backtracking matcher: the number of characters consumed by the first
    successful alternative, a greedy [c?] trying [c] before the empty word. *)
Fixpoint matchAtoms (wb : bool) (re : list atom) (prev : option N)
         (s : jsstring) : option nat :=
  match re with
  | [] => if wb then (if atBoundary prev s then Some 0 else None) else Some 0
  | Lit c :: re' =>
      match s with
      | x :: s' =>
          if (x =? c)%N then option_map S (matchAtoms wb re' (Some x) s')
          else None
      | [] => None
      end
  | Opt c :: re' =>
      match
        match s with
        | x :: s' =>
            if (x =? c)%N then option_map S (matchAtoms wb re' (Some x) s')
            else None
        | [] => None
        end
      with
      | Some n => Some n
      | None => matchAtoms wb re' prev s
      end
  end.

(** A match of [re] that starts exactly here, [prev] being the character
    before the current position. *)
Definition exec (re : regex) (prev : option N) (s : jsstring) : option nat :=
  if bounded re && negb (atBoundary prev s) then None
  else matchAtoms (bounded re) (body re) prev s.

(** [s.replace(re, r)] for a global [re] and a replacement without [$]:
    matches are found left to right and do not overlap.  [skip] counts the
    characters of the current match still to be consumed; an empty match
    inserts [r] and moves on by one character. *)
Fixpoint replaceFrom (re : regex) (r : jsstring) (skip : nat)
         (prev : option N) (s : jsstring) : jsstring :=
  match s with
  | [] =>
      match skip with
      | O => match exec re prev [] with Some _ => r | None => [] end
      | S _ => []
      end
  | c :: s' =>
      match skip with
      | S k => replaceFrom re r k (Some c) s'
      | O =>
          match exec re prev s with
          | Some (S k) => r ++ replaceFrom re r k (Some c) s'
          | Some O => r ++ c :: replaceFrom re r 0 (Some c) s'
          | None => c :: replaceFrom re r 0 (Some c) s'
          end
      end
  end.

Definition replaceAll (re : regex) (r : jsstring) (s : jsstring) : jsstring :=
  replaceFrom re r 0 None s.

Definition literal (s : jsstring) : list atom := map Lit s.

End Regex.
Import Regex.

(* ================================================================= *)
(** ** Text normalizer: [convertToUTF8], [normalizeText] *)

(** [encodingMap], in the insertion order [Object.entries] yields. *)
Definition encodingMap : list (jsstring * jsstring) :=
  [ ([0xC3; 0xA1], [0xE1]);
    ([0xC3; 0xA9], [0xE9]);
    ([0xC3; 0xAD], [0xED]);
    ([0xC3; 0xB3], [0xF3]);
    ([0xC3; 0xBA], [0xFA]);
    ([0xC3; 0x81], [0xC1]);
    ([0xC3; 0x89], [0xC9]);
    ([0xC3; 0x8D], [0xCD]);
    ([0xC3; 0x93], [0xD3]);
    ([0xC3; 0x9A], [0xDA]);
    ([0xC3; 0xB1], [0xF1]);
    ([0xC3; 0x91], [0xD1]);
    ([0xC3; 0xBC], [0xFC]);
    ([0xC3; 0x9C], [0xDC]) ]%N.

Definition word (s : String.string) : regex := mkRegex true (literal (js s)).

Definition locationPatterns : list (regex * jsstring) :=
  [ (word "Len", js "León");
    (word "Nuevo Len", js "Nuevo León");
    (word "Mxico", js "México");
    (word "Ciudad de Mxico", js "Ciudad de México");
    (word "Qutaro", js "Querétaro");
    (word "Quertaro", js "Querétaro");
    (word "Zacatecas", js "Zacatecas");
    (word "Jurez", js "Juárez");
    (word "Benito Jurez", js "Benito Juárez");
    (word "Acapulco de Jurez", js "Acapulco de Juárez");
    (word "Baha", js "Bahía");
    (mkRegex true (literal (js "Ba") ++ [Opt 104%N]
                     ++ literal (js "a de Banderas")),
     js "Bahía de Banderas");
    (word "Gutrrez", js "Gutiérrez");
    (word "Tuxtla Gutrrez", js "Tuxtla Gutiérrez");
    (word "Culiacn", js "Culiacán");
    (word "Garca", js "García");
    (word "ZM Qutaro", js "ZM Querétaro");
    (word "ZM Quertaro", js "ZM Querétaro");
    (word "ZM Len", js "ZM León");
    (word "ZM Mxico", js "ZM México");
    (word "ZM Valle Mxico", js "ZM Valle México") ].

(** The two replacement loops of [convertToUTF8], as one list of passes. *)
Definition passes : list (regex * jsstring) :=
  map (fun wc => (mkRegex false (literal (fst wc)), snd wc)) encodingMap
  ++ locationPatterns.

Definition runPasses (ps : list (regex * jsstring)) (text : jsstring)
  : jsstring :=
  fold_left (fun converted p => replaceAll (fst p) (snd p) converted) ps text.

Definition convertToUTF8 (text : jsstring) : jsstring :=
  if truthy text then runPasses passes text else text.

Definition normalizeText (text : jsstring) : jsstring :=
  if truthy text then convertToUTF8 text else text.

(* ================================================================= *)
(** ** Numeric parsers of the platform: [parseInt], [parseFloat] *)

Module Num.

(** A JavaScript number as far as the pipeline looks at it.  A finite
    value is kept as the decimal it was read from,
    [(-1)^negative * mantissa * 10^exponent]; the rounding to binary64 is
    not modelled. *)
Inductive JsNumber : Type :=
| NaN
| Infinity (negative : bool)
| Finite (negative : bool) (mantissa : N) (exponent : Z).

Definition isNaN (x : JsNumber) : bool :=
  match x with NaN => true | _ => false end.

Fixpoint takeWhile (p : N -> bool) (s : jsstring) : jsstring :=
  match s with
  | c :: s' => if p c then c :: takeWhile p s' else []
  | [] => []
  end.

Fixpoint dropWhile (p : N -> bool) (s : jsstring) : jsstring :=
  match s with
  | c :: s' => if p c then dropWhile p s' else s
  | [] => []
  end.

Definition isHexDigit (c : N) : bool :=
  (isDigit c || (65 <=? c) && (c <=? 70) || (97 <=? c) && (c <=? 102))%N.

Definition digitValue (c : N) : N :=
  (if isDigit c then c - 48
   else if (97 <=? c) then c - 87 else c - 55)%N.

Definition digitsValue (radix : N) (ds : jsstring) : N :=
  fold_left (fun acc c => (acc * radix + digitValue c)%N) ds 0%N.

(** Optional sign: whether it is [-], and the rest of the input. *)
Definition readSign (s : jsstring) : bool * jsstring :=
  match s with
  | 45%N :: s' => (true, s')
  | 43%N :: s' => (false, s')
  | _ => (false, s)
  end.

(** [parseInt(s)] without a radix; [None] is NaN.  The value is the
    exact integer the digits denote; the rounding to binary64 of integers
    above 2^53 is not modelled. *)
Definition parseInt (s : jsstring) : option Z :=
  let (neg, s1) := readSign (trimStart s) in
  let (radix, s2) :=
    match s1 with
    | 48%N :: 120%N :: t => (16%N, t)
    | 48%N :: 88%N :: t => (16%N, t)
    | _ => (10%N, s1)
    end in
  let ds := takeWhile (if (radix =? 16)%N then isHexDigit else isDigit) s2 in
  match ds with
  | [] => None
  | _ :: _ =>
      let v := Z.of_N (digitsValue radix ds) in
      Some (if neg then (- v)%Z else v)
  end.

(** [parseInt(x) || 0], [x] possibly [undefined]. *)
Definition parseIntOr0 (x : option jsstring) : Z :=
  match x with
  | Some s => match parseInt s with Some v => v | None => 0%Z end
  | None => 0%Z
  end.

(** [ExponentPart]: [e] or [E], an optional sign and at least one digit;
    absent or malformed, it is not part of the literal. *)
Definition readExponent (s : jsstring) : Z :=
  match s with
  | c :: s' =>
      if ((c =? 101) || (c =? 69))%N then
        let (neg, s2) := readSign s' in
        match takeWhile isDigit s2 with
        | [] => 0%Z
        | ds => let v := Z.of_N (digitsValue 10 ds) in
                if neg then (- v)%Z else v
        end
      else 0%Z
  | [] => 0%Z
  end.

(** [parseFloat(s)]: the longest prefix of the trimmed input that is a
    [StrDecimalLiteral]. *)
Definition parseFloat (s : jsstring) : JsNumber :=
  let (neg, s1) := readSign (trimStart s) in
  if startsWith (js "Infinity") s1 then Infinity neg
  else
    let ip := takeWhile isDigit s1 in
    let s2 := dropWhile isDigit s1 in
    match s2 with
    | 46%N :: s3 =>
        let fp := takeWhile isDigit s3 in
        match ip, fp with
        | [], [] => NaN
        | _, _ =>
            Finite neg (digitsValue 10 (ip ++ fp))
                   (readExponent (dropWhile isDigit s3)
                    - Z.of_nat (List.length fp))
        end
    | _ =>
        match ip with
        | [] => NaN
        | _ :: _ => Finite neg (digitsValue 10 ip) (readExponent s2)
        end
    end.

End Num.
Import Num.

(* ================================================================= *)
(** ** Row Parser: [parseCSV] *)

Record SHFDataRow : Type := mkRow {
  consecutivo : Z;
  global : jsstring;
  estado : jsstring;
  municipio : jsstring;
  trimestre : Z;
  año : Z;
  indice : jsstring
}.

(** [x || d] on strings. *)
Definition orElse (x d : jsstring) : jsstring := if truthy x then x else d.

(** [columns[i]?.trim() || d] *)
Definition column (columns : list jsstring) (i : nat) (d : jsstring)
  : jsstring :=
  match nth_error columns i with
  | Some c => orElse (trim c) d
  | None => d
  end.

(** The row built from the columns of one line, its comma decimal
    already turned into a dot. *)
Definition rowOfColumns (columns : list jsstring) : SHFDataRow :=
  {| consecutivo := parseIntOr0 (nth_error columns 0);
     global := normalizeText (column columns 1 []);
     estado := normalizeText (column columns 2 []);
     municipio := normalizeText (column columns 3 []);
     trimestre := parseIntOr0 (nth_error columns 4);
     año := parseIntOr0 (nth_error columns 5);
     indice := replaceFirst 44 46 (column columns 6 (js "0")) |}.

(** One iteration of the loop of [parseCSV] over [lines[i]]. *)
Definition parseStep (rows : list SHFDataRow) (raw : jsstring)
  : list SHFDataRow :=
  let line := trim raw in
  if negb (truthy line) then rows
  else
    let columns := split 59 line in
    if List.length columns <? 7 then rows
    else rows ++ [rowOfColumns columns].

(** The loop starts at index 1: the header line is never looked at. *)
Definition parseCSV (csvContent : jsstring) : list SHFDataRow :=
  let lines := split 10 csvContent in
  fold_left parseStep (skipn 1 lines) [].

(* ================================================================= *)
(** ** Records of the processor and of the store *)

(** The location object of [processLocations].  Its [state] is a string
    or [undefined] (written [None]): [state ? ... : undefined]. *)
Record ProcessedLocation : Type := mkProcessedLocation {
  type : jsstring;
  name : jsstring;
  state : option jsstring
}.

Record ProcessedPriceData : Type := mkPriceData {
  location_id : jsstring;
  property_type_id : option jsstring;
  quarter : Z;
  year : Z;
  index_value : JsNumber
}.

(** Rows of the tables, with the columns the processor reads or writes
    ([lib/supabase]: [Location], [ResidentialPropertyType],
    [DataUploadLog]).  The [state] column of a location is nullable: an
    insert without [state] leaves it NULL, and a NULL column is read back
    as [null] (written [None] in [loc_state]). *)
Record Location : Type := mkLocation {
  loc_id : jsstring;
  loc_type : jsstring;
  loc_name : jsstring;
  loc_state : option jsstring
}.

Record ResidentialPropertyType : Type := mkPropertyType {
  pt_id : jsstring;
  pt_name : jsstring
}.

Inductive Status : Type := processing | completed | failed.

Record DataUploadLog : Type := mkLog {
  log_id : jsstring;
  filename : jsstring;
  records_processed : nat;
  status : Status;
  error_message : option jsstring
}.

(** A value that is thrown or returned in the [error] field of a response:
    whether it is an [Error] object, and its [message]. *)
Record ErrorValue : Type := mkError {
  instanceofError : bool;
  message : jsstring
}.

(** [new Error(msg)] *)
Definition newError (msg : jsstring) : ErrorValue := mkError true msg.

(* ================================================================= *)
(** ** The storage collaborator *)

Module Store.

Inductive Call : Type :=
| InsertLog (file : jsstring)
| UpdateLog (id : jsstring) (st : Status) (n : nat)
| SelectLocations
| InsertLocation (l : ProcessedLocation)
| SelectPropertyTypes
| UpsertPrices (batch : list ProcessedPriceData).

(** What happens to one call: it is carried out, it is answered with
    [{ data: null, error }] or its promise rejects.  A call that is not
    carried out leaves the tables as they were. *)
Inductive Fault : Type :=
| Normal
| ErrorResult (e : ErrorValue)
| Rejected (e : ErrorValue).

Record World : Type := mkWorld {
  locations : list Location;
  property_types : list ResidentialPropertyType;
  price_indices : list ProcessedPriceData;
  upload_logs : list DataUploadLog;
  next_id : nat;
  calls : list Call;          (* every call issued so far, oldest first *)
  plan : nat -> Fault         (* fate of the n-th call *)
}.

(** [{ data, error }] *)
Inductive Response (A : Type) : Type :=
| Data (a : A)
| Error (e : ErrorValue).
Arguments Data {A} a.
Arguments Error {A} e.

(** Outcome of an asynchronous computation: a value or an exception. *)
Inductive Result (A : Type) : Type :=
| Value (a : A)
| Thrown (e : ErrorValue).
Arguments Value {A} a.
Arguments Thrown {A} e.

Definition M (A : Type) : Type := World -> Result A * World.

Definition ret {A} (a : A) : M A := fun w => (Value a, w).

Definition bind {A B} (m : M A) (k : A -> M B) : M B :=
  fun w =>
    match m w with
    | (Value a, w') => k a w'
    | (Thrown e, w') => (Thrown e, w')
    end.

Definition throw {A} (e : ErrorValue) : M A := fun w => (Thrown e, w).

(** [try { m } catch (error) { handler(error) }] *)
Definition tryCatch {A} (m : M A) (handler : ErrorValue -> M A) : M A :=
  fun w =>
    match m w with
    | (Value a, w') => (Value a, w')
    | (Thrown e, w') => handler e w'
    end.

Definition setField_calls (w : World) (c : list Call) : World :=
  mkWorld (locations w) (property_types w) (price_indices w)
          (upload_logs w) (next_id w) c (plan w).

(** Issue the call [c]; [effect] is what the store does when it carries
    the call out. *)
Definition request {A} (c : Call) (effect : World -> A * World)
  : M (Response A) :=
  fun w =>
    let w1 := setField_calls w (calls w ++ [c]) in
    match plan w (List.length (calls w)) with
    | Normal => let (a, w2) := effect w1 in (Value (Data a), w2)
    | ErrorResult e => (Value (Error e), w1)
    | Rejected e => (Thrown e, w1)
    end.

(** Identifiers the store hands out: the decimal numeral of a counter. *)
Definition idOfNat (n : nat) : jsstring :=
  map N_of_ascii
      (String.list_ascii_of_string
         (NilEmpty.string_of_uint (Nat.to_uint n))).

(** [ORDER BY name], by code units. *)
Fixpoint strle (a b : jsstring) : bool :=
  match a, b with
  | [], _ => true
  | _ :: _, [] => false
  | x :: a', y :: b' => (x <? y)%N || (x =? y)%N && strle a' b'
  end.

Fixpoint insertBy {A} (key : A -> jsstring) (x : A) (l : list A) : list A :=
  match l with
  | [] => [x]
  | y :: l' =>
      if strle (key x) (key y) then x :: l else y :: insertBy key x l'
  end.

Definition orderBy {A} (key : A -> jsstring) (l : list A) : list A :=
  fold_right (insertBy key) [] l.

(** [from('data_upload_logs').insert({ filename, status: 'processing',
    records_processed: 0 }).select().single()] *)
Definition insertLog (file : jsstring) : M (Response DataUploadLog) :=
  request (InsertLog file) (fun w =>
    let entry := mkLog (idOfNat (next_id w)) file 0 processing None in
    (entry,
     mkWorld (locations w) (property_types w) (price_indices w)
             (upload_logs w ++ [entry]) (S (next_id w)) (calls w) (plan w))).

(** [from('data_upload_logs').update({ status, records_processed })
    .eq('id', id)] *)
Definition updateLog (id : jsstring) (st : Status) (n : nat)
  : M (Response unit) :=
  request (UpdateLog id st n) (fun w =>
    (tt,
     mkWorld (locations w) (property_types w) (price_indices w)
             (map (fun e =>
                     if streq (log_id e) id
                     then mkLog (log_id e) (filename e) n st (error_message e)
                     else e)
                  (upload_logs w))
             (next_id w) (calls w) (plan w))).

(** [db.getLocations()] *)
Definition getLocations : M (Response (list Location)) :=
  request SelectLocations (fun w => (orderBy loc_name (locations w), w)).

(** [from('locations').insert(location).select().single()] *)
Definition insertLocation (l : ProcessedLocation) : M (Response Location) :=
  request (InsertLocation l) (fun w =>
    let row := mkLocation (idOfNat (next_id w)) (type l) (name l) (state l) in
    (row,
     mkWorld (locations w ++ [row]) (property_types w) (price_indices w)
             (upload_logs w) (S (next_id w)) (calls w) (plan w))).

(** [db.getPropertyTypes()] *)
Definition getPropertyTypes : M (Response (list ResidentialPropertyType)) :=
  request SelectPropertyTypes
          (fun w => (orderBy pt_name (property_types w), w)).

Definition optEq (a b : option jsstring) : bool :=
  match a, b with
  | Some x, Some y => streq x y
  | None, None => true
  | _, _ => false
  end.

(** The conflict target [location_id,property_type_id,quarter,year]. *)
Definition sameKey (a b : ProcessedPriceData) : bool :=
  streq (location_id a) (location_id b)
  && optEq (property_type_id a) (property_type_id b)
  && (quarter a =? quarter b)%Z && (year a =? year b)%Z.

(** One record of an upsert: the row with its key is replaced, or the
    record is added. *)
Fixpoint upsertOne (table : list ProcessedPriceData) (r : ProcessedPriceData)
  : list ProcessedPriceData :=
  match table with
  | [] => [r]
  | x :: t => if sameKey x r then r :: t else x :: upsertOne t r
  end.

(** [from('residential_price_indices').upsert(batch, { onConflict: ...,
    ignoreDuplicates: false })] *)
Definition upsertPrices (batch : list ProcessedPriceData)
  : M (Response unit) :=
  request (UpsertPrices batch) (fun w =>
    (tt,
     mkWorld (locations w) (property_types w)
             (fold_left upsertOne batch (price_indices w))
             (upload_logs w) (next_id w) (calls w) (plan w))).

End Store.
Import Store.

Declare Scope js_scope.
Delimit Scope js_scope with js.
Notation "x <- m ;; k" := (bind m (fun x => k))
  (at level 61, m at next level, right associativity) : js_scope.
Notation "m ;;; k" := (bind m (fun _ => k))
  (at level 61, right associativity) : js_scope.
Open Scope js_scope.

(* ================================================================= *)
(** ** [Map<string, string>] and [Set<string>] *)

Module JsMap.

Definition t : Type := list (jsstring * jsstring).

Fixpoint get (m : t) (k : jsstring) : option jsstring :=
  match m with
  | [] => None
  | (k', v) :: m' => if streq k' k then Some v else get m' k
  end.

Definition has (m : t) (k : jsstring) : bool :=
  match get m k with Some _ => true | None => false end.

Fixpoint set (m : t) (k v : jsstring) : t :=
  match m with
  | [] => [(k, v)]
  | (k', v') :: m' =>
      if streq k' k then (k', v) :: m' else (k', v') :: set m' k v
  end.

End JsMap.

Module JsSet.

Definition t : Type := list jsstring.

Definition has (s : t) (k : jsstring) : bool := existsb (streq k) s.

Definition add (s : t) (k : jsstring) : t := if has s k then s else s ++ [k].

End JsSet.

(* ================================================================= *)
(** ** The processor: [SHFDataProcessor] *)

(** [initializePropertyTypeMap] *)
Definition propertyTypeMap : JsMap.t :=
  let m := JsMap.set [] (js "Nueva") (js "nueva") in
  let m := JsMap.set m (js "Usada") (js "usada") in
  let m := JsMap.set m (js "Casa sola") (js "casa_sola") in
  let m := JsMap.set m (js "Casa en condominio - depto.") (js "condominio") in
  JsMap.set m (js "Media - Residencial") (js "media_residencial").

(** [s && s.trim() !== ''] *)
Definition present (s : jsstring) : bool :=
  truthy s && negb (streq (trim s) []).

(** The filter of [processCSV] that keeps the residential rows. *)
Definition isResidential (row : SHFDataRow) : bool :=
  negb (streq (global row) (js "Economica - Social"))
  && (streq (global row) (js "Media - Residencial")
      || JsMap.has propertyTypeMap (global row)
      || streq (global row) (js "Nacional")
      || startsWith (js "ZM ") (global row)
      || present (estado row)
      || present (municipio row)).

(** *** Location Resolver: [processLocations] *)

(** The key the first loop of [processLocations] adds to [locationSet]
    for a row, if any. *)
Definition locationSetKey (row : SHFDataRow) : option jsstring :=
  if streq (global row) (js "Nacional") then Some (js "Nacional|national|")
  else if startsWith (js "ZM ") (global row)
  then Some (global row ++ js "|metro_zone|")
  else if present (estado row) && negb (truthy (municipio row))
  then Some (estado row ++ js "|state|")
  else if present (estado row) && present (municipio row)
  then Some (municipio row ++ js "|municipality|" ++ estado row)
  else if JsMap.has propertyTypeMap (global row)
          || streq (global row) (js "Media - Residencial")
  then Some (js "Nacional|national|")
  else None.

Definition extractLocationSet (rows : list SHFDataRow) : JsSet.t :=
  fold_left
    (fun locationSet row =>
       match locationSetKey row with
       | Some k => JsSet.add locationSet k
       | None => locationSet
       end)
    rows [].

(** [const [name, type, state] = locationKey.split('|')] and the location
    object built from it.  Every key of [locationSet] has two separators,
    so the first two parts always exist. *)
Definition locationOfKey (locationKey : jsstring) : ProcessedLocation :=
  let parts := split 124 locationKey in
  {| type := nth 1 parts [];
     name := normalizeText (trim (nth 0 parts []));
     state := match nth_error parts 2 with
              | Some st => if truthy st then Some (normalizeText st) else None
              | None => None
              end |}.

(** [`${location.name}|${location.type}|${location.state || ''}`] *)
Definition mapKey (location : ProcessedLocation) : jsstring :=
  name location ++ js "|" ++ type location ++ js "|"
  ++ match state location with Some st => orElse st [] | None => [] end.

(** [loc.state === location.state], between the [state] read back from
    the store (a string or [null]) and the [state] of the location object
    (a string or [undefined]).  Strict equality holds between two equal
    strings only: [null === undefined] is false. *)
Definition strictEqState (stored wanted : option jsstring) : bool :=
  match stored, wanted with
  | Some x, Some y => streq x y
  | _, _ => false
  end.

(** The predicate of [response.data?.find(...)]. *)
Definition sameLocation (location : ProcessedLocation) (loc : Location)
  : bool :=
  streq (loc_name loc) (name location)
  && streq (loc_type loc) (type location)
  && strictEqState (loc_state loc) (state location).

(** One iteration of the reconcile-or-create loop, with its [try]. *)
Definition reconcile (locationMap : JsMap.t) (location : ProcessedLocation)
  : M JsMap.t :=
  tryCatch
    (response <- getLocations ;;
     match response with
     | Error e => throw e
     | Data data =>
         match find (sameLocation location) data with
         | Some existing =>
             ret (JsMap.set locationMap (mapKey location) (loc_id existing))
         | None =>
             createResult <- insertLocation location ;;
             match createResult with
             | Error e => throw e
             | Data created =>
                 ret (JsMap.set locationMap (mapKey location)
                                (loc_id created))
             end
         end
     end)
    (fun _ => ret locationMap).

(** [for (const x of xs) { acc = await step(acc, x) }] *)
Fixpoint forEachM {A B} (step : A -> B -> M A) (acc : A) (xs : list B)
  : M A :=
  match xs with
  | [] => ret acc
  | x :: xs' => acc' <- step acc x ;; forEachM step acc' xs'
  end.

Definition processLocations (rows : list SHFDataRow) : M JsMap.t :=
  let locationSet := extractLocationSet rows in
  let locationsToCreate := map locationOfKey locationSet in
  forEachM reconcile [] locationsToCreate.

(** *** [processPropertyTypes] *)

Definition processPropertyTypes : M unit :=
  result <- getPropertyTypes ;;
  match result with
  | Error e =>
      throw (newError (js "Failed to get property types: " ++ message e))
  | Data _ => ret tt
  end.

(** *** Price Record Builder and Batch Persister: [processPriceData] *)

(** "Determine location key": [None] is the [continue] of the last
    [else]. *)
Definition priceLocationKey (row : SHFDataRow) : option jsstring :=
  if streq (global row) (js "Nacional") then Some (js "Nacional|national|")
  else if startsWith (js "ZM ") (global row)
  then Some (global row ++ js "|metro_zone|")
  else if truthy (estado row) && negb (truthy (municipio row))
  then Some (estado row ++ js "|state|")
  else if truthy (estado row) && truthy (municipio row)
  then Some (municipio row ++ js "|municipality|" ++ estado row)
  else None.

(** "Determine property type" *)
Definition resolvePropertyType (row : SHFDataRow) : M (option jsstring) :=
  match JsMap.get propertyTypeMap (global row) with
  | Some propertyTypeName =>
      propertyTypes <- getPropertyTypes ;;
      match propertyTypes with
      | Data data =>
          ret (option_map pt_id
                 (find (fun pt => streq (pt_name pt) propertyTypeName) data))
      | Error _ => ret None
      end
  | None => ret None
  end.

(** The body of the row loop: the record pushed for [row], or [None]
    when the row is skipped. *)
Definition buildRecord (locationMap : JsMap.t) (row : SHFDataRow)
  : M (option ProcessedPriceData) :=
  tryCatch
    (match priceLocationKey row with
     | None => ret None
     | Some locationKey =>
         match JsMap.get locationMap locationKey with
         | None => ret None
         | Some locationId =>
             if negb (truthy locationId) then ret None
             else
               propertyTypeId <- resolvePropertyType row ;;
               ret (Some {| location_id := locationId;
                            property_type_id := propertyTypeId;
                            quarter := trimestre row;
                            year := año row;
                            index_value := parseFloat (indice row) |})
         end
     end)
    (fun _ => ret None).

Definition prepareRecords (rows : list SHFDataRow) (locationMap : JsMap.t)
  : M (list ProcessedPriceData) :=
  forEachM
    (fun priceDataToInsert row =>
       r <- buildRecord locationMap row ;;
       ret (match r with
            | Some priceData => priceDataToInsert ++ [priceData]
            | None => priceDataToInsert
            end))
    [] rows.

Definition batchSize : nat := 1000.

(** [for (let i = 0; i < data.length; i += size)]: one upsert per slice
    [data.slice(i, i + size)], its errors logged and dropped.  [fuel]
    bounds the number of iterations. *)
Fixpoint insertBatches (size : nat) (data : list ProcessedPriceData)
         (fuel i : nat) : M unit :=
  match fuel with
  | O => ret tt
  | S fuel' =>
      if i <? List.length data then
        let batch := firstn size (skipn i data) in
        tryCatch (result <- upsertPrices batch ;; ret tt)
                 (fun _ => ret tt) ;;;
        insertBatches size data fuel' (i + size)
      else ret tt
  end.

Definition processPriceData (rows : list SHFDataRow) (locationMap : JsMap.t)
  : M (list ProcessedPriceData) :=
  priceDataToInsert <- prepareRecords rows locationMap ;;
  insertBatches batchSize priceDataToInsert
                (List.length priceDataToInsert) 0 ;;;
  ret priceDataToInsert.

(** *** Upload Orchestrator: [processCSV] *)

Record IngestResult : Type := mkResult {
  success : bool;
  recordsProcessed : nat;
  error : option jsstring
}.

(** [error instanceof Error ? error.message : fallback] *)
Definition describe (e : ErrorValue) (fallback : jsstring) : jsstring :=
  if instanceofError e then message e else fallback.

Definition processCSV (csvContent fileName : jsstring) : M IngestResult :=
  tryCatch
    (created <- insertLog fileName ;;
     match created with
     | Error createErr =>
         throw (newError (js "Failed to create upload log: "
                          ++ message createErr))
     | Data createdLog =>
         let logId := log_id createdLog in
         let rows := parseCSV csvContent in
         let residentialRows := filter isResidential rows in
         locations <- processLocations residentialRows ;;
         processPropertyTypes ;;;
         priceData <- processPriceData residentialRows locations ;;
         updated <- updateLog logId completed (List.length priceData) ;;
         match updated with
         | Error updateErr => throw updateErr
         | Data _ =>
             ret {| success := true;
                    recordsProcessed := List.length priceData;
                    error := None |}
         end
     end)
    (fun e =>
       ret {| success := false;
              recordsProcessed := 0;
              error := Some (describe e (js "Unknown error")) |}).

(* ================================================================= *)
(** ** Entry point: [processSHFCSV] *)

(** An uploaded [File]: its name and what [file.arrayBuffer()] settles to. *)
Record File : Type := mkFile {
  file_name : jsstring;
  arrayBuffer : Result (list N)
}.

Section Upload.

(** [new TextDecoder(label, { fatal: false })] of the platform: the
    constructor throws for a label it does not know, and a decoder turns
    bytes into text, writing U+FFFD where they are not valid. *)
Variable TextDecoder : jsstring -> Result (list N -> jsstring).

(** [(s.match(/�/g) || []).length] *)
Definition replacementCharCount (s : jsstring) : nat :=
  List.length (filter (fun c => (c =? 0xFFFD)%N) s).

(** The loop over the candidate encodings: [csvContent] when it leaves
    the loop (by [break] or at the end) and [bestContent]. *)
Fixpoint tryEncodings (encodings : list jsstring) (buffer : list N)
         (bestContent : jsstring) : jsstring * jsstring :=
  match encodings with
  | [] => ([], bestContent)
  | encoding :: rest =>
      match TextDecoder encoding with
      | Thrown _ => tryEncodings rest buffer bestContent
      | Value decoder =>
          let decoded := decoder buffer in
          let count := replacementCharCount decoded in
          if count =? 0 then (decoded, bestContent)
          else if negb (truthy bestContent)
                  || (count <? replacementCharCount bestContent)
          then tryEncodings rest buffer decoded
          else tryEncodings rest buffer bestContent
      end
  end.

Definition utf8Fallback (buffer : list N) : Result jsstring :=
  match TextDecoder (js "utf-8") with
  | Value decoder => Value (decoder buffer)
  | Thrown e => Thrown e
  end.

(** "Try to detect and convert encoding", with its [catch]. *)
Definition decodeContent (buffer : list N) : Result jsstring :=
  let (csvContent, bestContent) :=
    tryEncodings [js "windows-1252"; js "iso-8859-1"; js "utf-8"] buffer []
  in
  if negb (truthy csvContent) && truthy bestContent then Value bestContent
  else if negb (truthy csvContent) then
    match utf8Fallback buffer with
    | Value s => Value s
    | Thrown _ => utf8Fallback buffer
    end
  else Value csvContent.

(** Both clients, the default one and the authenticated one handed in,
    talk to the same store. *)
Definition processSHFCSV (file : File) : M IngestResult :=
  tryCatch
    (match arrayBuffer file with
     | Thrown e => throw e
     | Value buffer =>
         match decodeContent buffer with
         | Thrown e => throw e
         | Value csvContent => processCSV csvContent (file_name file)
         end
     end)
    (fun e =>
       ret {| success := false;
              recordsProcessed := 0;
              error := Some (describe e (js "Failed to read file")) |}).

End Upload.


(* ================================================================= *)
(** ** Specification-side definitions *)

(** The Row Parser as the specification words it: a blank line and a
    line with fewer than 7 fields give no row, any other line gives one. *)
Definition isBlank (raw : jsstring) : bool := streq (trim raw) [].

Definition fieldCount (raw : jsstring) : nat :=
  List.length (split 59 (trim raw)).

Definition rowsOfLine (raw : jsstring) : list SHFDataRow :=
  if isBlank raw then []
  else if fieldCount raw <? 7 then []
  else [rowOfColumns (split 59 (trim raw))].

Definition newline : jsstring := [10%N].

(** A row as the parser produces it, for examples. *)
Definition sampleRow (g e m : String.string) (q y : Z) (i : String.string)
  : SHFDataRow :=
  mkRow 1 (js g) (js e) (js m) q y (js i).

(** A store with the five property types seeded and nothing else, in
    which every call is carried out. *)
Definition seededWorld : World :=
  mkWorld []
          [mkPropertyType (js "pt-1") (js "nueva");
           mkPropertyType (js "pt-2") (js "usada");
           mkPropertyType (js "pt-3") (js "casa_sola");
           mkPropertyType (js "pt-4") (js "condominio");
           mkPropertyType (js "pt-5") (js "media_residencial")]
          [] [] 100 [] (fun _ => Normal).

(** [seededWorld] with another fault plan. *)
Definition withPlan (p : nat -> Fault) (w : World) : World :=
  mkWorld (locations w) (property_types w) (price_indices w)
          (upload_logs w) (next_id w) (calls w) p.

Definition refused : ErrorValue := mkError false (js "permission denied").

(** A computation that never throws. *)
Definition total {A} (m : M A) : Prop :=
  forall w, exists a w', m w = (Value a, w').

(** The two results [processCSV] can return. *)
Definition failure (e : ErrorValue) : IngestResult :=
  mkResult false 0 (Some (describe e (js "Unknown error"))).

Definition completedWith (n : nat) : IngestResult := mkResult true n None.

(** The plan in which the call number [k] is answered with an error and
    every other call is carried out. *)
Definition failingAt (k : nat) : nat -> Fault :=
  fun n => if n =? k then ErrorResult refused else Normal.

(** Consecutive batches of at most [size] records, as the specification
    words the Batch Persister; [fuel] bounds their number. *)
Fixpoint batchesOf {A} (size fuel : nat) (l : list A) : list (list A) :=
  match fuel with
  | O => []
  | S fuel' =>
      match l with
      | [] => []
      | _ :: _ => firstn size l :: batchesOf size fuel' (skipn size l)
      end
  end.

(** The table after the batches [bs] were sent as the calls number [n],
    [n + 1], ...: a batch is stored when its call is carried out, and the
    table is left as it is when the call fails. *)
Fixpoint commitBatches (p : nat -> Fault) (n : nat)
         (bs : list (list ProcessedPriceData))
         (table : list ProcessedPriceData) : list ProcessedPriceData :=
  match bs with
  | [] => table
  | b :: bs' =>
      commitBatches p (S n) bs'
        (match p n with
         | Normal => fold_left upsertOne b table
         | _ => table
         end)
  end.

(** The world after the batches [bs] were sent from [w]. *)
Definition afterBatches (w : World) (bs : list (list ProcessedPriceData))
  : World :=
  mkWorld (locations w) (property_types w)
          (commitBatches (plan w) (List.length (calls w)) bs
                         (price_indices w))
          (upload_logs w) (next_id w)
          (calls w ++ map UpsertPrices bs) (plan w).

(** The world after the calls [cs] were recorded. *)
Definition recordCalls (w : World) (cs : list Call) : World :=
  setField_calls w (calls w ++ cs).

(** The world after [row] was added to the locations. *)
Definition addLocation (w : World) (row : Location) : World :=
  mkWorld (locations w ++ [row]) (property_types w) (price_indices w)
          (upload_logs w) (S (next_id w)) (calls w) (plan w).

(** The row the store creates for [location] in the world [w]. *)
Definition rowFor (w : World) (location : ProcessedLocation) : Location :=
  mkLocation (idOfNat (next_id w)) (type location) (name location)
             (state location).

(** A persisted location that matches (name, type, state) exactly, as the
    specification words it: the same name, the same type, and the same
    state or no state on either side. *)
Definition matchesExactly (location : ProcessedLocation) (loc : Location)
  : bool :=
  streq (loc_name loc) (name location)
  && streq (loc_type loc) (type location)
  && optEq (loc_state loc) (state location).

(** The persisted locations that match [location] exactly. *)
Definition matching (location : ProcessedLocation) (w : World)
  : list Location :=
  filter (matchesExactly location) (locations w).

(** The calls one iteration of the reconcile-or-create loop may issue for
    [location]: the read alone, or the read and one insert. *)
Definition reconcileTrace (location : ProcessedLocation) (t : list Call)
  : Prop :=
  t = [SelectLocations]
  \/ t = [SelectLocations; InsertLocation location].

Definition isInsertLocation (c : Call) : bool :=
  match c with InsertLocation _ => true | _ => false end.

(** The world after the Location Resolver created the rows [created] and
    issued the calls [t]. *)
Definition afterLocations (w : World) (created : list Location)
           (t : list Call) : World :=
  mkWorld (locations w ++ created) (property_types w) (price_indices w)
          (upload_logs w) (List.length created + next_id w)
          (calls w ++ t) (plan w).

(** What one iteration leaves behind for [location]: its calls, and the
    row it created, if any. *)
Definition reconcileStep (location : ProcessedLocation)
           (step : list Call * list Location) : Prop :=
  reconcileTrace location (fst step)
  /\ (snd step = []
      \/ exists id,
          snd step = [mkLocation id (type location) (name location)
                                 (state location)]).

Definition isLogCall (c : Call) : bool :=
  match c with
  | InsertLog _ | UpdateLog _ _ _ => true
  | _ => false
  end.

(** [w'] comes after [w] without any call on the upload log: the log
    table and the fault plan are the same, and the calls issued in between
    are calls on other tables. *)
Definition quiet (w w' : World) : Prop :=
  upload_logs w' = upload_logs w
  /\ plan w' = plan w
  /\ exists t, calls w' = calls w ++ t
               /\ Forall (fun c => isLogCall c = false) t.

(** A computation that issues no call on the upload log. *)
Definition Quiet {A} (m : M A) : Prop := forall w, quiet w (snd (m w)).

(** The entry [processCSV] creates in [w] for the file [f]. *)
Definition createdEntry (w : World) (f : jsstring) : DataUploadLog :=
  mkLog (idOfNat (next_id w)) f 0 processing None.

(** The world after the log entry for [f] was created in [w]. *)
Definition afterCreation (w : World) (f : jsstring) : World :=
  mkWorld (locations w) (property_types w) (price_indices w)
          (upload_logs w ++ [createdEntry w f]) (S (next_id w))
          (calls w ++ [InsertLog f]) (plan w).

(** The three ways a run goes on once its log entry exists: it fails
    before the final update is issued, the final update is issued and not
    carried out, or the final update is carried out. *)
Inductive Outcome (w : World) (f : jsstring)
  : IngestResult -> World -> Prop :=
| FailedBefore (e : ErrorValue) (w' : World) :
    quiet (afterCreation w f) w' ->
    Outcome w f (failure e) w'
| UpdateRefused (e : ErrorValue) (w3 : World) (n : nat) :
    quiet (afterCreation w f) w3 ->
    plan w (List.length (calls w3)) <> Normal ->
    Outcome w f (failure e)
            (recordCalls w3 [UpdateLog (idOfNat (next_id w)) completed n])
| Completed (w3 w' : World) (n : nat) :
    quiet (afterCreation w f) w3 ->
    plan w (List.length (calls w3)) = Normal ->
    upload_logs w'
    = map (fun entry =>
             if streq (log_id entry) (idOfNat (next_id w))
             then mkLog (log_id entry) (filename entry) n completed
                        (error_message entry)
             else entry)
          (upload_logs w ++ [createdEntry w f]) ->
    Outcome w f (completedWith n) w'.

(* ================================================================= *)
(** ** Words a pattern matches, and where they occur *)

Module Words.

(** The words the body of a pattern matches, in the order the matcher
    tries them. *)
Fixpoint alternatives (re : list atom) : list jsstring :=
  match re with
  | [] => [[]]
  | Lit c :: re' => map (cons c) (alternatives re')
  | Opt c :: re' => map (cons c) (alternatives re') ++ alternatives re'
  end.

(** The word [q] is read from [s], and, for a bounded pattern, a word
    boundary follows it. *)
Fixpoint matchTail (wb : bool) (q : jsstring) (prev : option N)
         (s : jsstring) : bool :=
  match q with
  | [] => negb wb || atBoundary prev s
  | x :: q' =>
      match s with
      | c :: s' => (c =? x)%N && matchTail wb q' (Some c) s'
      | [] => false
      end
  end.

(** The word [q] matches at the start of [s], after the character
    [prev]. *)
Definition matchWord (wb : bool) (q : jsstring) (prev : option N)
           (s : jsstring) : bool :=
  (negb wb || atBoundary prev s) && matchTail wb q prev s.

(** The word [q] matches somewhere in [s]. *)
Fixpoint occurs (wb : bool) (q : jsstring) (prev : option N) (s : jsstring)
  : bool :=
  matchWord wb q prev s
  || match s with
     | [] => false
     | c :: s' => occurs wb q (Some c) s'
     end.

(** No word of the pattern [re] matches anywhere in [s]. *)
Definition clean (re : regex) (s : jsstring) : bool :=
  forallb (fun q => negb (occurs (bounded re) q None s))
          (alternatives (body re)).

(** One of the two words is a prefix of the other. *)
Definition prefixCompatible (a b : jsstring) : bool :=
  startsWith a b || startsWith b a.

(** The word [a] cannot begin anywhere inside [b]: no non-empty suffix of
    [b] is prefix-compatible with it. *)
Fixpoint notInside (a b : jsstring) : bool :=
  match b with
  | [] => true
  | _ :: b' => negb (prefixCompatible a b) && notInside a b'
  end.

(** A word [q] and a replacement [r] that cannot overlap. *)
Definition apart (q r : jsstring) : bool := notInside q r && notInside r q.

(** The last character read after [p], starting after [prev]. *)
Definition lastOf (prev : option N) (p : jsstring) : option N :=
  fold_left (fun _ c => Some c) p prev.

(** [p] and [r] begin alike and end alike, as far as [\b] can tell. *)
Definition sameEnds (p r : jsstring) : bool :=
  Bool.eqb (wordAt p) (wordAt r)
  && Bool.eqb (wordBefore (lastOf None p)) (wordBefore (lastOf None r)).

Definition pass : Type := (regex * jsstring)%type.

(** A pass that replaces its only word by itself. *)
Definition isIdentityPass (p : pass) : bool :=
  match alternatives (body (fst p)) with
  | [q] => streq q (snd p) && truthy q
  | _ => false
  end.

(** A pass whose words are not empty and are replaced by a word with the
    same ends. *)
Definition goodPass (p : pass) : bool :=
  truthy (snd p)
  && forallb (fun q => truthy q && sameEnds q (snd p))
             (alternatives (body (fst p))).

(** The words of [p'] are not empty and cannot overlap the replacement
    [r]. *)
Definition apartFrom (r : jsstring) (p' : pass) : bool :=
  isIdentityPass p'
  || forallb (fun q => truthy q && apart q r)
             (alternatives (body (fst p'))).

(** Every pass of [rest] is the identity, or is good and its replacement
    cannot overlap its own words nor those of the passes before it. *)
Fixpoint checkPasses (done rest : list pass) : bool :=
  match rest with
  | [] => true
  | p :: rest' =>
      (isIdentityPass p
       || goodPass p && forallb (apartFrom (snd p)) (done ++ [p]))
      && checkPasses (done ++ [p]) rest'
  end.

(** White space at the two ends of a text. *)
Definition spaceAt (s : jsstring) : bool :=
  match s with c :: _ => isWhiteSpace c | [] => false end.

Definition spaceBefore (prev : option N) : bool :=
  match prev with Some c => isWhiteSpace c | None => false end.

(** A word without white space at its ends. *)
Definition tidyWord (q : jsstring) : bool :=
  negb (spaceAt q) && negb (spaceBefore (lastOf None q)).

(** A pass that neither removes nor brings white space at the ends of a
    match. *)
Definition tidyPass (p : pass) : bool :=
  isIdentityPass p
  || goodPass p && tidyWord (snd p)
     && forallb tidyWord (alternatives (body (fst p))).

(** Nothing is left for the pass [p] to do in the text [t]. *)
Definition settled (p : pass) (t : jsstring) : Prop :=
  isIdentityPass p = true \/ clean (fst p) t = true.

End Words.
Import Words.

(* ================================================================= *)
(** ** Further specification-side definitions *)

(** The key of a persisted location, as [processLocations] writes it. *)
Definition keyOfLocation (loc : Location) : jsstring :=
  mapKey (mkProcessedLocation (loc_type loc) (loc_name loc) (loc_state loc)).

(** [w'] holds every location of [w], in the same order, and maybe more. *)
Definition grows (w w' : World) : Prop :=
  exists created, locations w' = locations w ++ created.

(** The characters a word of some pattern of the normalizer begins with:
    [Ã] and eleven capital letters. *)
Definition initials : list N :=
  [0xC3; 76; 78; 77; 67; 81; 90; 74; 66; 65; 71; 84]%N.

(** A location object without state: those of the national, metro-zone
    and state keys. *)
Definition stateless (location : ProcessedLocation) : bool :=
  match state location with
  | None => true
  | Some _ => false
  end.

(** The location object a persisted location was created from. *)
Definition unsaved (loc : Location) : ProcessedLocation :=
  mkProcessedLocation (loc_type loc) (loc_name loc) (loc_state loc).

(** The calls of an iteration for a location that was resolved before:
    the read and an insert when it has no state, the read alone when it
    has one. *)
Definition repeatedCalls (location : ProcessedLocation) : list Call :=
  if stateless location
  then [SelectLocations; InsertLocation location]
  else [SelectLocations].

(** Every identifier of the map [m] is the identifier of a location of
    [w] with the key it is stored under. *)
Definition persisted (m : JsMap.t) (w : World) : Prop :=
  forall k id,
    JsMap.get m k = Some id ->
    exists loc, In loc (locations w) /\ loc_id loc = id
                /\ keyOfLocation loc = k.

(** A computation whose every run relates the world before and after by
    [R]. *)
Definition Keeps {A} (R : World -> World -> Prop) (m : M A) : Prop :=
  forall w, R w (snd (m w)).

(** The price table is untouched and no location is lost. *)
Definition pricesKept (w w' : World) : Prop :=
  price_indices w' = price_indices w /\ grows w w'.

(** Every price record of [w'] was in [w] already or points to a location
    of [w']. *)
Definition newPricesResolve (w w' : World) : Prop :=
  forall p,
    In p (price_indices w') ->
    In p (price_indices w)
    \/ exists loc, In loc (locations w') /\ loc_id loc = location_id p.

(** Decoders for examples: one byte, one code unit; and one that reads
    every byte above 127 as U+FFFD. *)
Definition byteDecoder (buffer : list N) : jsstring := buffer.

Definition asciiDecoder (buffer : list N) : jsstring :=
  map (fun b => if (b <? 128)%N then b else 0xFFFD%N) buffer.

Definition sampleTextDecoder (label : jsstring)
  : Result (list N -> jsstring) :=
  if streq label (js "utf-8") then Value asciiDecoder else Value byteDecoder.

(** A platform that only knows utf-8. *)
Definition utf8Only (label : jsstring) : Result (list N -> jsstring) :=
  if streq label (js "utf-8") then Value asciiDecoder
  else Thrown (newError (js "unsupported encoding")).
(* ================================================================= *)
(** * Properties *)

(** ** Strings *)

Lemma streq_spec (a b : jsstring) : streq a b = true <-> a = b.
Proof.
  revert b; induction a as [|x a IH]; intros [|y b]; simpl; split;
    try congruence; try reflexivity.
  - rewrite andb_true_iff, N.eqb_eq, IH. intros [-> ->]. reflexivity.
  - intros E. injection E as -> ->. rewrite N.eqb_refl.
    simpl. apply IH. reflexivity.
Qed.

Lemma streq_refl (a : jsstring) : streq a a = true.
Proof. apply streq_spec. reflexivity. Qed.

Lemma streq_false (a b : jsstring) : streq a b = false <-> a <> b.
Proof.
  rewrite <- streq_spec. destruct (streq a b); split; congruence.
Qed.

Lemma split_first (sep : N) (a b : jsstring) :
  ~ In sep a -> split sep (a ++ sep :: b) = a :: split sep b.
Proof.
  induction a as [|c a IH]; intros Hsep; simpl.
  - now rewrite N.eqb_refl.
  - destruct (N.eqb_spec c sep) as [->|_].
    + exfalso. apply Hsep. now left.
    + rewrite IH by (intros H; apply Hsep; now right). reflexivity.
Qed.

Lemma split_none (sep : N) (a : jsstring) :
  ~ In sep a -> split sep a = [a].
Proof.
  induction a as [|c a IH]; intros Hsep; simpl.
  - reflexivity.
  - destruct (N.eqb_spec c sep) as [->|_].
    + exfalso. apply Hsep. now left.
    + rewrite IH by (intros H; apply Hsep; now right). reflexivity.
Qed.

(* ================================================================= *)
(** ** Row Parser *)

Lemma truthy_streq_nil (s : jsstring) : negb (truthy s) = streq s [].
Proof. destruct s; reflexivity. Qed.

Lemma parseStep_rowsOfLine (rows : list SHFDataRow) (raw : jsstring) :
  parseStep rows raw = rows ++ rowsOfLine raw.
Proof.
  unfold parseStep, rowsOfLine, isBlank, fieldCount.
  rewrite truthy_streq_nil.
  destruct (streq (trim raw) []).
  - now rewrite app_nil_r.
  - destruct (List.length (split 59 (trim raw)) <? 7).
    + now rewrite app_nil_r.
    + reflexivity.
Qed.

Lemma parse_loop (lines : list jsstring) (rows : list SHFDataRow) :
  fold_left parseStep lines rows = rows ++ flat_map rowsOfLine lines.
Proof.
  revert rows; induction lines as [|raw lines IH]; intros rows; simpl.
  - now rewrite app_nil_r.
  - rewrite IH, parseStep_rowsOfLine, <- app_assoc. reflexivity.
Qed.

(** C8.  The Row Parser never looks at the first line; after it, a blank
    line and a line with fewer than 7 semicolon-separated fields give no
    Raw Row, and every other line gives exactly one.  [parseCSV] is a total
    function: no line makes it fail. *)
Theorem parseCSV_line_by_line (csvContent : jsstring) :
  parseCSV csvContent = flat_map rowsOfLine (tl (split 10 csvContent))
  /\ (forall header rest : jsstring,
         ~ In 10%N header ->
         parseCSV (header ++ newline ++ rest)
         = flat_map rowsOfLine (split 10 rest))
  /\ (forall raw : jsstring,
         (isBlank raw = true -> rowsOfLine raw = [])
         /\ (fieldCount raw < 7 -> rowsOfLine raw = [])
         /\ (isBlank raw = false -> 7 <= fieldCount raw ->
             rowsOfLine raw = [rowOfColumns (split 59 (trim raw))])).
Proof.
  assert (Hall : forall csv,
             parseCSV csv = flat_map rowsOfLine (tl (split 10 csv))).
  { intros csv. unfold parseCSV. rewrite parse_loop. simpl.
    destruct (split 10 csv); reflexivity. }
  split; [apply Hall|]. split.
  - intros header rest Hnl. rewrite Hall. unfold newline. simpl.
    rewrite split_first by assumption. reflexivity.
  - intros raw. unfold rowsOfLine. repeat split.
    + intros ->. reflexivity.
    + intros Hlt. apply Nat.ltb_lt in Hlt. rewrite Hlt.
      now destruct (isBlank raw).
    + intros -> Hge. apply Nat.ltb_ge in Hge. now rewrite Hge.
Qed.

Lemma parseCSV_line_by_line_witness :
  parseCSV (js "h" ++ newline ++ js "1;Nacional;;;2;2020;150,25" ++ newline
            ++ js "a;b;c;d;e")
  = [mkRow 1 (js "Nacional") [] [] 2 2020 (js "150.25")].
Proof.
  destruct (parseCSV_line_by_line []) as (_ & Hhead & Hline).
  rewrite (Hhead (js "h")).
  - vm_compute. reflexivity.
  - vm_compute. intros [H|[]]. discriminate H.
Defined.

(* ================================================================= *)
(** ** Location keys of the two stages *)

(** Outside the property-type case the two derivations agree, for rows
    whose state and municipality are not made of white space only (the
    parser trims them). *)
Lemma keys_agree_when_classified (row : SHFDataRow) (k : jsstring) :
  present (estado row) = truthy (estado row) ->
  present (municipio row) = truthy (municipio row) ->
  priceLocationKey row = Some k ->
  locationSetKey row = Some k.
Proof.
  unfold priceLocationKey, locationSetKey. intros -> ->.
  destruct (streq (global row) (js "Nacional")); [trivial|].
  destruct (startsWith (js "ZM ") (global row)); [trivial|].
  destruct (truthy (estado row)), (truthy (municipio row)); simpl;
    trivial; discriminate.
Qed.

(** C1.  On the row parsed from the line [1;Usada;;;1;2020;100,5] the
    Location Resolver derives the national key (its property-type case)
    while the Price Record Builder derives no key at all: its derivation
    has four cases, not five. *)
Theorem price_key_lacks_property_type_case :
  let row := mkRow 1 (js "Usada") [] [] 1 2020 (js "100.5") in
  parseCSV (js "h" ++ newline ++ js "1;Usada;;;1;2020;100,5") = [row]
  /\ isResidential row = true
  /\ locationSetKey row = Some (js "Nacional|national|")
  /\ priceLocationKey row = None.
Proof. vm_compute. repeat split. Qed.

(* ================================================================= *)
(** ** Price Record Builder *)

Lemma startsWith_prefix (p s : jsstring) :
  startsWith p s = true -> exists t, s = p ++ t.
Proof.
  revert s; induction p as [|x p IH]; intros s H.
  - exists s. reflexivity.
  - destruct s as [|y s]; [discriminate H|]. simpl in H.
    apply andb_true_iff in H as [Hxy H]. apply N.eqb_eq in Hxy. subst y.
    destruct (IH s H) as [t ->]. exists t. reflexivity.
Qed.

(** A row with a property-type label and neither state nor municipality
    is skipped, whatever the location map holds. *)
Lemma buildRecord_skips_property_type_rows
      (locationMap : JsMap.t) (row : SHFDataRow) (w : World) :
  JsMap.has propertyTypeMap (global row) = true ->
  estado row = [] -> municipio row = [] ->
  buildRecord locationMap row w = (Value None, w).
Proof.
  intros Hpt He Hm. unfold buildRecord, tryCatch.
  assert (Hkey : priceLocationKey row = None).
  { unfold priceLocationKey. rewrite He, Hm.
    destruct (streq (global row) (js "Nacional")) eqn:Hn.
    - apply streq_spec in Hn. rewrite Hn in Hpt. discriminate Hpt.
    - destruct (startsWith (js "ZM ") (global row)) eqn:Hz; [|reflexivity].
      exfalso. apply startsWith_prefix in Hz as [t Ht].
      rewrite Ht in Hpt. vm_compute in Hpt.
      discriminate Hpt. }
  rewrite Hkey. reflexivity.
Qed.

(** C2.  The line [2;Usada;;;1;2020;100,5] is kept by the residential
    filter and makes the Location Resolver create the national location,
    but the Price Record Builder skips it: the run reports no record and
    stores none. *)
Theorem property_type_row_gives_no_record :
  let csv := js "h" ++ newline ++ js "2;Usada;;;1;2020;100,5" in
  let rows := filter isResidential (parseCSV csv) in
  let run := processCSV csv (js "shf.csv") seededWorld in
  rows = [mkRow 2 (js "Usada") [] [] 1 2020 (js "100.5")]
  /\ fst run = Value (mkResult true 0 None)
  /\ locations (snd run)
     = [mkLocation (js "101") (js "national") (js "Nacional") None]
  /\ price_indices (snd run) = []
  /\ (forall locationMap w,
         fst (buildRecord locationMap
                          (mkRow 2 (js "Usada") [] [] 1 2020 (js "100.5")) w)
         = Value None).
Proof.
  split; [vm_compute; reflexivity|].
  split; [vm_compute; reflexivity|].
  split; [vm_compute; reflexivity|].
  split; [vm_compute; reflexivity|].
  intros locationMap w.
  rewrite buildRecord_skips_property_type_rows; reflexivity.
Qed.

Lemma request_run {A} (c : Call) (effect : World -> A * World) (w : World) :
  request c effect w
  = let w1 := setField_calls w (calls w ++ [c]) in
    match plan w (List.length (calls w)) with
    | Normal => (Value (Data (fst (effect w1))), snd (effect w1))
    | ErrorResult e => (Value (Error e), w1)
    | Rejected e => (Thrown e, w1)
    end.
Proof.
  unfold request. cbv zeta.
  destruct (plan w (List.length (calls w))); try reflexivity.
  destruct (effect _); reflexivity.
Qed.

(** The property-type read of a row does not throw unless the read
    itself rejects. *)
Lemma resolvePropertyType_value (row : SHFDataRow) (w : World) :
  (forall e, plan w (List.length (calls w)) <> Rejected e) ->
  exists pt w', resolvePropertyType row w = (Value pt, w').
Proof.
  intros Hplan. unfold resolvePropertyType.
  destruct (JsMap.get propertyTypeMap (global row)) as [propertyTypeName|].
  - unfold bind, getPropertyTypes. rewrite request_run. cbv zeta.
    destruct (plan w (List.length (calls w))) as [|e|e] eqn:Hp.
    + eexists; eexists; reflexivity.
    + eexists; eexists; reflexivity.
    + exfalso. exact (Hplan e eq_refl).
  - eexists; eexists; reflexivity.
Qed.

(** C3 (as the code has it).  The index text never decides whether a row
    is skipped: a row whose location key resolves gives a record whose
    [index_value] is [parseFloat] of the text, NaN included, unless the
    read of the property types rejects. *)
Theorem index_text_never_skips
        (locationMap : JsMap.t) (row : SHFDataRow) (w : World)
        (key id : jsstring) :
  priceLocationKey row = Some key ->
  JsMap.get locationMap key = Some id ->
  truthy id = true ->
  (forall e, plan w (List.length (calls w)) <> Rejected e) ->
  exists pt w',
    buildRecord locationMap row w
    = (Value (Some (mkPriceData id pt (trimestre row) (año row)
                                (parseFloat (indice row)))), w').
Proof.
  intros Hkey Hget Hid Hplan.
  destruct (resolvePropertyType_value row w Hplan) as (pt & w' & Hpt).
  exists pt, w'. unfold buildRecord, tryCatch, bind.
  rewrite Hkey, Hget, Hid. cbn [negb]. rewrite Hpt. reflexivity.
Qed.

Lemma index_text_never_skips_witness :
  exists pt w',
    buildRecord [(js "Nacional|national|", js "101")]
                (sampleRow "Nacional" "" "" 2 2020 "abc") seededWorld
    = (Value (Some (mkPriceData (js "101") pt 2 2020 NaN)), w').
Proof.
  apply (index_text_never_skips
           [(js "Nacional|national|", js "101")]
           (sampleRow "Nacional" "" "" 2 2020 "abc") seededWorld
           (key := js "Nacional|national|") (id := js "101")).
  - reflexivity.
  - reflexivity.
  - reflexivity.
  - intros e. vm_compute. discriminate.
Defined.

(** C3 as stated fails: the index text [abc] does not parse, and the row
    is not skipped. *)
Lemma unparsable_index_is_not_skipped :
  ~ (forall (locationMap : JsMap.t) (row : SHFDataRow) (w : World),
        isNaN (parseFloat (indice row)) = true ->
        fst (buildRecord locationMap row w) = Value None).
Proof.
  intros H.
  specialize (H [(js "Nacional|national|", js "101")]
                (sampleRow "Nacional" "" "" 2 2020 "abc") seededWorld
                eq_refl).
  vm_compute in H. discriminate H.
Qed.

(** The record with NaN reaches the Batch Persister. *)
Example unparsable_index_is_upserted :
  let csv := js "h" ++ newline ++ js "1;Nacional;;;2;2020;abc" in
  let run := processCSV csv (js "shf.csv") seededWorld in
  fst run = Value (mkResult true 1 None)
  /\ In (UpsertPrices [mkPriceData (js "101") None 2 2020 NaN])
        (calls (snd run)).
Proof.
  vm_compute. split; [reflexivity|]. do 4 right. left. reflexivity.
Qed.

(* ================================================================= *)
(** ** Computations that never throw *)

Lemma total_ret {A} (a : A) : total (ret a).
Proof. intros w. exists a, w. reflexivity. Qed.

Lemma total_bind {A B} (m : M A) (k : A -> M B) :
  total m -> (forall a, total (k a)) -> total (bind m k).
Proof.
  intros Hm Hk w. destruct (Hm w) as (a & w1 & E).
  destruct (Hk a w1) as (b & w2 & E2).
  exists b, w2. unfold bind. rewrite E. exact E2.
Qed.

Lemma total_tryCatch {A} (m : M A) (h : ErrorValue -> M A) :
  (forall e, total (h e)) -> total (tryCatch m h).
Proof.
  intros Hh w. unfold tryCatch.
  destruct (m w) as [[a|e] w1].
  - exists a, w1. reflexivity.
  - apply Hh.
Qed.

Lemma total_forEachM {A B} (step : A -> B -> M A) (xs : list B) :
  (forall acc x, total (step acc x)) ->
  forall acc, total (forEachM step acc xs).
Proof.
  intros Hstep. induction xs as [|x xs IH]; intros acc; simpl.
  - apply total_ret.
  - apply total_bind; [apply Hstep | intros a; apply IH].
Qed.

Lemma processLocations_total (rows : list SHFDataRow) :
  total (processLocations rows).
Proof.
  unfold processLocations. apply total_forEachM.
  intros acc x. apply total_tryCatch. intros e. apply total_ret.
Qed.

Lemma prepareRecords_total (rows : list SHFDataRow) (m : JsMap.t) :
  total (prepareRecords rows m).
Proof.
  unfold prepareRecords. apply total_forEachM. intros acc row.
  apply total_bind.
  - apply total_tryCatch. intros e. apply total_ret.
  - intros r. apply total_ret.
Qed.

Lemma insertBatches_total (size : nat) (data : list ProcessedPriceData)
      (fuel i : nat) :
  total (insertBatches size data fuel i).
Proof.
  revert i; induction fuel as [|fuel IH]; intros i; simpl.
  - apply total_ret.
  - destruct (i <? List.length data); [|apply total_ret].
    apply total_bind.
    + apply total_tryCatch. intros e. apply total_ret.
    + intros _. apply IH.
Qed.

(* ================================================================= *)
(** ** The orchestrator, stage by stage *)

Lemma processCSV_run (csvContent fileName : jsstring) (w : World) :
  processCSV csvContent fileName w
  = let rows := filter isResidential (parseCSV csvContent) in
    match insertLog fileName w with
    | (Thrown e, w0) => (Value (failure e), w0)
    | (Value (Error createErr), w0) =>
        (Value (failure (newError (js "Failed to create upload log: "
                                   ++ message createErr))), w0)
    | (Value (Data createdLog), w0) =>
        match processLocations rows w0 with
        | (Thrown e, w1) => (Value (failure e), w1)
        | (Value locs, w1) =>
            match processPropertyTypes w1 with
            | (Thrown e, w2) => (Value (failure e), w2)
            | (Value _, w2) =>
                match processPriceData rows locs w2 with
                | (Thrown e, w3) => (Value (failure e), w3)
                | (Value priceData, w3) =>
                    match updateLog (log_id createdLog) completed
                                    (List.length priceData) w3 with
                    | (Thrown e, w4) => (Value (failure e), w4)
                    | (Value (Error e), w4) => (Value (failure e), w4)
                    | (Value (Data _), w4) =>
                        (Value (completedWith (List.length priceData)), w4)
                    end
                end
            end
        end
    end.
Proof.
  unfold processCSV, tryCatch, bind. cbv zeta.
  destruct (insertLog fileName w) as [[[createdLog|createErr]|e] w0];
    try reflexivity.
  destruct (processLocations _ w0) as [[locs|e] w1]; try reflexivity.
  destruct (processPropertyTypes w1) as [[[]|e] w2]; try reflexivity.
  destruct (processPriceData _ locs w2) as [[priceData|e] w3];
    try reflexivity.
  destruct (updateLog _ _ _ w3) as [[[[]|e]|e] w4]; reflexivity.
Qed.

(** C10.  A failure result always reports zero records, from [processCSV]
    and from [processSHFCSV] alike, also when batches of price records
    had been committed before the failure: in the run below the only
    batch is stored and the final update of the log is refused. *)
Theorem failure_reports_zero_records :
  (forall csvContent fileName w r w',
      processCSV csvContent fileName w = (Value r, w') ->
      success r = false -> recordsProcessed r = 0)
  /\ (forall TextDecoder file w r w',
         processSHFCSV TextDecoder file w = (Value r, w') ->
         success r = false -> recordsProcessed r = 0)
  /\ (let csv := js "h" ++ newline ++ js "1;Nacional;;;2;2020;150,25" in
      let run :=
        processCSV csv (js "shf.csv") (withPlan (failingAt 5) seededWorld) in
      fst run = Value (mkResult false 0 (Some (js "Unknown error")))
      /\ price_indices (snd run)
         = [mkPriceData (js "101") None 2 2020 (Finite false 15025 (-2))]).
Proof.
  assert (Hcsv : forall csvContent fileName w r w',
             processCSV csvContent fileName w = (Value r, w') ->
             success r = false -> recordsProcessed r = 0).
  { intros csv f w r w' Hrun Hfail. rewrite processCSV_run in Hrun.
    cbv zeta in Hrun.
    destruct (insertLog f w) as [[[createdLog|createErr]|e] w0];
      [|injection Hrun as <- _; reflexivity..].
    destruct (processLocations _ w0) as [[locs|e] w1];
      [|injection Hrun as <- _; reflexivity].
    destruct (processPropertyTypes w1) as [[[]|e] w2];
      [|injection Hrun as <- _; reflexivity].
    destruct (processPriceData _ locs w2) as [[priceData|e] w3];
      [|injection Hrun as <- _; reflexivity].
    destruct (updateLog _ _ _ w3) as [[[[]|e]|e] w4];
      injection Hrun as <- _; try reflexivity.
    discriminate Hfail. }
  split; [exact Hcsv|]. split.
  - intros TextDecoder file w r w' Hrun Hfail.
    unfold processSHFCSV, tryCatch in Hrun.
    destruct (arrayBuffer file) as [buffer|e].
    + destruct (decodeContent TextDecoder buffer) as [csvContent|e].
      * destruct (processCSV csvContent (file_name file) w)
          as [[r0|e] w0] eqn:Hinner.
        -- injection Hrun as <- _. eapply Hcsv; eassumption.
        -- injection Hrun as <- _. reflexivity.
      * injection Hrun as <- _. reflexivity.
    + injection Hrun as <- _. reflexivity.
  - vm_compute. split; reflexivity.
Qed.

Lemma failure_reports_zero_records_witness :
  recordsProcessed
    (mkResult false 0
       (Some (js "Failed to create upload log: permission denied")))
  = 0.
Proof.
  destruct failure_reports_zero_records as (Hcsv & _ & _).
  apply (Hcsv (js "h") (js "shf.csv") (withPlan (failingAt 0) seededWorld)
              _ (snd (processCSV (js "h") (js "shf.csv")
                                 (withPlan (failingAt 0) seededWorld)))).
  - vm_compute. reflexivity.
  - reflexivity.
Defined.

(* ================================================================= *)
(** ** Batch Persister *)

Lemma batchesOf_bounded {A} (size fuel : nat) (l : list A) :
  Forall (fun b => List.length b <= size) (batchesOf size fuel l).
Proof.
  revert l; induction fuel as [|fuel IH]; intros l; simpl.
  - constructor.
  - destruct l as [|x l]; constructor.
    + apply firstn_le_length.
    + apply IH.
Qed.

Lemma batchesOf_concat {A} (size fuel : nat) (l : list A) :
  0 < size -> List.length l <= fuel ->
  List.concat (batchesOf size fuel l) = l.
Proof.
  intros Hsize. revert l; induction fuel as [|fuel IH]; intros l Hlen.
  - destruct l; [reflexivity | simpl in Hlen; lia].
  - destruct l as [|x l]; [reflexivity|].
    cbn [batchesOf concat]. rewrite IH.
    + apply firstn_skipn.
    + rewrite length_skipn.
      change (List.length (x :: l)) with (S (List.length l)) in *. lia.
Qed.

Lemma afterBatches_nil (w : World) : afterBatches w [] = w.
Proof.
  destruct w. unfold afterBatches. simpl. rewrite app_nil_r. reflexivity.
Qed.

(** One iteration of the batch loop: the call is recorded, the batch is
    stored if the call is carried out, and no failure leaves the [try]. *)
Lemma upsert_attempt (batch : list ProcessedPriceData) (w : World) :
  tryCatch (result <- upsertPrices batch ;; ret tt) (fun _ => ret tt) w
  = (Value tt, afterBatches w [batch]).
Proof.
  unfold tryCatch, bind, upsertPrices. rewrite request_run. cbv zeta.
  unfold afterBatches. cbn [map commitBatches].
  destruct (plan w (List.length (calls w))); reflexivity.
Qed.

Lemma afterBatches_cons (w : World) (b : list ProcessedPriceData)
      (bs : list (list ProcessedPriceData)) :
  afterBatches (afterBatches w [b]) bs = afterBatches w (b :: bs).
Proof.
  unfold afterBatches. cbn [locations property_types price_indices
    upload_logs next_id calls plan map commitBatches].
  rewrite length_app, Nat.add_1_r, <- app_assoc. reflexivity.
Qed.

Lemma insertBatches_run (size : nat) (data : list ProcessedPriceData)
      (fuel i : nat) (w : World) :
  insertBatches size data fuel i w
  = (Value tt, afterBatches w (batchesOf size fuel (skipn i data))).
Proof.
  revert i w; induction fuel as [|fuel IH]; intros i w.
  - simpl. now rewrite afterBatches_nil.
  - cbn [insertBatches batchesOf].
    destruct (i <? List.length data) eqn:Hi.
    + apply Nat.ltb_lt in Hi.
      destruct (skipn i data) as [|x rest] eqn:Hrest.
      * exfalso. apply (f_equal (@List.length _)) in Hrest.
        rewrite length_skipn in Hrest. simpl in Hrest. lia.
      * unfold bind at 1. rewrite upsert_attempt, IH.
        rewrite afterBatches_cons, <- Hrest, skipn_skipn.
        rewrite (Nat.add_comm size i). reflexivity.
    + apply Nat.ltb_ge in Hi. rewrite skipn_all2 by assumption.
      now rewrite afterBatches_nil.
Qed.

(** The Batch Persister returns every prepared record, whatever happens
    to the batches. *)
Lemma processPriceData_run (rows : list SHFDataRow) (locationMap : JsMap.t)
      (w w1 : World) (data : list ProcessedPriceData) :
  prepareRecords rows locationMap w = (Value data, w1) ->
  processPriceData rows locationMap w
  = (Value data,
     afterBatches w1 (batchesOf batchSize (List.length data) data)).
Proof.
  intros Hprep. unfold processPriceData, bind. rewrite Hprep.
  rewrite insertBatches_run. reflexivity.
Qed.

(** C5.  The prepared records are cut into consecutive batches of at most
    1000 and every batch is sent, in order, whatever happens to the
    others; a batch whose upsert is carried out stays in the table, one
    whose upsert fails leaves the table as it was.  Whatever the fate of
    the batches, once the log entry could be created, the property types
    read and the final update of the entry carried out, the run returns
    success with the number of records prepared before persistence. *)
Theorem batches_fail_independently
        (csvContent fileName : jsstring) (w w0 w1 w2 w3 : World)
        (createdLog : DataUploadLog) (locs : JsMap.t)
        (data : list ProcessedPriceData) :
  let rows := filter isResidential (parseCSV csvContent) in
  let bs := batchesOf batchSize (List.length data) data in
  insertLog fileName w = (Value (Data createdLog), w0) ->
  processLocations rows w0 = (Value locs, w1) ->
  processPropertyTypes w1 = (Value tt, w2) ->
  prepareRecords rows locs w2 = (Value data, w3) ->
  plan w3 (List.length (calls w3) + List.length bs) = Normal ->
  List.concat bs = data
  /\ Forall (fun b => List.length b <= 1000) bs
  /\ exists w',
      processCSV csvContent fileName w
      = (Value (completedWith (List.length data)), w')
      /\ calls w'
         = calls w3 ++ map UpsertPrices bs
           ++ [UpdateLog (log_id createdLog) completed (List.length data)]
      /\ price_indices w'
         = commitBatches (plan w3) (List.length (calls w3)) bs
                         (price_indices w3).
Proof.
  intros rows bs Hlog Hlocs Htypes Hprep Hupdate.
  split; [apply batchesOf_concat; [unfold batchSize; lia | lia]|].
  split; [apply (batchesOf_bounded batchSize)|].
  rewrite processCSV_run. cbv zeta. fold rows.
  rewrite Hlog, Hlocs, Htypes, (processPriceData_run _ _ _ Hprep).
  fold bs. unfold updateLog. rewrite request_run. cbv zeta.
  assert (Hn : List.length (calls (afterBatches w3 bs))
               = List.length (calls w3) + List.length bs).
  { unfold afterBatches. cbn [calls].
    now rewrite length_app, length_map. }
  rewrite Hn. change (plan (afterBatches w3 bs)) with (plan w3).
  rewrite Hupdate. eexists. split; [reflexivity|].
  cbn [fst snd calls price_indices setField_calls afterBatches].
  split; [now rewrite <- app_assoc | reflexivity].
Qed.

(** The only batch of the run is refused, and the run completes. *)
Lemma batches_fail_independently_witness :
  exists w',
    processCSV (js "h" ++ newline ++ js "1;Nacional;;;2;2020;150,25")
               (js "shf.csv") (withPlan (failingAt 4) seededWorld)
    = (Value (completedWith 1), w')
    /\ price_indices w' = [].
Proof.
  pose (w := withPlan (failingAt 4) seededWorld).
  pose (csv := js "h" ++ newline ++ js "1;Nacional;;;2;2020;150,25").
  pose (rows := filter isResidential (parseCSV csv)).
  pose (r0 := insertLog (js "shf.csv") w).
  pose (r1 := processLocations rows (snd r0)).
  pose (r2 := processPropertyTypes (snd r1)).
  pose (r3 := prepareRecords rows [(js "Nacional|national|", js "101")]
                             (snd r2)).
  destruct (@batches_fail_independently
              csv (js "shf.csv") w (snd r0) (snd r1) (snd r2) (snd r3)
              (mkLog (js "100") (js "shf.csv") 0 processing None)
              [(js "Nacional|national|", js "101")]
              [mkPriceData (js "101") None 2 2020 (Finite false 15025 (-2))])
    as (_ & _ & w' & Hrun & _ & Hprices).
  - vm_compute. reflexivity.
  - vm_compute. reflexivity.
  - vm_compute. reflexivity.
  - vm_compute. reflexivity.
  - vm_compute. reflexivity.
  - exists w'. split; [exact Hrun|]. rewrite Hprices. vm_compute. reflexivity.
Defined.

(** Batch 2 of 3 is refused: batches 1 and 3 are sent and stored all the
    same, and all 2001 prepared records are returned. *)
Example second_of_three_batches_fails :
  let rows := repeat (sampleRow "Nacional" "" "" 2 2020 "150.25") 2001 in
  let locs := [(js "Nacional|national|", js "101")] in
  let run := processPriceData rows locs (withPlan (failingAt 1) seededWorld) in
  fst run
  = Value (repeat (mkPriceData (js "101") None 2 2020
                               (Finite false 15025 (-2))) 2001)
  /\ map (fun c => match c with
                   | UpsertPrices b => List.length b
                   | _ => 0
                   end) (calls (snd run)) = [1000; 1000; 1]
  /\ List.length (price_indices (snd run)) = 1.
Proof. vm_compute. repeat split. Qed.

(* ================================================================= *)
(** ** Location Resolver *)

Lemma JsSet_has_In (s : JsSet.t) (k : jsstring) :
  JsSet.has s k = true <-> In k s.
Proof.
  unfold JsSet.has. rewrite existsb_exists. split.
  - intros (x & Hin & Heq). apply streq_spec in Heq. now subst.
  - intros Hin. exists k. split; [assumption | apply streq_refl].
Qed.

Lemma JsSet_add_In (s : JsSet.t) (k x : jsstring) :
  In x (JsSet.add s k) <-> In x s \/ x = k.
Proof.
  unfold JsSet.add. destruct (JsSet.has s k) eqn:Hhas.
  - apply JsSet_has_In in Hhas. split; [tauto|].
    intros [H | ->]; assumption.
  - rewrite in_app_iff. simpl. split; intros [H|H]; auto.
    + destruct H as [H|[]]; auto.
Qed.

Lemma JsSet_add_NoDup (s : JsSet.t) (k : jsstring) :
  NoDup s -> NoDup (JsSet.add s k).
Proof.
  intros Hs. unfold JsSet.add. destruct (JsSet.has s k) eqn:Hhas.
  - assumption.
  - apply NoDup_app; [assumption | repeat constructor; intros [] |].
    intros x Hin [<-|[]].
    apply JsSet_has_In in Hin. congruence.
Qed.

Lemma locationSet_loop (rows : list SHFDataRow) (s : JsSet.t) :
  let s' := fold_left
              (fun locationSet row =>
                 match locationSetKey row with
                 | Some k => JsSet.add locationSet k
                 | None => locationSet
                 end) rows s in
  (NoDup s -> NoDup s')
  /\ (forall k, In k s' <->
                In k s \/ exists row, In row rows
                                      /\ locationSetKey row = Some k).
Proof.
  revert s; induction rows as [|row rows IH]; intros s; simpl.
  - split; [trivial|]. intros k. split; [auto|].
    intros [H|(row & [] & _)]. assumption.
  - destruct (IH (match locationSetKey row with
                  | Some k => JsSet.add s k
                  | None => s
                  end)) as [Hnd Hin].
    split.
    + intros Hs. apply Hnd.
      destruct (locationSetKey row); [apply JsSet_add_NoDup|]; assumption.
    + intros k. rewrite Hin. clear Hin Hnd IH.
      destruct (locationSetKey row) as [k0|] eqn:Hkey.
      * rewrite JsSet_add_In. split.
        -- intros [[H| ->]|(r & Hr & Hk)]; eauto.
        -- intros [H|(r & [<-|Hr] & Hk)]; eauto.
           left. right. congruence.
      * split.
        -- intros [H|(r & Hr & Hk)]; eauto.
        -- intros [H|(r & [<-|Hr] & Hk)]; eauto. congruence.
Qed.

Lemma extractLocationSet_spec (rows : list SHFDataRow) :
  NoDup (extractLocationSet rows)
  /\ (forall k, In k (extractLocationSet rows) <->
                exists row, In row rows /\ locationSetKey row = Some k).
Proof.
  destruct (locationSet_loop rows []) as [Hnd Hin]. split.
  - apply Hnd. constructor.
  - intros k. unfold extractLocationSet. rewrite Hin.
    split; [intros [[]|H]; exact H | auto].
Qed.

Lemma insertBy_In {A} (key : A -> jsstring) (x y : A) (l : list A) :
  In y (insertBy key x l) <-> y = x \/ In y l.
Proof.
  induction l as [|z l IH]; simpl.
  - split; intros [H|H]; auto.
  - destruct (strle (key x) (key z)); simpl.
    + split; intros [H|H]; auto.
    + rewrite IH. split; intros [H|[H|H]]; auto.
Qed.

Lemma orderBy_In {A} (key : A -> jsstring) (y : A) (l : list A) :
  In y (orderBy key l) <-> In y l.
Proof.
  induction l as [|x l IH]; simpl; [tauto|].
  rewrite insertBy_In, IH. split; intros [H|H]; auto.
Qed.

Lemma optEq_spec (a b : option jsstring) : optEq a b = true <-> a = b.
Proof.
  destruct a, b; simpl; try (split; congruence).
  rewrite streq_spec. split; congruence.
Qed.

Lemma strictEqState_spec (stored wanted : option jsstring) :
  strictEqState stored wanted = true <->
  exists st, stored = Some st /\ wanted = Some st.
Proof.
  destruct stored as [x|], wanted as [y|]; cbn [strictEqState];
    try (split; [discriminate | intros (st & H1 & H2); discriminate]).
  rewrite streq_spec. split.
  - intros <-. now exists x.
  - intros (st & H1 & H2). congruence.
Qed.

(** The code's match: equal names, equal types and the same string as
    state on both sides. *)
Lemma sameLocation_spec (location : ProcessedLocation) (loc : Location) :
  sameLocation location loc = true <->
  loc_name loc = name location /\ loc_type loc = type location
  /\ exists st, loc_state loc = Some st /\ state location = Some st.
Proof.
  unfold sameLocation.
  rewrite !andb_true_iff, !streq_spec, strictEqState_spec. tauto.
Qed.

Lemma matchesExactly_spec (location : ProcessedLocation) (loc : Location) :
  matchesExactly location loc = true <->
  loc_name loc = name location /\ loc_type loc = type location
  /\ loc_state loc = state location.
Proof.
  unfold matchesExactly.
  rewrite !andb_true_iff, !streq_spec, optEq_spec. tauto.
Qed.

(** A location object without state matches no persisted location. *)
Lemma sameLocation_stateless (location : ProcessedLocation)
      (loc : Location) :
  state location = None -> sameLocation location loc = false.
Proof.
  intros Hst. unfold sameLocation. rewrite Hst.
  destruct (loc_state loc); cbn [strictEqState]; apply andb_false_r.
Qed.

(** With a state, the code's match is the exact match. *)
Lemma sameLocation_stateful (location : ProcessedLocation) (loc : Location)
      (st : jsstring) :
  state location = Some st ->
  sameLocation location loc = matchesExactly location loc.
Proof.
  intros Hst. unfold sameLocation, matchesExactly. rewrite Hst.
  now destruct (loc_state loc).
Qed.

(** One iteration of the reconcile-or-create loop, case by case. *)
Lemma reconcile_run (locationMap : JsMap.t) (location : ProcessedLocation)
      (w : World) :
  reconcile locationMap location w
  = let n := List.length (calls w) in
    match plan w n with
    | Normal =>
        match find (sameLocation location)
                   (orderBy loc_name (locations w)) with
        | Some existing =>
            (Value (JsMap.set locationMap (mapKey location)
                              (loc_id existing)),
             recordCalls w [SelectLocations])
        | None =>
            let w2 :=
              recordCalls w [SelectLocations; InsertLocation location] in
            match plan w (S n) with
            | Normal =>
                (Value (JsMap.set locationMap (mapKey location)
                                  (idOfNat (next_id w))),
                 addLocation w2 (rowFor w location))
            | _ => (Value locationMap, w2)
            end
        end
    | _ => (Value locationMap, recordCalls w [SelectLocations])
    end.
Proof.
  unfold reconcile, tryCatch, bind, getLocations.
  rewrite request_run. cbv zeta.
  destruct (plan w (List.length (calls w))) eqn:Hread; try reflexivity.
  cbn [fst snd].
  destruct (find _ _) as [existing|]; [reflexivity|].
  unfold insertLocation. rewrite request_run. cbv zeta.
  cbn [plan calls setField_calls].
  rewrite length_app, Nat.add_1_r.
  unfold recordCalls, setField_calls, addLocation, rowFor.
  cbn [locations property_types price_indices upload_logs next_id calls
       plan fst snd].
  rewrite <- app_assoc.
  destruct (plan w (S (List.length (calls w)))); reflexivity.
Qed.

Lemma afterLocations_nil (w : World) : afterLocations w [] [] = w.
Proof.
  destruct w. unfold afterLocations. simpl. rewrite !app_nil_r. reflexivity.
Qed.

Lemma afterLocations_twice (w : World) (c1 c2 : list Location)
      (t1 t2 : list Call) :
  afterLocations (afterLocations w c1 t1) c2 t2
  = afterLocations w (c1 ++ c2) (t1 ++ t2).
Proof.
  unfold afterLocations. cbn [locations property_types price_indices
    upload_logs next_id calls plan].
  rewrite <- !app_assoc, length_app. f_equal. lia.
Qed.

Lemma reconcile_step (locationMap : JsMap.t) (location : ProcessedLocation)
      (w : World) :
  exists locationMap' step,
    reconcile locationMap location w
    = (Value locationMap', afterLocations w (snd step) (fst step))
    /\ reconcileStep location step.
Proof.
  rewrite reconcile_run. cbv zeta.
  assert (Hread : afterLocations w [] [SelectLocations]
                  = recordCalls w [SelectLocations]).
  { unfold afterLocations. rewrite app_nil_r. reflexivity. }
  assert (Hboth : afterLocations
                    w [] [SelectLocations; InsertLocation location]
                  = recordCalls
                      w [SelectLocations; InsertLocation location]).
  { unfold afterLocations. rewrite app_nil_r. reflexivity. }
  assert (Hone : reconcileStep location ([SelectLocations], [])).
  { split; [left; reflexivity | left; reflexivity]. }
  assert (Htwo : reconcileStep
                   location
                   ([SelectLocations; InsertLocation location], [])).
  { split; [right; reflexivity | left; reflexivity]. }
  destruct (plan w (List.length (calls w))).
  - destruct (find _ _) as [existing|].
    + eexists. exists ([SelectLocations], []).
      rewrite <- Hread. split; [reflexivity | exact Hone].
    + destruct (plan w (S (List.length (calls w)))).
      * eexists.
        exists ([SelectLocations; InsertLocation location],
                [rowFor w location]).
        split; [reflexivity|].
        split; [right; reflexivity|]. right. eexists. cbn [snd].
        unfold rowFor. reflexivity.
      * exists locationMap,
          ([SelectLocations; InsertLocation location], []).
        rewrite <- Hboth. split; [reflexivity | exact Htwo].
      * exists locationMap,
          ([SelectLocations; InsertLocation location], []).
        rewrite <- Hboth. split; [reflexivity | exact Htwo].
  - exists locationMap, ([SelectLocations], []).
    rewrite <- Hread. split; [reflexivity | exact Hone].
  - exists locationMap, ([SelectLocations], []).
    rewrite <- Hread. split; [reflexivity | exact Hone].
Qed.

Lemma reconcile_loop (ls : list ProcessedLocation) (locationMap : JsMap.t)
      (w : World) :
  exists locationMap' steps,
    forEachM reconcile locationMap ls w
    = (Value locationMap',
       afterLocations w (List.concat (map snd steps))
                      (List.concat (map fst steps)))
    /\ Forall2 reconcileStep ls steps.
Proof.
  revert locationMap w; induction ls as [|l ls IH]; intros m w.
  - exists m, []. simpl. rewrite afterLocations_nil. split; constructor.
  - destruct (reconcile_step m l w) as (m1 & step & Hrun & Hstep).
    destruct (IH m1 (afterLocations w (snd step) (fst step)))
      as (m2 & steps & Hloop & Hsteps).
    exists m2, (step :: steps). split.
    + cbn [forEachM]. unfold bind. rewrite Hrun, Hloop.
      rewrite afterLocations_twice. reflexivity.
    + constructor; assumption.
Qed.

Lemma buildRecord_location (locationMap : JsMap.t) (row : SHFDataRow)
      (w w' : World) (p : ProcessedPriceData) :
  buildRecord locationMap row w = (Value (Some p), w') ->
  exists key, priceLocationKey row = Some key
              /\ JsMap.get locationMap key = Some (location_id p).
Proof.
  unfold buildRecord, tryCatch, bind.
  destruct (priceLocationKey row) as [key|]; [|discriminate].
  destruct (JsMap.get locationMap key) as [id|] eqn:Hget; [|discriminate].
  destruct (truthy id); [|discriminate]. cbn [negb].
  destruct (resolvePropertyType row w) as [[pt|e] w1]; [|discriminate].
  unfold ret. intros H. injection H as <- _.
  exists key. split; [reflexivity | exact Hget].
Qed.

Lemma find_orderBy_some (location : ProcessedLocation) (w : World)
      (loc : Location) :
  In loc (locations w) -> sameLocation location loc = true ->
  exists existing,
    find (sameLocation location) (orderBy loc_name (locations w))
    = Some existing
    /\ In existing (locations w)
    /\ sameLocation location existing = true.
Proof.
  intros Hin Hsame.
  destruct (find (sameLocation location) (orderBy loc_name (locations w)))
    as [existing|] eqn:Hfind.
  - apply find_some in Hfind as [Hin' Hsame'].
    exists existing. rewrite orderBy_In in Hin'. auto.
  - exfalso. rewrite (find_none _ _ Hfind loc) in Hsame.
    + discriminate Hsame.
    + now apply orderBy_In.
Qed.

Lemma find_orderBy_none (location : ProcessedLocation) (w : World) :
  (forall loc, In loc (locations w) -> sameLocation location loc = false) ->
  find (sameLocation location) (orderBy loc_name (locations w)) = None.
Proof.
  intros Hnone.
  destruct (find (sameLocation location) (orderBy loc_name (locations w)))
    as [existing|] eqn:Hfind; [|reflexivity].
  apply find_some in Hfind as [Hin Hsame].
  rewrite orderBy_In in Hin. rewrite (Hnone _ Hin) in Hsame.
  discriminate Hsame.
Qed.

Lemma split_nonempty (sep : N) (a : jsstring) :
  1 <= List.length (split sep a).
Proof.
  induction a as [|c a IH]; simpl; [lia|].
  destruct (c =? sep)%N; simpl; [lia|].
  destruct (split sep a); simpl in *; lia.
Qed.

Lemma split_length_app (sep : N) (a b : jsstring) :
  List.length (split sep (a ++ sep :: b))
  = List.length (split sep a) + List.length (split sep b).
Proof.
  induction a as [|c a IH]; simpl.
  - now rewrite N.eqb_refl.
  - destruct (c =? sep)%N; simpl; [now rewrite IH|].
    pose proof (split_nonempty sep (a ++ sep :: b)) as H1.
    pose proof (split_nonempty sep a) as H2.
    destruct (split sep (a ++ sep :: b)), (split sep a);
      simpl in *; lia.
Qed.

(** Every key of [locationSet] has its two separators: the destructuring
    of [locationOfKey] always finds a name, a type and a state part. *)
Lemma locationSetKey_three_parts (row : SHFDataRow) (k : jsstring) :
  locationSetKey row = Some k -> 3 <= List.length (split 124 k).
Proof.
  assert (Hparts : forall a t b : jsstring,
             3 <= List.length (split 124 (a ++ js "|" ++ t ++ js "|" ++ b))).
  { intros a t b. change (js "|") with [124%N]. cbn [app].
    rewrite !split_length_app.
    pose proof (split_nonempty 124 a). pose proof (split_nonempty 124 t).
    pose proof (split_nonempty 124 b). lia. }
  unfold locationSetKey.
  destruct (streq (global row) (js "Nacional"));
    [intros H; injection H as <-;
     exact (Hparts (js "Nacional") (js "national") [])|].
  destruct (startsWith (js "ZM ") (global row));
    [intros H; injection H as <-;
     exact (Hparts (global row) (js "metro_zone") [])|].
  destruct (present (estado row) && negb (truthy (municipio row)));
    [intros H; injection H as <-;
     exact (Hparts (estado row) (js "state") [])|].
  destruct (present (estado row) && present (municipio row));
    [intros H; injection H as <-;
     exact (Hparts (municipio row) (js "municipality") (estado row))|].
  destruct (JsMap.has propertyTypeMap (global row)
            || streq (global row) (js "Media - Residencial"));
    [intros H; injection H as <-;
     exact (Hparts (js "Nacional") (js "national") [])|].
  discriminate.
Qed.

(** C6.  An iteration of the reconcile-or-create loop that finds a
    persisted location matching its key exactly (same name, same type,
    same state or no state on either side) reuses it only when the key
    has a state.  For a key without state (national, metro zone, state)
    the comparison [loc.state === location.state] is between [null] and
    [undefined], the match is missed, and one more location with the same
    name, type and empty state is created next to the persisted one. *)
Theorem persisted_match_reused_only_with_state
        (locationMap : JsMap.t) (location : ProcessedLocation) (w0 : World)
        (loc : Location) :
  In loc (locations w0) -> matchesExactly location loc = true ->
  plan w0 (List.length (calls w0)) = Normal ->
  match state location with
  | Some _ =>
      exists existing,
        In existing (locations w0)
        /\ matchesExactly location existing = true
        /\ reconcile locationMap location w0
           = (Value (JsMap.set locationMap (mapKey location)
                               (loc_id existing)),
              recordCalls w0 [SelectLocations])
  | None =>
      plan w0 (S (List.length (calls w0))) = Normal ->
      let w1 :=
        addLocation
          (recordCalls w0 [SelectLocations; InsertLocation location])
          (rowFor w0 location) in
      reconcile locationMap location w0
      = (Value (JsMap.set locationMap (mapKey location)
                          (idOfNat (next_id w0))), w1)
      /\ matching location w1
         = matching location w0 ++ [rowFor w0 location]
  end.
Proof.
  intros Hin Hmatch Hread.
  destruct (state location) as [st|] eqn:Hst.
  - rewrite <- (@sameLocation_stateful location loc st Hst) in Hmatch.
    destruct (@find_orderBy_some location w0 loc Hin Hmatch)
      as (existing & Hfind & Hex & Hsame).
    exists existing. split; [exact Hex|]. split.
    + now rewrite <- (@sameLocation_stateful location existing st Hst).
    + rewrite reconcile_run. cbv zeta. rewrite Hread, Hfind. reflexivity.
  - intros Hinsert w1. split.
    + rewrite reconcile_run. cbv zeta.
      rewrite Hread, (@find_orderBy_none location w0), Hinsert;
        [reflexivity|].
      intros loc0 _. now apply sameLocation_stateless.
    + unfold matching, w1.
      cbn [locations addLocation recordCalls setField_calls].
      rewrite filter_app. f_equal. cbn [filter].
      assert (Hnew : matchesExactly location (rowFor w0 location) = true)
        by (apply matchesExactly_spec; repeat split).
      now rewrite Hnew.
Qed.

(** A store that holds the national location, and a file with a national
    row: the location is not reused, a second one is created and the map
    points to the new one. *)
Lemma persisted_match_reused_only_with_state_witness :
  let nacional := mkProcessedLocation (js "national") (js "Nacional") None in
  let w0 := addLocation seededWorld (rowFor seededWorld nacional) in
  let run := processLocations [sampleRow "Nacional" "" "" 1 2020 "1.5"] w0 in
  fst run = Value [(js "Nacional|national|", js "101")]
  /\ locations (snd run)
     = [mkLocation (js "100") (js "national") (js "Nacional") None;
        mkLocation (js "101") (js "national") (js "Nacional") None].
Proof.
  intros nacional w0 run.
  assert (Hrun : run = reconcile [] nacional w0).
  { vm_compute. reflexivity. }
  pose proof (@persisted_match_reused_only_with_state
                [] nacional w0 (rowFor seededWorld nacional)) as H.
  destruct H as [Hcreate _].
  - vm_compute. now left.
  - vm_compute. reflexivity.
  - reflexivity.
  - reflexivity.
  - rewrite Hrun, Hcreate. vm_compute. split; reflexivity.
Defined.

(** The same one-line file ingested twice: the national location is
    created by each run, and the price record of the second run points to
    the second location. *)
Example nacional_is_created_on_every_run :
  let csv := js "h" ++ newline ++ js "1;Nacional;;;1;2020;1,5" in
  let w1 := snd (processCSV csv (js "shf.csv") seededWorld) in
  let w2 := snd (processCSV csv (js "shf.csv") w1) in
  map loc_id (locations w1) = [js "101"]
  /\ locations w2
     = [mkLocation (js "101") (js "national") (js "Nacional") None;
        mkLocation (js "103") (js "national") (js "Nacional") None]
  /\ map location_id (price_indices w2) = [js "101"; js "103"].
Proof. vm_compute. repeat split. Qed.

Example guadalajara_end_to_end :
  let csv := js "h" ++ newline ++ js "1;;Jalisco;Guadalajara;1;2020;1,5"
             ++ newline ++ js "2;;Jalisco;Guadalajara;2;2020;1,7" in
  let run := processCSV csv (js "shf.csv") seededWorld in
  fst run = Value (completedWith 2)
  /\ map loc_id (locations (snd run)) = [js "101"]
  /\ map location_id (price_indices (snd run)) = [js "101"; js "101"]
  /\ List.length (filter isInsertLocation (calls (snd run))) = 1.
Proof. vm_compute. repeat split. Qed.

(* ================================================================= *)
(** ** Stages that leave the upload log alone *)

Lemma quiet_refl (w : World) : quiet w w.
Proof.
  split; [reflexivity|]. split; [reflexivity|].
  exists []. split; [now rewrite app_nil_r | constructor].
Qed.

Lemma quiet_trans (w1 w2 w3 : World) :
  quiet w1 w2 -> quiet w2 w3 -> quiet w1 w3.
Proof.
  intros (Hl1 & Hp1 & t1 & Hc1 & Ht1) (Hl2 & Hp2 & t2 & Hc2 & Ht2).
  split; [congruence|]. split; [congruence|].
  exists (t1 ++ t2). split.
  - rewrite Hc2, Hc1, app_assoc. reflexivity.
  - apply Forall_app. split; assumption.
Qed.

Lemma Quiet_ret {A} (a : A) : Quiet (ret a).
Proof. intros w. apply quiet_refl. Qed.

Lemma Quiet_throw {A} (e : ErrorValue) : Quiet (@throw A e).
Proof. intros w. apply quiet_refl. Qed.

Lemma Quiet_bind {A B} (m : M A) (k : A -> M B) :
  Quiet m -> (forall a, Quiet (k a)) -> Quiet (bind m k).
Proof.
  intros Hm Hk w. unfold bind. specialize (Hm w).
  destruct (m w) as [[a|e] w1]; cbn [snd] in *.
  - eapply quiet_trans; [exact Hm | apply Hk].
  - exact Hm.
Qed.

Lemma Quiet_tryCatch {A} (m : M A) (h : ErrorValue -> M A) :
  Quiet m -> (forall e, Quiet (h e)) -> Quiet (tryCatch m h).
Proof.
  intros Hm Hh w. unfold tryCatch. specialize (Hm w).
  destruct (m w) as [[a|e] w1]; cbn [snd] in *.
  - exact Hm.
  - eapply quiet_trans; [exact Hm | apply Hh].
Qed.

Lemma Quiet_forEachM {A B} (step : A -> B -> M A) (xs : list B) :
  (forall acc x, Quiet (step acc x)) ->
  forall acc, Quiet (forEachM step acc xs).
Proof.
  intros Hstep. induction xs as [|x xs IH]; intros acc; simpl.
  - apply Quiet_ret.
  - apply Quiet_bind; [apply Hstep | intros a; apply IH].
Qed.

Lemma Quiet_request {A} (c : Call) (effect : World -> A * World) :
  isLogCall c = false ->
  (forall w, upload_logs (snd (effect w)) = upload_logs w
             /\ plan (snd (effect w)) = plan w
             /\ calls (snd (effect w)) = calls w) ->
  Quiet (request c effect).
Proof.
  intros Hc Heff w. rewrite request_run. cbv zeta.
  assert (Hrec : quiet w (setField_calls w (calls w ++ [c]))).
  { split; [reflexivity|]. split; [reflexivity|].
    exists [c]. split; [reflexivity|]. constructor; [exact Hc|constructor]. }
  destruct (plan w (List.length (calls w))); cbn [snd]; try exact Hrec.
  destruct (Heff (setField_calls w (calls w ++ [c]))) as (Hl & Hp & Hcs).
  split; [exact Hl|]. split; [exact Hp|].
  exists [c]. split; [exact Hcs|]. constructor; [exact Hc|constructor].
Qed.

Lemma Quiet_getLocations : Quiet getLocations.
Proof. apply Quiet_request; [reflexivity|]. intros w. repeat split. Qed.

Lemma Quiet_getPropertyTypes : Quiet getPropertyTypes.
Proof. apply Quiet_request; [reflexivity|]. intros w. repeat split. Qed.

Lemma Quiet_insertLocation (l : ProcessedLocation) :
  Quiet (insertLocation l).
Proof. apply Quiet_request; [reflexivity|]. intros w. repeat split. Qed.

Lemma Quiet_upsertPrices (batch : list ProcessedPriceData) :
  Quiet (upsertPrices batch).
Proof. apply Quiet_request; [reflexivity|]. intros w. repeat split. Qed.

Lemma Quiet_processLocations (rows : list SHFDataRow) :
  Quiet (processLocations rows).
Proof.
  unfold processLocations. apply Quiet_forEachM. intros m location.
  unfold reconcile. apply Quiet_tryCatch; [|intros e; apply Quiet_ret].
  apply Quiet_bind; [apply Quiet_getLocations|].
  intros [data|e]; [|apply Quiet_throw].
  destruct (find _ _); [apply Quiet_ret|].
  apply Quiet_bind; [apply Quiet_insertLocation|].
  intros [created|e]; [apply Quiet_ret | apply Quiet_throw].
Qed.

Lemma Quiet_processPropertyTypes : Quiet processPropertyTypes.
Proof.
  unfold processPropertyTypes.
  apply Quiet_bind; [apply Quiet_getPropertyTypes|].
  intros [data|e]; [apply Quiet_ret | apply Quiet_throw].
Qed.

Lemma Quiet_processPriceData (rows : list SHFDataRow) (m : JsMap.t) :
  Quiet (processPriceData rows m).
Proof.
  unfold processPriceData. apply Quiet_bind.
  - unfold prepareRecords. apply Quiet_forEachM. intros acc row.
    apply Quiet_bind; [|intros r; apply Quiet_ret].
    unfold buildRecord.
    apply Quiet_tryCatch; [|intros e; apply Quiet_ret].
    destruct (priceLocationKey row); [|apply Quiet_ret].
    destruct (JsMap.get m j) as [id|]; [|apply Quiet_ret].
    destruct (negb (truthy id)); [apply Quiet_ret|].
    apply Quiet_bind; [|intros pt; apply Quiet_ret].
    unfold resolvePropertyType.
    destruct (JsMap.get propertyTypeMap (global row)); [|apply Quiet_ret].
    apply Quiet_bind; [apply Quiet_getPropertyTypes|].
    intros [data|e]; apply Quiet_ret.
  - intros data. apply Quiet_bind; [|intros _; apply Quiet_ret].
    generalize (List.length data) at 1. intros fuel. generalize 0.
    induction fuel as [|fuel IH]; intros i; cbn [insertBatches].
    + apply Quiet_ret.
    + destruct (i <? List.length data); [|apply Quiet_ret].
      apply Quiet_bind; [|intros _; apply IH].
      apply Quiet_tryCatch; [|intros e; apply Quiet_ret].
      apply Quiet_bind; [apply Quiet_upsertPrices|].
      intros r; apply Quiet_ret.
Qed.

(* ================================================================= *)
(** ** Upload Orchestrator *)

Lemma insertLog_run (f : jsstring) (w : World) :
  plan w (List.length (calls w)) = Normal ->
  insertLog f w = (Value (Data (createdEntry w f)), afterCreation w f).
Proof.
  intros Hplan. unfold insertLog. rewrite request_run. cbv zeta.
  rewrite Hplan. reflexivity.
Qed.

(** Every run whose log entry was created ends in one of the three ways
    of [Outcome]. *)
Lemma processCSV_outcome (csvContent fileName : jsstring) (w : World) :
  plan w (List.length (calls w)) = Normal ->
  exists r w',
    processCSV csvContent fileName w = (Value r, w')
    /\ Outcome w fileName r w'.
Proof.
  intros Hcreate. rewrite processCSV_run. cbv zeta.
  rewrite (insertLog_run fileName w Hcreate).
  set (rows := filter isResidential (parseCSV csvContent)).
  set (w0 := afterCreation w fileName).
  pose proof (Quiet_processLocations rows w0) as Q1.
  destruct (processLocations rows w0) as [[locs|e] w1]; cbn [snd] in Q1;
    [|eexists; eexists; split; [reflexivity | now constructor]].
  pose proof (Quiet_processPropertyTypes w1) as Q2.
  pose proof (quiet_trans Q1 Q2) as Q12. clear Q1 Q2.
  destruct (processPropertyTypes w1) as [[[]|e] w2]; cbn [snd] in Q12;
    [|eexists; eexists; split; [reflexivity | now constructor]].
  pose proof (Quiet_processPriceData rows locs w2) as Q3.
  pose proof (quiet_trans Q12 Q3) as Q. clear Q12 Q3.
  destruct (processPriceData rows locs w2) as [[priceData|e] w3];
    cbn [snd] in Q;
    [|eexists; eexists; split; [reflexivity | now constructor]].
  assert (Hplan : plan w3 = plan w) by (destruct Q as (_ & Hp & _); exact Hp).
  assert (Hlogs : upload_logs w3 = upload_logs w ++ [createdEntry w fileName])
    by (destruct Q as (Hl & _); exact Hl).
  unfold updateLog. rewrite request_run. cbv zeta. rewrite Hplan.
  change (log_id (createdEntry w fileName)) with (idOfNat (next_id w)).
  destruct (plan w (List.length (calls w3))) eqn:Hupdate.
  - eexists; eexists; split; [reflexivity|].
    eapply Completed; [exact Q | exact Hupdate |].
    cbn [snd upload_logs setField_calls]. rewrite Hlogs. reflexivity.
  - eexists; eexists; split; [reflexivity|].
    apply UpdateRefused; [exact Q | congruence].
  - eexists; eexists; split; [reflexivity|].
    apply UpdateRefused; [exact Q | congruence].
Qed.

Lemma processCSV_total (csvContent fileName : jsstring) :
  total (processCSV csvContent fileName).
Proof.
  unfold processCSV. apply total_tryCatch. intros e. apply total_ret.
Qed.

(** C7.  [processCSV] never lets an exception out: it always returns a
    result.  When it fails after the log entry was created, the result is
    [{ success: false, recordsProcessed: 0, error }], the log table holds
    the entry as it was created, in state [processing], and no update of
    the log is issued after the failure: either the run issued none at
    all, or its last call is the final update, and that call was not
    carried out. *)
Theorem exception_leaves_log_processing
        (csvContent fileName : jsstring) (w : World) :
  (exists r w', processCSV csvContent fileName w = (Value r, w'))
  /\ (forall r w',
         processCSV csvContent fileName w = (Value r, w') ->
         plan w (List.length (calls w)) = Normal ->
         success r = false ->
         recordsProcessed r = 0
         /\ (exists msg, error r = Some msg)
         /\ upload_logs w' = upload_logs w ++ [createdEntry w fileName]
         /\ status (createdEntry w fileName) = processing
         /\ exists t,
             calls w' = calls w ++ InsertLog fileName :: t
             /\ (Forall (fun c => isLogCall c = false) t
                 \/ exists t0 n,
                     t = t0 ++ [UpdateLog (idOfNat (next_id w)) completed n]
                     /\ Forall (fun c => isLogCall c = false) t0
                     /\ plan w (List.length (calls w) + 1 + List.length t0)
                        <> Normal)).
Proof.
  split; [apply processCSV_total|].
  intros r w' Hrun Hcreate Hfail.
  destruct (processCSV_outcome csvContent fileName w Hcreate)
    as (r0 & w0 & Hrun0 & Hout).
  rewrite Hrun in Hrun0. injection Hrun0 as <- <-.
  destruct Hout as [e w' Q | e w3 n Q Hrefused | w3 w' n Q Hok Hlogs].
  - destruct Q as (Hl & _ & t & Hc & Ht).
    split; [reflexivity|]. split; [eexists; reflexivity|].
    split; [exact Hl|]. split; [reflexivity|].
    exists t. split; [|left; exact Ht].
    rewrite Hc. cbn [calls afterCreation]. now rewrite <- app_assoc.
  - destruct Q as (Hl & _ & t & Hc & Ht).
    split; [reflexivity|]. split; [eexists; reflexivity|].
    split; [exact Hl|]. split; [reflexivity|].
    eexists. split.
    + unfold recordCalls. cbn [calls setField_calls]. rewrite Hc.
      cbn [calls afterCreation]. rewrite <- !app_assoc. reflexivity.
    + right. exists t, n. split; [reflexivity|]. split; [exact Ht|].
      rewrite Hc in Hrefused. cbn [calls afterCreation] in Hrefused.
      rewrite !length_app in Hrefused. exact Hrefused.
  - discriminate Hfail.
Qed.

Lemma processSHFCSV_total
      (TextDecoder : jsstring -> Result (list N -> jsstring)) (file : File) :
  total (processSHFCSV TextDecoder file).
Proof.
  unfold processSHFCSV. apply total_tryCatch. intros e. apply total_ret.
Qed.

(** The read of the property types is refused after the entry was
    created. *)
Lemma exception_leaves_log_processing_witness :
  let run :=
    processCSV (js "h") (js "shf.csv") (withPlan (failingAt 1) seededWorld)
  in
  recordsProcessed
    (mkResult false 0
       (Some (js "Failed to get property types: permission denied"))) = 0
  /\ upload_logs (snd run)
     = [mkLog (js "100") (js "shf.csv") 0 processing None].
Proof.
  intros run.
  destruct (exception_leaves_log_processing
              (js "h") (js "shf.csv") (withPlan (failingAt 1) seededWorld))
    as [_ H].
  destruct (H (mkResult false 0
                 (Some (js "Failed to get property types: permission denied")))
              (snd run)) as (H0 & _ & Hlogs & _).
  - vm_compute. reflexivity.
  - vm_compute. reflexivity.
  - reflexivity.
  - split; [exact H0 | exact Hlogs].
Defined.

(** C4 (as the code has it).  Once the log entry was created, a run that
    fails leaves the entry as it was created, [processing] and without an
    error message.  No run writes the status [failed] or an error message:
    an entry that is [failed] afterwards was so before, and so was every
    error message. *)
Theorem log_entry_never_marked_failed
        (csvContent fileName : jsstring) (w w' : World) (r : IngestResult) :
  plan w (List.length (calls w)) = Normal ->
  processCSV csvContent fileName w = (Value r, w') ->
  (success r = false ->
   upload_logs w' = upload_logs w ++ [createdEntry w fileName]
   /\ status (createdEntry w fileName) = processing
   /\ error_message (createdEntry w fileName) = None
   /\ exists description, error r = Some description)
  /\ (forall entry,
         In entry (upload_logs w') ->
         (status entry = failed -> In entry (upload_logs w))
         /\ (forall msg,
                error_message entry = Some msg ->
                exists old, In old (upload_logs w)
                            /\ error_message old = Some msg)).
Proof.
  intros Hcreate Hrun.
  destruct (processCSV_outcome csvContent fileName w Hcreate)
    as (r0 & w0 & Hrun0 & Hout).
  rewrite Hrun in Hrun0. injection Hrun0 as <- <-.
  assert (Hunchanged :
            forall w1, upload_logs w1
                       = upload_logs w ++ [createdEntry w fileName] ->
                       forall entry,
                         In entry (upload_logs w1) ->
                         (status entry = failed -> In entry (upload_logs w))
                         /\ (forall msg,
                                error_message entry = Some msg ->
                                exists old, In old (upload_logs w)
                                            /\ error_message old = Some msg)).
  { intros w1 -> entry Hin. apply in_app_iff in Hin as [Hin|[<-|[]]].
    - split; [auto|]. intros msg Hmsg. exists entry. auto.
    - split; [discriminate|]. intros msg Hmsg. discriminate Hmsg. }
  destruct Hout as [e w' Q | e w3 n Q Hrefused | w3 w' n Q Hok Hlogs].
  - destruct Q as (Hl & _). split; [|now apply Hunchanged].
    intros _. repeat split; [exact Hl | eexists; reflexivity].
  - destruct Q as (Hl & _). split; [|now apply Hunchanged].
    intros _. repeat split; [exact Hl | eexists; reflexivity].
  - split; [discriminate|]. intros entry Hin. rewrite Hlogs in Hin.
    apply in_map_iff in Hin as (old & Hupd & Hin).
    destruct (streq (log_id old) (idOfNat (next_id w))).
    + subst entry. cbn [status error_message].
      split; [discriminate|]. intros msg Hmsg.
      apply in_app_iff in Hin as [Hin|[<-|[]]].
      * exists old. auto.
      * discriminate Hmsg.
    + subst old. apply in_app_iff in Hin as [Hin|[<-|[]]].
      * split; [auto|]. intros msg Hmsg. exists entry. auto.
      * split; [discriminate|]. intros msg Hmsg. discriminate Hmsg.
Qed.

Lemma log_entry_never_marked_failed_witness :
  let run :=
    processCSV (js "h") (js "shf.csv") (withPlan (failingAt 1) seededWorld)
  in
  upload_logs (snd run)
  = [] ++ [mkLog (js "100") (js "shf.csv") 0 processing None].
Proof.
  intros run.
  destruct (@log_entry_never_marked_failed
              (js "h") (js "shf.csv") (withPlan (failingAt 1) seededWorld)
              (snd run) (failure (newError
                 (js "Failed to get property types: permission denied"))))
    as [H _].
  - vm_compute. reflexivity.
  - vm_compute. reflexivity.
  - destruct (H eq_refl) as (Hlogs & _). exact Hlogs.
Defined.

(** C4 as stated fails: the read of the property types is refused after
    the entry was created, and the entry is neither marked [failed] nor
    given the failure description. *)
Lemma failed_status_is_not_written :
  ~ (forall (csvContent fileName : jsstring) (w w' : World)
            (r : IngestResult),
        plan w (List.length (calls w)) = Normal ->
        processCSV csvContent fileName w = (Value r, w') ->
        success r = false ->
        exists entry,
          In entry (upload_logs w')
          /\ log_id entry = idOfNat (next_id w)
          /\ status entry = failed
          /\ error_message entry = error r).
Proof.
  intros H.
  destruct (H (js "h") (js "shf.csv") (withPlan (failingAt 1) seededWorld)
              (snd (processCSV (js "h") (js "shf.csv")
                               (withPlan (failingAt 1) seededWorld)))
              (failure (newError
                 (js "Failed to get property types: permission denied"))))
    as (entry & Hin & _ & Hstatus & _).
  - vm_compute. reflexivity.
  - vm_compute. reflexivity.
  - reflexivity.
  - vm_compute in Hin. destruct Hin as [<-|[]]. discriminate Hstatus.
Qed.

(* ================================================================= *)
(** ** Text normalizer *)

Lemma matchAtoms_some (wb : bool) (re : list atom) (prev : option N)
      (s : jsstring) (n : nat) :
  matchAtoms wb re prev s = Some n ->
  exists q, In q (alternatives re) /\ List.length q = n
            /\ matchTail wb q prev s = true.
Proof.
  revert prev s n; induction re as [|[c|c] re IH]; intros prev s n Hm.
  - exists []. simpl in *. split; [now left|].
    destruct wb; simpl.
    + destruct (atBoundary prev s); [|discriminate Hm].
      now injection Hm as <-.
    + now injection Hm as <-.
  - simpl in Hm. destruct s as [|x s]; [discriminate Hm|].
    destruct (N.eqb_spec x c) as [->|_]; [|discriminate Hm].
    destruct (matchAtoms wb re (Some c) s) as [m|] eqn:Hrest;
      [|discriminate Hm].
    injection Hm as <-. destruct (IH _ _ _ Hrest) as (q & Hin & Hlen & Hq).
    exists (c :: q). simpl. rewrite N.eqb_refl, Hq, Hlen.
    split; [now apply in_map | auto].
  - simpl in Hm.
    assert (Hskip : matchAtoms wb re prev s = Some n ->
                    exists q, In q (alternatives (Opt c :: re))
                              /\ List.length q = n
                              /\ matchTail wb q prev s = true).
    { intros Hrest. destruct (IH _ _ _ Hrest) as (q & Hin & Hlen & Hq).
      exists q. simpl. rewrite in_app_iff. auto. }
    destruct s as [|x s]; [auto|].
    destruct (N.eqb_spec x c) as [->|_]; [|auto].
    destruct (matchAtoms wb re (Some c) s) as [m|] eqn:Hrest; [|auto].
    injection Hm as <-. destruct (IH _ _ _ Hrest) as (q & Hin & Hlen & Hq).
    exists (c :: q). simpl. rewrite N.eqb_refl, Hq, Hlen, in_app_iff.
    split; [left; now apply in_map | auto].
Qed.

Lemma matchAtoms_none (wb : bool) (re : list atom) (prev : option N)
      (s : jsstring) :
  matchAtoms wb re prev s = None ->
  forall q, In q (alternatives re) -> matchTail wb q prev s = false.
Proof.
  revert prev s; induction re as [|[c|c] re IH]; intros prev s Hm q Hin.
  - destruct Hin as [<-|[]]. simpl in *.
    destruct wb; simpl; [|discriminate Hm].
    destruct (atBoundary prev s); [discriminate Hm | reflexivity].
  - simpl in Hin. apply in_map_iff in Hin as (q' & <- & Hin).
    simpl in *. destruct s as [|x s]; [reflexivity|].
    destruct (x =? c)%N; [|reflexivity].
    destruct (matchAtoms wb re (Some x) s) eqn:Hrest; [discriminate Hm|].
    simpl. now apply IH.
  - simpl in Hin. apply in_app_iff in Hin as [Hin|Hin].
    + apply in_map_iff in Hin as (q' & <- & Hin).
      simpl in *. destruct s as [|x s]; [reflexivity|].
      destruct (x =? c)%N; [|reflexivity].
      destruct (matchAtoms wb re (Some x) s) eqn:Hrest;
        [discriminate Hm|].
      simpl. now apply IH.
    + simpl in Hm. apply IH; [|exact Hin].
      destruct s as [|x s]; [exact Hm|].
      destruct (x =? c)%N; [|exact Hm].
      destruct (matchAtoms wb re (Some x) s); [discriminate Hm|exact Hm].
Qed.

Lemma exec_some (re : regex) (prev : option N) (s : jsstring) (n : nat) :
  exec re prev s = Some n ->
  exists q, In q (alternatives (body re)) /\ List.length q = n
            /\ matchWord (bounded re) q prev s = true.
Proof.
  unfold exec, matchWord. intros Hm.
  destruct (bounded re) eqn:Hb; simpl in *.
  - destruct (atBoundary prev s); simpl in *; [|discriminate Hm].
    now apply matchAtoms_some.
  - now apply matchAtoms_some.
Qed.

Lemma exec_none (re : regex) (prev : option N) (s : jsstring) :
  exec re prev s = None ->
  forall q, In q (alternatives (body re)) ->
            matchWord (bounded re) q prev s = false.
Proof.
  unfold exec, matchWord. intros Hm q Hin.
  destruct (bounded re) eqn:Hb; simpl in *.
  - destruct (atBoundary prev s); simpl in *; [|reflexivity].
    now apply (matchAtoms_none _ _ _ _ Hm).
  - now apply (matchAtoms_none _ _ _ _ Hm).
Qed.

Lemma matchTail_startsWith (wb : bool) (q : jsstring) (prev : option N)
      (s : jsstring) :
  matchTail wb q prev s = true -> startsWith q s = true.
Proof.
  revert prev s; induction q as [|x q IH]; intros prev s Hm.
  - reflexivity.
  - destruct s as [|c s]; [discriminate Hm|]. simpl in *.
    apply andb_true_iff in Hm as [Hc Hm].
    rewrite N.eqb_sym, Hc. simpl. exact (IH _ _ Hm).
Qed.

Lemma startsWith_app (q a t : jsstring) :
  startsWith q (a ++ t) = true -> prefixCompatible q a = true.
Proof.
  unfold prefixCompatible.
  revert a; induction q as [|x q IH]; intros a H.
  - reflexivity.
  - destruct a as [|y a]; [apply orb_true_r|]. simpl in *.
    apply andb_true_iff in H as [Hxy H].
    rewrite (N.eqb_sym y x), Hxy. simpl. now apply IH.
Qed.

Lemma prefixCompatible_sym (a b : jsstring) :
  prefixCompatible a b = prefixCompatible b a.
Proof. unfold prefixCompatible. apply orb_comm. Qed.

Lemma lastOf_cons (prev : option N) (x : N) (p : jsstring) :
  lastOf prev (x :: p) = lastOf (Some x) p.
Proof. reflexivity. Qed.

Lemma lastOf_nonempty (a b : option N) (p : jsstring) :
  truthy p = true -> lastOf a p = lastOf b p.
Proof. destruct p; [discriminate | reflexivity]. Qed.

Lemma replaceFrom_skip (re : regex) (r p : jsstring) (prev : option N)
      (s : jsstring) :
  replaceFrom re r (List.length p) prev (p ++ s)
  = replaceFrom re r 0 (lastOf prev p) s.
Proof.
  revert prev; induction p as [|x p IH]; intros prev.
  - reflexivity.
  - simpl. rewrite IH. reflexivity.
Qed.

Lemma startsWith_split (p s : jsstring) :
  startsWith p s = true -> s = p ++ skipn (List.length p) s.
Proof.
  revert s; induction p as [|x p IH]; intros s H.
  - reflexivity.
  - destruct s as [|y s]; [discriminate H|]. simpl in *.
    apply andb_true_iff in H as [Hxy H]. apply N.eqb_eq in Hxy.
    subst y. f_equal. now apply IH.
Qed.

Lemma goodPass_nil (re : regex) (r : jsstring) (prev : option N) :
  goodPass (re, r) = true -> exec re prev [] = None.
Proof.
  intros Hgood. destruct (exec re prev []) as [n|] eqn:Hm; [|reflexivity].
  unfold goodPass in Hgood. cbn [fst snd] in Hgood.
  apply andb_true_iff in Hgood as [_ Hgood].
  rewrite forallb_forall in Hgood.
  destruct (@exec_some _ _ _ _ Hm) as (q & Hin & _ & Hq).
  specialize (Hgood q Hin). apply andb_true_iff in Hgood as [Hq0 _].
  destruct q; [discriminate Hq0|].
  unfold matchWord in Hq. rewrite andb_true_iff in Hq.
  destruct Hq as [_ Hq]. discriminate Hq.
Qed.

(** The output of a good pass at one position, case by case. *)
Lemma replaceFrom_cases (re : regex) (r : jsstring) (prev : option N)
      (c : N) (s : jsstring) :
  goodPass (re, r) = true ->
  (exec re prev (c :: s) = None
   /\ replaceFrom re r 0 prev (c :: s)
      = c :: replaceFrom re r 0 (Some c) s)
  \/ (exists p' s'',
         s = p' ++ s''
         /\ In (c :: p') (alternatives (body re))
         /\ wordAt r = isWordChar c
         /\ wordBefore (lastOf None r) = wordBefore (lastOf (Some c) p')
         /\ replaceFrom re r 0 prev (c :: s)
            = r ++ replaceFrom re r 0 (lastOf (Some c) p') s'').
Proof.
  intros Hgood. cbn [replaceFrom].
  destruct (exec re prev (c :: s)) as [n|] eqn:Hm; [right | left; auto].
  pose proof Hgood as Hg. unfold goodPass in Hg. cbn [fst snd] in Hg.
  apply andb_true_iff in Hg as [Hr Hg].
  rewrite forallb_forall in Hg.
  destruct (@exec_some _ _ _ _ Hm) as (q & Hin & Hlen & Hq).
  specialize (Hg q Hin). apply andb_true_iff in Hg as [Hq0 Hends].
  destruct q as [|x q]; [discriminate Hq0|].
  unfold matchWord in Hq. apply andb_true_iff in Hq as [_ Hq].
  apply matchTail_startsWith in Hq.
  pose proof (@startsWith_split _ _ Hq) as Hs.
  simpl in Hq. apply andb_true_iff in Hq as [Hxc _].
  apply N.eqb_eq in Hxc. subst x.
  simpl in Hs. injection Hs as Hs.
  unfold sameEnds in Hends. apply andb_true_iff in Hends as [Hh Hl].
  apply eqb_prop in Hh, Hl.
  exists q, (skipn (List.length q) s).
  split; [exact Hs|]. split; [exact Hin|]. split; [now rewrite <- Hh|].
  split; [now rewrite <- Hl|].
  subst n. cbn [List.length]. f_equal.
  rewrite Hs at 1. apply replaceFrom_skip.
Qed.

Lemma replaceFrom_nil (re : regex) (r : jsstring) (prev : option N) :
  goodPass (re, r) = true -> replaceFrom re r 0 prev [] = [].
Proof.
  intros Hgood. cbn [replaceFrom].
  now rewrite (@goodPass_nil re r prev Hgood).
Qed.

Lemma goodPass_truthy (re : regex) (r : jsstring) :
  goodPass (re, r) = true -> truthy r = true.
Proof.
  unfold goodPass. cbn [fst snd]. intros H.
  now apply andb_true_iff in H as [H _].
Qed.

(** A good pass does not change whether the text starts with a word
    character. *)
Lemma replaceFrom_wordAt (re : regex) (r : jsstring) (prev : option N)
      (s : jsstring) :
  goodPass (re, r) = true ->
  wordAt (replaceFrom re r 0 prev s) = wordAt s.
Proof.
  intros Hgood. destruct s as [|c s].
  - now rewrite replaceFrom_nil.
  - destruct (@replaceFrom_cases re r prev c s Hgood)
      as [[_ ->]|(p' & s'' & _ & _ & Hh & _ & ->)].
    + reflexivity.
    + pose proof (@goodPass_truthy re r Hgood) as Hr.
      destruct r; [discriminate Hr|]. exact Hh.
Qed.

(** If a word is read from the output of a good pass whose replacement
    cannot begin inside the word, it is read from the input as well. *)
Lemma matchTail_through (re : regex) (r : jsstring) (wq : bool)
      (q : jsstring) :
  goodPass (re, r) = true ->
  notInside r q = true ->
  forall (s : jsstring) (last prev : option N),
    matchTail wq q last (replaceFrom re r 0 prev s) = true ->
    matchTail wq q last s = true.
Proof.
  intros Hgood. induction q as [|x q IH]; intros Hout s last prev Hm.
  - cbn [matchTail] in *. unfold atBoundary in *.
    now rewrite (@replaceFrom_wordAt re r prev s Hgood) in Hm.
  - cbn [notInside] in Hout. apply andb_true_iff in Hout as [Hhere Hout].
    destruct s as [|c s].
    + rewrite (@replaceFrom_nil re r prev Hgood) in Hm. discriminate Hm.
    + destruct (@replaceFrom_cases re r prev c s Hgood)
        as [[_ Hkeep]|(p' & s'' & _ & _ & _ & _ & Hrepl)].
      * rewrite Hkeep in Hm. cbn [matchTail] in *.
        apply andb_true_iff in Hm as [Hc Hm]. rewrite Hc. simpl.
        exact (IH Hout _ _ _ Hm).
      * rewrite Hrepl in Hm. apply matchTail_startsWith in Hm.
        apply startsWith_app in Hm.
        rewrite prefixCompatible_sym, Hm in Hhere. discriminate Hhere.
Qed.

Lemma matchWord_through (re : regex) (r : jsstring) (wq : bool)
      (q : jsstring) (pi po : option N) (c : N) (s : jsstring) :
  goodPass (re, r) = true ->
  notInside r q = true ->
  wordBefore pi = wordBefore po ->
  matchWord wq q po (c :: replaceFrom re r 0 (Some c) s) = true ->
  matchWord wq q pi (c :: s) = true.
Proof.
  intros Hgood Hout Hprev. unfold matchWord, atBoundary.
  cbn [wordAt]. rewrite Hprev. intros Hm.
  apply andb_true_iff in Hm as [Hb Hm]. rewrite Hb. simpl.
  destruct q as [|x q].
  - cbn [matchTail] in *. unfold atBoundary in *. cbn [wordAt] in *.
    now rewrite Hprev.
  - cbn [matchTail notInside] in *.
    apply andb_true_iff in Hout as [_ Hout].
    apply andb_true_iff in Hm as [Hc Hm]. rewrite Hc. simpl.
    exact (@matchTail_through re r wq q Hgood Hout _ _ _ Hm).
Qed.

(** A word that cannot begin inside [r] does not occur in [r ++ t]
    before [t]. *)
Lemma occurs_after (wq : bool) (q r : jsstring) (po : option N)
      (t : jsstring) :
  notInside q r = true ->
  occurs wq q po (r ++ t) = occurs wq q (lastOf po r) t.
Proof.
  revert po; induction r as [|y r IH]; intros po Hin.
  - reflexivity.
  - cbn [notInside] in Hin. apply andb_true_iff in Hin as [Hhere Hin].
    change ((y :: r) ++ t) with (y :: r ++ t). cbn [occurs].
    rewrite (IH (Some y) Hin), lastOf_cons.
    destruct (matchWord wq q po (y :: r ++ t)) eqn:Hm; [|reflexivity].
    unfold matchWord in Hm. apply andb_true_iff in Hm as [_ Hm].
    apply matchTail_startsWith in Hm.
    apply (@startsWith_app q (y :: r) t) in Hm.
    rewrite Hm in Hhere. discriminate Hhere.
Qed.

Lemma occurs_suffix (wq : bool) (q p : jsstring) (prev : option N)
      (s : jsstring) :
  occurs wq q prev (p ++ s) = false ->
  occurs wq q (lastOf prev p) s = false.
Proof.
  revert prev; induction p as [|x p IH]; intros prev H.
  - exact H.
  - change ((x :: p) ++ s) with (x :: p ++ s) in H. cbn [occurs] in H.
    apply orb_false_iff in H as [_ H]. rewrite lastOf_cons. now apply IH.
Qed.

(** The heart of the matter.  After a good pass whose replacement and
    the word [q] cannot overlap, [q] does not occur in the output if it is
    a word of the pass itself, or if it did not occur in the input. *)
Lemma pass_keeps_out (re : regex) (r : jsstring) (wq : bool)
      (q : jsstring) :
  goodPass (re, r) = true ->
  truthy q = true ->
  apart q r = true ->
  forall (n : nat) (s : jsstring) (pi po : option N),
    List.length s <= n ->
    wordBefore pi = wordBefore po ->
    (In q (alternatives (body re)) /\ wq = bounded re)
    \/ occurs wq q pi s = false ->
    occurs wq q po (replaceFrom re r 0 pi s) = false.
Proof.
  intros Hgood Hq Hapart. unfold apart in Hapart.
  apply andb_true_iff in Hapart as [Hqr Hrq].
  assert (Hnil : forall po, occurs wq q po [] = false).
  { intros po. cbn [occurs]. unfold matchWord.
    destruct q; [discriminate Hq|]. cbn [matchTail].
    now rewrite andb_false_r. }
  induction n as [|n IH]; intros s pi po Hlen Hprev Hin.
  - destruct s; [|simpl in Hlen; lia].
    rewrite (@replaceFrom_nil re r pi Hgood). apply Hnil.
  - destruct s as [|c s].
    + rewrite (@replaceFrom_nil re r pi Hgood). apply Hnil.
    + simpl in Hlen.
      destruct (@replaceFrom_cases re r pi c s Hgood)
        as [[Hnone Hkeep]|(p' & s'' & Hs & _ & _ & Hlast & Hrepl)].
      * rewrite Hkeep. cbn [occurs]. apply orb_false_iff. split.
        -- destruct (matchWord wq q po
                       (c :: replaceFrom re r 0 (Some c) s)) eqn:Hm;
             [|reflexivity].
           apply (@matchWord_through re r wq q pi po c s Hgood Hrq Hprev)
             in Hm.
           destruct Hin as [[Hin ->]|Hin].
           ++ now rewrite (@exec_none re pi (c :: s) Hnone q Hin) in Hm.
           ++ cbn [occurs] in Hin. now rewrite Hm in Hin.
        -- apply IH; [lia | reflexivity |].
           destruct Hin as [Hin|Hin]; [now left | right].
           cbn [occurs] in Hin. now apply orb_false_iff in Hin as [_ Hin].
      * rewrite Hrepl, (@occurs_after wq q r po _ Hqr).
        apply IH.
        -- subst s. rewrite length_app in Hlen. lia.
        -- rewrite <- Hlast.
           apply f_equal, lastOf_nonempty, (@goodPass_truthy re r Hgood).
        -- destruct Hin as [Hin|Hin]; [now left | right].
           subst s. cbn [occurs] in Hin.
           apply orb_false_iff in Hin as [_ Hin].
           now apply occurs_suffix.
Qed.

(** A pass changes nothing in a text none of its words occurs in. *)
Lemma replaceFrom_clean (re : regex) (r : jsstring) (s : jsstring)
      (prev : option N) :
  (forall q, In q (alternatives (body re)) ->
             occurs (bounded re) q prev s = false) ->
  replaceFrom re r 0 prev s = s.
Proof.
  revert prev; induction s as [|c s IH]; intros prev Hclean.
  - cbn [replaceFrom].
    destruct (exec re prev []) as [n|] eqn:Hm; [|reflexivity].
    destruct (@exec_some _ _ _ _ Hm) as (q & Hin & _ & Hq).
    specialize (Hclean q Hin). cbn [occurs] in Hclean.
    rewrite Hq in Hclean. discriminate Hclean.
  - cbn [replaceFrom].
    destruct (exec re prev (c :: s)) as [n|] eqn:Hm.
    + destruct (@exec_some _ _ _ _ Hm) as (q & Hin & _ & Hq).
      specialize (Hclean q Hin). cbn [occurs] in Hclean.
      rewrite Hq in Hclean. discriminate Hclean.
    + f_equal. apply IH. intros q Hin. specialize (Hclean q Hin).
      cbn [occurs] in Hclean. now apply orb_false_iff in Hclean as [_ H].
Qed.

Lemma clean_fixed (re : regex) (r s : jsstring) :
  clean re s = true -> replaceAll re r s = s.
Proof.
  unfold clean, replaceAll. rewrite forallb_forall. intros Hclean.
  apply replaceFrom_clean. intros q Hin.
  now apply negb_true_iff, Hclean.
Qed.

(** A pass that replaces its only word by itself changes nothing. *)
Lemma identityPass_fixed (re : regex) (r : jsstring) :
  isIdentityPass (re, r) = true ->
  forall (n : nat) (s : jsstring) (prev : option N),
    List.length s <= n -> replaceFrom re r 0 prev s = s.
Proof.
  unfold isIdentityPass. cbn [fst snd].
  destruct (alternatives (body re)) as [|q [|q' qs]] eqn:Halts;
    try discriminate.
  intros Hid. apply andb_true_iff in Hid as [Hqr Hq].
  apply streq_spec in Hqr. subst q.
  assert (Hmatch : forall prev s n,
             exec re prev s = Some n ->
             n = List.length r /\ s = r ++ skipn (List.length r) s).
  { intros prev s n Hm.
    destruct (@exec_some _ _ _ _ Hm) as (q & Hin & Hlen & Hm').
    rewrite Halts in Hin. destruct Hin as [<-|[]].
    split; [now rewrite Hlen|].
    unfold matchWord in Hm'. apply andb_true_iff in Hm' as [_ Hm'].
    now apply startsWith_split, (@matchTail_startsWith (bounded re) _ prev). }
  induction n as [|n IH]; intros s prev Hlen.
  - destruct s; [|simpl in Hlen; lia]. cbn [replaceFrom].
    destruct (exec re prev []) as [m|] eqn:Hm; [|reflexivity].
    destruct (Hmatch _ _ _ Hm) as [_ Hs].
    destruct r; [discriminate Hq | discriminate Hs].
  - destruct s as [|c s].
    + cbn [replaceFrom].
      destruct (exec re prev []) as [m|] eqn:Hm; [|reflexivity].
      destruct (Hmatch _ _ _ Hm) as [_ Hs].
      destruct r; [discriminate Hq | discriminate Hs].
    + simpl in Hlen. cbn [replaceFrom].
      destruct (exec re prev (c :: s)) as [m|] eqn:Hm.
      * destruct (Hmatch _ _ _ Hm) as [-> Hs].
        destruct r as [|x r]; [discriminate Hq|].
        cbn [List.length skipn] in *. injection Hs as <- Hs.
        rewrite Hs at 1. rewrite replaceFrom_skip, IH.
        -- simpl. now rewrite <- Hs.
        -- rewrite Hs in Hlen. rewrite length_app in Hlen. lia.
      * f_equal. apply IH. lia.
Qed.

Lemma settled_fixed (p : pass) (t : jsstring) :
  settled p t -> replaceAll (fst p) (snd p) t = t.
Proof.
  destruct p as [re r]. intros [Hid|Hclean]; cbn [fst snd].
  - unfold replaceAll. now apply (@identityPass_fixed re r Hid (List.length t)).
  - now apply clean_fixed.
Qed.

Lemma pass_settles (p p' : pass) (t : jsstring) :
  goodPass p = true ->
  apartFrom (snd p) p' = true ->
  p' = p \/ settled p' t ->
  settled p' (replaceAll (fst p) (snd p) t).
Proof.
  destruct p as [re r]. cbn [fst snd]. intros Hgood Hapart Hin.
  unfold apartFrom in Hapart. apply orb_true_iff in Hapart as [Hid|Hapart].
  { now left. }
  assert (Hcase : isIdentityPass p' = true
                  \/ p' = (re, r) \/ clean (fst p') t = true).
  { destruct Hin as [Hp|[Hid|Hclean]]; auto. }
  destruct Hcase as [Hid|Hcase]; [now left|].
  right. unfold clean. apply forallb_forall. intros q Hq.
  rewrite forallb_forall in Hapart. specialize (Hapart q Hq).
  apply andb_true_iff in Hapart as [Hq0 Hapart].
  apply negb_true_iff. unfold replaceAll.
  apply (@pass_keeps_out re r (bounded (fst p')) q Hgood Hq0 Hapart
                         (List.length t) t None None (le_n _) eq_refl).
  destruct Hcase as [->|Hclean].
  - left. auto.
  - right. unfold clean in Hclean. rewrite forallb_forall in Hclean.
    now apply negb_true_iff, Hclean.
Qed.

Lemma identityPass_settles (p p' : pass) (t : jsstring) :
  isIdentityPass p = true ->
  p' = p \/ settled p' t ->
  settled p' (replaceAll (fst p) (snd p) t).
Proof.
  intros Hid Hin.
  assert (Hfix : replaceAll (fst p) (snd p) t = t).
  { apply settled_fixed. now left. }
  rewrite Hfix. destruct Hin as [->|Hs]; [now left | exact Hs].
Qed.

(** After the passes [rest], nothing is left to do for any of them, nor
    for the passes [done] that were settled before. *)
Lemma runPasses_settles (rest done : list pass) (t : jsstring) :
  checkPasses done rest = true ->
  Forall (fun p => settled p t) done ->
  Forall (fun p => settled p (runPasses rest t)) (done ++ rest).
Proof.
  revert done t; induction rest as [|p rest IH]; intros done t Hcheck Hdone.
  - rewrite app_nil_r. exact Hdone.
  - cbn [checkPasses] in Hcheck.
    apply andb_true_iff in Hcheck as [Hp Hcheck].
    change (done ++ p :: rest) with (done ++ [p] ++ rest).
    rewrite app_assoc. unfold runPasses. cbn [fold_left].
    apply IH; [exact Hcheck|].
    assert (Hall : forall p', In p' (done ++ [p]) -> p' = p \/ settled p' t).
    { intros p' Hin. apply in_app_iff in Hin as [Hin|[<-|[]]]; [|now left].
      right. rewrite Forall_forall in Hdone. now apply Hdone. }
    apply Forall_forall. intros p' Hin.
    apply orb_true_iff in Hp as [Hid|Hp].
    + apply identityPass_settles; auto.
    + apply andb_true_iff in Hp as [Hgood Hapart].
      rewrite forallb_forall in Hapart.
      apply pass_settles; auto.
Qed.

Lemma runPasses_fixed (ps : list pass) (t : jsstring) :
  Forall (fun p => settled p t) ps -> runPasses ps t = t.
Proof.
  induction ps as [|p ps IH]; intros Hall.
  - reflexivity.
  - inversion Hall as [|? ? Hp Hps]; subst.
    unfold runPasses. cbn [fold_left]. rewrite (settled_fixed Hp).
    now apply IH.
Qed.

Lemma runPasses_idempotent (ps : list pass) (s : jsstring) :
  checkPasses [] ps = true ->
  runPasses ps (runPasses ps s) = runPasses ps s.
Proof.
  intros Hcheck. apply runPasses_fixed.
  apply (@runPasses_settles ps [] s Hcheck). constructor.
Qed.

Lemma normalizeText_runPasses (s : jsstring) :
  normalizeText s = if truthy s then runPasses passes s else s.
Proof. unfold normalizeText, convertToUTF8. now destruct (truthy s). Qed.


(** ** Trimmed texts stay trimmed *)

Lemma lastOf_app (prev : option N) (a b : jsstring) :
  lastOf prev (a ++ b) = lastOf (lastOf prev a) b.
Proof. unfold lastOf. apply fold_left_app. Qed.

Lemma trimStart_spaceAt (s : jsstring) : spaceAt (trimStart s) = false.
Proof.
  induction s as [|c s IH]; [reflexivity|]. simpl.
  destruct (isWhiteSpace c) eqn:Hc; [exact IH | simpl; exact Hc].
Qed.

Lemma trimStart_fixed (s : jsstring) :
  spaceAt s = false -> trimStart s = s.
Proof. destruct s as [|c s]; [reflexivity|]. simpl. now intros ->. Qed.

Lemma trimStart_last (l : jsstring) (c : N) :
  isWhiteSpace c = false -> exists l', trimStart (l ++ [c]) = l' ++ [c].
Proof.
  intros Hc. induction l as [|x l IH]; simpl.
  - rewrite Hc. now exists [].
  - destruct (isWhiteSpace x); [exact IH|]. now exists (x :: l).
Qed.

Lemma spaceAt_rev (s : jsstring) :
  spaceAt (rev s) = spaceBefore (lastOf None s).
Proof.
  induction s as [|c s IH] using rev_ind; [reflexivity|].
  rewrite rev_app_distr, lastOf_app. reflexivity.
Qed.

Lemma trim_fixed (t : jsstring) :
  spaceAt t = false -> spaceBefore (lastOf None t) = false -> trim t = t.
Proof.
  intros Hhead Hlast. unfold trim, trimEnd.
  rewrite (@trimStart_fixed t Hhead), trimStart_fixed, rev_involutive; auto.
  now rewrite spaceAt_rev.
Qed.

Lemma trim_ends (x : jsstring) :
  spaceAt (trim x) = false /\ spaceBefore (lastOf None (trim x)) = false.
Proof.
  unfold trim, trimEnd. split.
  - pose proof (trimStart_spaceAt x) as Hx.
    destruct (trimStart x) as [|c y]; [reflexivity|]. simpl in Hx.
    simpl rev. destruct (@trimStart_last (rev y) c Hx) as [l' ->].
    rewrite rev_app_distr. simpl. exact Hx.
  - rewrite <- spaceAt_rev, rev_involutive. apply trimStart_spaceAt.
Qed.

Lemma tidyPass_facts (re : regex) (r : jsstring) :
  tidyPass (re, r) = true ->
  isIdentityPass (re, r) = true
  \/ (goodPass (re, r) = true
      /\ spaceAt r = false /\ spaceBefore (lastOf None r) = false
      /\ forall q, In q (alternatives (body re)) ->
                   spaceAt q = false
                   /\ spaceBefore (lastOf None q) = false).
Proof.
  unfold tidyPass. cbn [fst snd]. intros H.
  apply orb_true_iff in H as [H|H]; [now left | right].
  apply andb_true_iff in H as [H Halts].
  apply andb_true_iff in H as [Hgood Hr].
  unfold tidyWord in Hr. apply andb_true_iff in Hr as [Hr1 Hr2].
  apply negb_true_iff in Hr1, Hr2.
  rewrite forallb_forall in Halts.
  repeat split; auto;
    specialize (Halts q H); unfold tidyWord in Halts;
    apply andb_true_iff in Halts as [H1 H2];
    apply negb_true_iff in H1, H2; assumption.
Qed.

(** A tidy pass leaves the white space at the two ends as it is. *)
Lemma tidyPass_ends (re : regex) (r : jsstring) :
  tidyPass (re, r) = true ->
  forall (n : nat) (s : jsstring) (pi po : option N),
    List.length s <= n ->
    spaceBefore pi = spaceBefore po ->
    spaceAt (replaceFrom re r 0 pi s) = spaceAt s
    /\ spaceBefore (lastOf po (replaceFrom re r 0 pi s))
       = spaceBefore (lastOf pi s).
Proof.
  intros Htidy.
  destruct (@tidyPass_facts re r Htidy) as [Hid|(Hgood & Hr1 & Hr2 & Halts)].
  { intros n s pi po Hlen Hprev.
    rewrite (@identityPass_fixed re r Hid n s pi Hlen). split; [reflexivity|].
    destruct s as [|c s]; [exact (eq_sym Hprev) | reflexivity]. }
  pose proof (@goodPass_truthy re r Hgood) as Hr.
  induction n as [|n IH]; intros s pi po Hlen Hprev.
  - destruct s; [|simpl in Hlen; lia].
    rewrite (@replaceFrom_nil re r pi Hgood). auto.
  - destruct s as [|c s].
    + rewrite (@replaceFrom_nil re r pi Hgood). auto.
    + simpl in Hlen.
      destruct (@replaceFrom_cases re r pi c s Hgood)
        as [[_ ->]|(p' & s'' & Hs & Hin & _ & _ & ->)].
      * split; [reflexivity|]. rewrite !lastOf_cons.
        apply IH; [lia | reflexivity].
      * destruct (Halts _ Hin) as [Hq1 Hq2]. split.
        -- destruct r; [discriminate Hr|]. simpl in *. congruence.
        -- subst s. rewrite lastOf_app, lastOf_cons, lastOf_app.
           apply IH; [rewrite length_app in Hlen; lia|].
           rewrite (@lastOf_nonempty po None r Hr), Hr2.
           rewrite lastOf_cons in Hq2. now rewrite Hq2.
Qed.

Lemma runPasses_ends (ps : list pass) (t : jsstring) :
  forallb tidyPass ps = true ->
  spaceAt (runPasses ps t) = spaceAt t
  /\ spaceBefore (lastOf None (runPasses ps t))
     = spaceBefore (lastOf None t).
Proof.
  revert t; induction ps as [|[re r] ps IH]; intros t Hall.
  - split; reflexivity.
  - cbn [forallb] in Hall. apply andb_true_iff in Hall as [Hp Hall].
    unfold runPasses. cbn [fold_left fst snd].
    destruct (IH (replaceAll re r t) Hall) as [H1 H2].
    unfold runPasses in H1, H2. rewrite H1, H2. unfold replaceAll.
    exact (@tidyPass_ends re r Hp (List.length t) t None None
                          (le_n _) eq_refl).
Qed.

(** A trimmed text is still trimmed after normalization. *)
Lemma normalizeText_trimmed (x : jsstring) :
  trim (normalizeText (trim x)) = normalizeText (trim x).
Proof.
  rewrite normalizeText_runPasses.
  destruct (truthy (trim x)).
  - destruct (trim_ends x) as [H1 H2].
    destruct (@runPasses_ends passes (trim x)) as [H3 H4].
    { vm_compute. reflexivity. }
    apply trim_fixed; congruence.
  - destruct (trim_ends x) as [H1 H2]. now apply trim_fixed.
Qed.

Lemma normalizeText_twice (s : jsstring) :
  normalizeText (normalizeText s) = normalizeText s.
Proof.
  destruct s as [|c s]; [reflexivity|].
  change (normalizeText (c :: s)) with (runPasses passes (c :: s)).
  rewrite normalizeText_runPasses.
  destruct (truthy (runPasses passes (c :: s))); [|reflexivity].
  apply runPasses_idempotent. vm_compute. reflexivity.
Qed.

(** The key rebuilt from the parts of a key is that key, when name and
    state are normalized, the name trimmed, and no part holds the
    separator. *)
Lemma rebuilt_key (n t st : jsstring) :
  normalizeText n = n -> normalizeText st = st -> trim n = n ->
  ~ In 124%N n -> ~ In 124%N t -> ~ In 124%N st ->
  mapKey (locationOfKey (n ++ js "|" ++ t ++ js "|" ++ st))
  = n ++ js "|" ++ t ++ js "|" ++ st.
Proof.
  intros Hn Hst Htrim Hsn Hst' Hsst.
  unfold locationOfKey, mapKey.
  change (js "|") with [124%N]. cbn [app].
  rewrite (@split_first _ _ _ Hsn), (@split_first _ _ _ Hst'),
    (@split_none _ _ Hsst).
  cbn [nth nth_error type name state].
  rewrite Htrim, Hn.
  destruct (truthy st) eqn:Hs.
  - rewrite Hst. unfold orElse. rewrite Hs. reflexivity.
  - destruct st; [reflexivity | discriminate Hs].
Qed.

(** The text fields of a parsed row are normalized trimmed texts. *)
Lemma column_trimmed (columns : list jsstring) (i : nat) :
  exists y, column columns i [] = trim y.
Proof.
  unfold column. destruct (nth_error columns i) as [c|].
  - exists c. unfold orElse. now destruct (trim c).
  - exists []. reflexivity.
Qed.

Lemma parsed_field (columns : list jsstring) (i : nat) :
  let f := normalizeText (column columns i []) in
  normalizeText f = f /\ trim f = f /\ present f = truthy f.
Proof.
  intros f. unfold f. destruct (column_trimmed columns i) as [y ->].
  split; [apply normalizeText_twice|].
  split; [apply normalizeText_trimmed|].
  unfold present. rewrite normalizeText_trimmed.
  now destruct (normalizeText (trim y)).
Qed.

(** C9.  The text normalizer is idempotent.  Hence, for every row the
    Row Parser builds, with no separator in its text fields, the key
    [processPriceData] looks up is a key of [locationSet], and the key
    under which [processLocations] stores the identifier, rebuilt from
    its parts with name and state normalized once more, is that same
    key: the lookup is not lost to a key mismatch. *)
Theorem normalizeText_idempotent :
  (forall s : jsstring, normalizeText (normalizeText s) = normalizeText s)
  /\ (forall (columns : list jsstring) (k : jsstring),
         let row := rowOfColumns columns in
         ~ In 124%N (global row) -> ~ In 124%N (estado row) ->
         ~ In 124%N (municipio row) ->
         priceLocationKey row = Some k ->
         locationSetKey row = Some k
         /\ mapKey (locationOfKey k) = k).
Proof.
  split; [exact normalizeText_twice|].
  intros columns k row Hg He Hm Hprice.
  destruct (parsed_field columns 1) as (Hg1 & Hg2 & _).
  destruct (parsed_field columns 2) as (He1 & He2 & He3).
  destruct (parsed_field columns 3) as (Hm1 & Hm2 & Hm3).
  cbv zeta in *.
  change (normalizeText (column columns 1 [])) with (global row) in *.
  change (normalizeText (column columns 2 [])) with (estado row) in *.
  change (normalizeText (column columns 3 [])) with (municipio row) in *.
  assert (Hset : locationSetKey row = Some k)
    by (apply keys_agree_when_classified; assumption).
  split; [exact Hset|].
  assert (Hlit : forall t, In t [js "metro_zone"; js "state";
                                 js "municipality"] -> ~ In 124%N t).
  { intros t [<-|[<-|[<-|[]]]]; vm_compute; intuition discriminate. }
  clear Hprice. revert Hset. unfold locationSetKey.
  destruct (streq (global row) (js "Nacional"));
    [intros H; injection H as <-; vm_compute; reflexivity|].
  destruct (startsWith (js "ZM ") (global row)).
  { intros H; injection H as <-.
    apply (@rebuilt_key (global row) (js "metro_zone") []); auto.
    apply Hlit. simpl. auto. }
  destruct (present (estado row) && negb (truthy (municipio row))).
  { intros H; injection H as <-.
    apply (@rebuilt_key (estado row) (js "state") []); auto.
    apply Hlit. simpl. auto. }
  destruct (present (estado row) && present (municipio row)).
  { intros H; injection H as <-.
    apply (@rebuilt_key (municipio row) (js "municipality") (estado row));
      auto.
    apply Hlit. simpl. auto. }
  destruct (JsMap.has propertyTypeMap (global row)
            || streq (global row) (js "Media - Residencial"));
    [intros H; injection H as <-; vm_compute; reflexivity | discriminate].
Qed.

Lemma normalizeText_idempotent_witness :
  mapKey (locationOfKey (js "Nuevo León|state|")) = js "Nuevo León|state|".
Proof.
  destruct normalizeText_idempotent as [_ Hkey].
  apply (Hkey [js "7"; []; js " Nuevo Len"; []; js "1"; js "2020"; js "1,5"]
              (js "Nuevo León|state|")).
  - vm_compute. intuition discriminate.
  - vm_compute. intuition discriminate.
  - vm_compute. intuition discriminate.
  - vm_compute. reflexivity.
Defined.

Example normalizeText_examples :
  normalizeText (js "Nuevo Len") = js "Nuevo León"
  /\ normalizeText (js "MÃ©xico") = js "México"
  /\ normalizeText (js "Baa de Banderas") = js "Bahía de Banderas"
  /\ normalizeText (js "ZM Valle Mxico") = js "ZM Valle México"
  /\ normalizeText (js "xLen Len_") = js "xLen Len_"
  /\ normalizeText [] = [].
Proof. vm_compute. repeat split. Qed.

(* ================================================================= *)
(** * Further properties of the pipeline *)

(** ** The residential filter and the parser *)

(** X1.  The residential filter drops every [Economica - Social] row,
    whatever its other fields, and keeps every other row for which the
    Location Resolver derives a key. *)
Theorem residential_filter_keeps_classified (row : SHFDataRow) :
  (global row = js "Economica - Social" -> isResidential row = false)
  /\ (forall k, global row <> js "Economica - Social" ->
                locationSetKey row = Some k -> isResidential row = true).
Proof.
  split.
  - intros Hes. unfold isResidential. rewrite Hes, streq_refl. reflexivity.
  - intros k Hes. apply streq_false in Hes.
    unfold isResidential, locationSetKey. rewrite Hes. cbn [negb andb].
    destruct (streq (global row) (js "Nacional"));
      [intros _; now rewrite !orb_true_r|].
    destruct (startsWith (js "ZM ") (global row));
      [intros _; now rewrite !orb_true_r|].
    destruct (present (estado row));
      [intros _; now rewrite !orb_true_r|].
    cbn [andb].
    destruct (JsMap.has propertyTypeMap (global row));
      [intros _; now rewrite !orb_true_r|].
    destruct (streq (global row) (js "Media - Residencial"));
      [reflexivity | discriminate].
Qed.

Lemma residential_filter_keeps_classified_witness :
  isResidential (sampleRow "ZM Valle México" "" "" 1 2020 "1.5") = true.
Proof.
  destruct (residential_filter_keeps_classified
              (sampleRow "ZM Valle México" "" "" 1 2020 "1.5")) as [_ H].
  apply (H (js "ZM Valle México|metro_zone|")).
  - vm_compute. discriminate.
  - vm_compute. reflexivity.
Defined.

Lemma parseCSV_rows_of_columns (csvContent : jsstring) (row : SHFDataRow) :
  In row (parseCSV csvContent) ->
  exists columns, row = rowOfColumns columns /\ 7 <= List.length columns.
Proof.
  unfold parseCSV. rewrite parse_loop. cbn [app].
  intros Hin. apply in_flat_map in Hin as (raw & _ & Hin).
  unfold rowsOfLine, fieldCount in Hin.
  destruct (isBlank raw); [destruct Hin|].
  destruct (List.length (split 59 (trim raw)) <? 7) eqn:Hlen;
    [destruct Hin|].
  destruct Hin as [<-|[]]. apply Nat.ltb_ge in Hlen.
  exists (split 59 (trim raw)). split; [reflexivity | exact Hlen].
Qed.

Lemma replaceFirst_truthy (a b : N) (s : jsstring) :
  truthy (replaceFirst a b s) = truthy s.
Proof. destruct s as [|c s]; [reflexivity|]. simpl. now destruct (c =? a)%N. Qed.

(** X2.  Every row the Row Parser returns has trimmed text fields that
    the normalizer leaves as they are, and an index text that is never
    empty. *)
Theorem parsed_rows_are_tidy (csvContent : jsstring) (row : SHFDataRow) :
  In row (parseCSV csvContent) ->
  (forall f, In f [global row; estado row; municipio row] ->
             trim f = f /\ normalizeText f = f)
  /\ truthy (indice row) = true.
Proof.
  intros Hin.
  destruct (parseCSV_rows_of_columns _ _ Hin) as (columns & -> & _).
  split.
  - intros f [<-|[<-|[<-|[]]]].
    + destruct (parsed_field columns 1) as (H1 & H2 & _). now split.
    + destruct (parsed_field columns 2) as (H1 & H2 & _). now split.
    + destruct (parsed_field columns 3) as (H1 & H2 & _). now split.
  - cbn [indice rowOfColumns]. rewrite replaceFirst_truthy.
    unfold column. destruct (nth_error columns 6) as [c|]; [|reflexivity].
    unfold orElse. destruct (truthy (trim c)) eqn:Ht; [exact Ht|reflexivity].
Qed.

Lemma parsed_rows_are_tidy_witness :
  truthy (indice (mkRow 7 [] (js "Nuevo León") [] 1 2020 (js "0"))) = true.
Proof.
  apply (@parsed_rows_are_tidy
           (js "h" ++ newline ++ js " 7;; Nuevo Len ;;1;2020; ")).
  vm_compute. left. reflexivity.
Defined.

(* ================================================================= *)
(** ** Price records *)

Lemma buildRecord_fields (locationMap : JsMap.t) (row : SHFDataRow)
      (w w' : World) (p : ProcessedPriceData) :
  buildRecord locationMap row w = (Value (Some p), w') ->
  exists key,
    priceLocationKey row = Some key
    /\ JsMap.get locationMap key = Some (location_id p)
    /\ truthy (location_id p) = true
    /\ quarter p = trimestre row /\ year p = año row
    /\ index_value p = parseFloat (indice row).
Proof.
  unfold buildRecord, tryCatch, bind.
  destruct (priceLocationKey row) as [key|]; [|discriminate].
  destruct (JsMap.get locationMap key) as [id|] eqn:Hget; [|discriminate].
  destruct (truthy id) eqn:Hid; [|discriminate]. cbn [negb].
  destruct (resolvePropertyType row w) as [[pt|e] w1]; [|discriminate].
  unfold ret. intros H. injection H as <- _.
  exists key. cbn [location_id quarter year index_value].
  repeat split; auto.
Qed.

Lemma prepare_loop (locationMap : JsMap.t) (rows : list SHFDataRow)
      (acc data : list ProcessedPriceData) (w w' : World) :
  forEachM
    (fun priceDataToInsert row =>
       r <- buildRecord locationMap row ;;
       ret (match r with
            | Some priceData => priceDataToInsert ++ [priceData]
            | None => priceDataToInsert
            end))
    acc rows w = (Value data, w') ->
  exists new,
    data = acc ++ new
    /\ List.length new <= List.length rows
    /\ forall p, In p new ->
                 exists row w0 w0',
                   In row rows
                   /\ buildRecord locationMap row w0 = (Value (Some p), w0').
Proof.
  revert acc w; induction rows as [|row rows IH]; intros acc w Hrun.
  - cbn in Hrun. injection Hrun as <- _. exists [].
    rewrite app_nil_r. repeat split; [cbn; lia | intros p []].
  - cbn [forEachM] in Hrun. unfold bind at 1 2 in Hrun.
    destruct (buildRecord locationMap row w) as [[r|e] w1] eqn:Hrow;
      [|discriminate Hrun].
    unfold ret at 1 in Hrun.
    destruct (IH _ _ Hrun) as (new & -> & Hlen & Hnew).
    destruct r as [p0|].
    + exists (p0 :: new). rewrite <- app_assoc. split; [reflexivity|].
      split; [cbn; lia|].
      intros p [<-|Hin].
      * exists row, w, w1. split; [now left | exact Hrow].
      * destruct (Hnew p Hin) as (row' & w0 & w0' & Hin' & Hb).
        exists row', w0, w0'. split; [now right | exact Hb].
    + exists new. split; [reflexivity|]. split; [cbn; lia|].
      intros p Hin. destruct (Hnew p Hin) as (row' & w0 & w0' & Hin' & Hb).
      exists row', w0, w0'. split; [now right | exact Hb].
Qed.

(** X3.  The records the Price Record Builder prepares are no more than
    the rows, and each comes from a row: its location is the identifier
    the map holds for the row's key (never an empty one), its quarter and
    year are the row's, and its value is [parseFloat] of the row's index
    text. *)
Theorem prepared_records_come_from_rows
        (rows : list SHFDataRow) (locationMap : JsMap.t) (w w' : World)
        (data : list ProcessedPriceData) :
  prepareRecords rows locationMap w = (Value data, w') ->
  List.length data <= List.length rows
  /\ forall p, In p data ->
       exists row key,
         In row rows
         /\ priceLocationKey row = Some key
         /\ JsMap.get locationMap key = Some (location_id p)
         /\ truthy (location_id p) = true
         /\ quarter p = trimestre row /\ year p = año row
         /\ index_value p = parseFloat (indice row).
Proof.
  intros Hrun. unfold prepareRecords in Hrun.
  destruct (prepare_loop _ _ _ _ Hrun) as (new & -> & Hlen & Hnew).
  cbn [app]. split; [exact Hlen|].
  intros p Hin. destruct (Hnew p Hin) as (row & w0 & w0' & Hrow & Hb).
  destruct (buildRecord_fields _ _ _ Hb) as (key & Hfields).
  exists row, key. split; [exact Hrow | exact Hfields].
Qed.

Lemma prepared_records_come_from_rows_witness :
  List.length [mkPriceData (js "101") None 2 2020 (Finite false 15025 (-2))]
  <= List.length [sampleRow "Nacional" "" "" 2 2020 "150.25";
                  sampleRow "Usada" "" "" 2 2020 "1.5"].
Proof.
  apply (@prepared_records_come_from_rows
           [sampleRow "Nacional" "" "" 2 2020 "150.25";
            sampleRow "Usada" "" "" 2 2020 "1.5"]
           [(js "Nacional|national|", js "101")] seededWorld seededWorld).
  vm_compute. reflexivity.
Defined.

Lemma rowsOfLine_short (raw : jsstring) : List.length (rowsOfLine raw) <= 1.
Proof.
  unfold rowsOfLine. destruct (isBlank raw); [cbn; lia|].
  destruct (fieldCount raw <? 7); cbn; lia.
Qed.

Lemma parseCSV_length (csvContent : jsstring) :
  List.length (parseCSV csvContent)
  <= List.length (split 10 csvContent) - 1.
Proof.
  unfold parseCSV. rewrite parse_loop. cbn [app].
  destruct (split 10 csvContent) as [|header lines]; [cbn; lia|].
  cbn [skipn List.length]. rewrite Nat.sub_1_r. cbn [Nat.pred].
  induction lines as [|raw lines IH]; [cbn; lia|].
  cbn [flat_map]. rewrite length_app. pose proof (rowsOfLine_short raw).
  cbn [List.length]. lia.
Qed.

Lemma filter_length {A} (f : A -> bool) (l : list A) :
  List.length (filter f l) <= List.length l.
Proof.
  induction l as [|x l IH]; [cbn; lia|]. cbn.
  destruct (f x); cbn; lia.
Qed.

(** X4.  The count a run reports never exceeds the number of lines after
    the header. *)
Theorem records_bounded_by_lines
        (csvContent fileName : jsstring) (w w' : World) (r : IngestResult) :
  processCSV csvContent fileName w = (Value r, w') ->
  recordsProcessed r <= List.length (split 10 csvContent) - 1.
Proof.
  rewrite processCSV_run. cbv zeta.
  set (rows := filter isResidential (parseCSV csvContent)).
  destruct (insertLog fileName w) as [[[createdLog|createErr]|e] w0];
    [|intros H; injection H as <- _; cbn; lia..].
  destruct (processLocations rows w0) as [[locs|e] w1];
    [|intros H; injection H as <- _; cbn; lia].
  destruct (processPropertyTypes w1) as [[[]|e] w2];
    [|intros H; injection H as <- _; cbn; lia].
  destruct (prepareRecords_total rows locs w2) as (data & w3 & Hprep).
  rewrite (processPriceData_run _ _ _ Hprep).
  assert (Hbound : List.length data
                   <= List.length (split 10 csvContent) - 1).
  { unfold prepareRecords in Hprep.
    destruct (prepare_loop _ _ _ _ Hprep) as (new & -> & Hlen & _).
    pose proof (filter_length isResidential (parseCSV csvContent)).
    pose proof (parseCSV_length csvContent). fold rows in H.
    cbn [app]. lia. }
  destruct (updateLog _ _ _ _) as [[[[]|e]|e] w4];
    intros H; injection H as <- _; cbn; lia.
Qed.

Lemma records_bounded_by_lines_witness :
  recordsProcessed (completedWith 1)
  <= List.length
       (split 10 (js "h" ++ newline ++ js "1;Nacional;;;2;2020;150,25")) - 1.
Proof.
  apply (@records_bounded_by_lines
           (js "h" ++ newline ++ js "1;Nacional;;;2;2020;150,25")
           (js "shf.csv") seededWorld
           (snd (processCSV
                   (js "h" ++ newline ++ js "1;Nacional;;;2;2020;150,25")
                   (js "shf.csv") seededWorld))).
  vm_compute. reflexivity.
Defined.

(** X5.  How the property type of a record is resolved, for a row whose
    location key resolves.  A row without a property-type label reads
    nothing and gets no property type.  A row with a label reads the
    property types once: the record gets the identifier of a stored type
    whose name is the code of the label, or none if no stored type has
    that name; when the read is answered with an error the record is
    still produced, without a property type; when the read rejects the
    row is skipped. *)
Theorem property_type_resolution
        (locationMap : JsMap.t) (row : SHFDataRow) (w : World)
        (key id : jsstring) :
  priceLocationKey row = Some key ->
  JsMap.get locationMap key = Some id ->
  truthy id = true ->
  let record pt :=
    mkPriceData id pt (trimestre row) (año row) (parseFloat (indice row)) in
  match JsMap.get propertyTypeMap (global row) with
  | None => buildRecord locationMap row w = (Value (Some (record None)), w)
  | Some code =>
      let w1 := recordCalls w [SelectPropertyTypes] in
      match plan w (List.length (calls w)) with
      | Normal =>
          exists pt,
            buildRecord locationMap row w = (Value (Some (record pt)), w1)
            /\ match pt with
               | Some i =>
                   exists t, In t (property_types w)
                             /\ pt_id t = i /\ pt_name t = code
               | None =>
                   forall t, In t (property_types w) -> pt_name t <> code
               end
      | ErrorResult _ =>
          buildRecord locationMap row w = (Value (Some (record None)), w1)
      | Rejected _ => buildRecord locationMap row w = (Value None, w1)
      end
  end.
Proof.
  intros Hkey Hget Hid record.
  unfold buildRecord, tryCatch, bind at 1, resolvePropertyType.
  rewrite Hkey, Hget, Hid. cbn [negb].
  destruct (JsMap.get propertyTypeMap (global row)) as [code|];
    [|reflexivity].
  unfold bind, getPropertyTypes. rewrite request_run. cbv zeta.
  destruct (plan w (List.length (calls w))); [|reflexivity..].
  cbn [fst snd].
  exists (option_map pt_id
            (find (fun pt => streq (pt_name pt) code)
                  (orderBy pt_name (property_types w)))).
  split; [reflexivity|].
  destruct (find _ _) as [t|] eqn:Hfind; cbn [option_map].
  - apply find_some in Hfind as [Hin Heq].
    exists t. rewrite orderBy_In in Hin. apply streq_spec in Heq. auto.
  - intros t Hin Heq.
    assert (Hin' : In t (orderBy pt_name (property_types w)))
      by now apply orderBy_In.
    pose proof (find_none _ _ Hfind t Hin') as Hno. cbv beta in Hno.
    rewrite Heq, streq_refl in Hno. discriminate Hno.
Qed.

(** A state-level row with the label [Usada]: the record carries the
    identifier of the stored type [usada]. *)
Lemma property_type_resolution_witness :
  exists pt,
    buildRecord [(js "Jalisco|state|", js "7")]
                (sampleRow "Usada" "Jalisco" "" 1 2020 "1.5") seededWorld
    = (Value (Some (mkPriceData (js "7") pt 1 2020 (Finite false 15 (-1)))),
       recordCalls seededWorld [SelectPropertyTypes])
    /\ pt = Some (js "pt-2").
Proof.
  pose proof (@property_type_resolution
                [(js "Jalisco|state|", js "7")]
                (sampleRow "Usada" "Jalisco" "" 1 2020 "1.5") seededWorld
                (js "Jalisco|state|") (js "7") eq_refl eq_refl eq_refl) as H.
  cbv zeta in H.
  change (JsMap.get propertyTypeMap
            (global (sampleRow "Usada" "Jalisco" "" 1 2020 "1.5")))
    with (Some (js "usada")) in H.
  change (plan seededWorld (List.length (calls seededWorld)))
    with Normal in H.
  destruct H as (pt & Hrun & Hpt). exists pt. split; [exact Hrun|].
  destruct pt as [i|].
  - destruct Hpt as (t & Hin & <- & Hname).
    vm_compute in Hin.
    destruct Hin as [<-|[<-|[<-|[<-|[<-|[]]]]]];
      first [reflexivity | vm_compute in Hname; discriminate Hname].
  - exfalso. apply (Hpt (mkPropertyType (js "pt-2") (js "usada"))).
    + vm_compute. right. left. reflexivity.
    + reflexivity.
Defined.

(* ================================================================= *)
(** ** Batches *)

Lemma batchesOf_slices {A} (size fuel : nat) (l : list A) :
  0 < size -> List.length l <= fuel ->
  List.length (batchesOf size fuel l) = (List.length l + size - 1) / size
  /\ forall i b, nth_error (batchesOf size fuel l) i = Some b ->
                 b = firstn size (skipn (i * size) l)
                 /\ 1 <= List.length b.
Proof.
  intros Hsize. revert l; induction fuel as [|fuel IH]; intros l Hlen.
  - destruct l; [|cbn in Hlen; lia]. cbn [batchesOf List.length]. split.
    + symmetry. apply Nat.div_small. lia.
    + intros [|i] b H; discriminate H.
  - destruct l as [|x l'] eqn:Hl.
    + cbn [batchesOf List.length]. split.
      * symmetry. apply Nat.div_small. lia.
      * intros [|i] b H; discriminate H.
    + rewrite <- Hl in *. assert (Hpos : 1 <= List.length l)
        by (rewrite Hl; cbn; lia).
      assert (Hunfold : batchesOf size (S fuel) l
                        = firstn size l :: batchesOf size fuel (skipn size l))
        by (rewrite Hl; reflexivity).
      rewrite Hunfold.
      destruct (IH (skipn size l)) as [Hcount Hslices].
      { rewrite length_skipn. lia. }
      split.
      * cbn [List.length]. rewrite Hcount, length_skipn.
        destruct (Nat.le_gt_cases (List.length l) size) as [Hle|Hgt].
        -- replace (List.length l - size) with 0 by lia.
           rewrite (Nat.div_small (0 + size - 1)) by lia.
           apply (Nat.div_unique _ _ 1 (List.length l - 1)); lia.
        -- replace (List.length l + size - 1)
             with ((List.length l - size + size - 1) + 1 * size) by lia.
           rewrite Nat.div_add by lia. lia.
      * intros [|i] b Hb.
        -- cbn in Hb. injection Hb as <-. cbn [Nat.mul skipn]. split;
             [reflexivity|].
           rewrite length_firstn. lia.
        -- cbn [nth_error] in Hb. destruct (Hslices i b Hb) as [-> Hb1].
           split; [|exact Hb1].
           rewrite skipn_skipn. cbn [Nat.mul].
           now rewrite (Nat.add_comm size (i * size)).
Qed.

(** X6.  The Batch Persister sends [ceil(n / 1000)] upserts for [n]
    prepared records: the batch number [i] is the slice
    [data.slice(1000 i, 1000 i + 1000)] and is never empty.  With no
    record prepared, no upsert is sent. *)
Theorem batches_are_slices
        (rows : list SHFDataRow) (locationMap : JsMap.t) (w w1 : World)
        (data : list ProcessedPriceData) :
  prepareRecords rows locationMap w = (Value data, w1) ->
  exists bs,
    processPriceData rows locationMap w = (Value data, afterBatches w1 bs)
    /\ List.length bs = (List.length data + 999) / 1000
    /\ (forall i b, nth_error bs i = Some b ->
                    b = firstn 1000 (skipn (i * 1000) data)
                    /\ 1 <= List.length b)
    /\ (data = [] -> afterBatches w1 bs = w1).
Proof.
  intros Hprep.
  exists (batchesOf batchSize (List.length data) data).
  split; [exact (processPriceData_run _ _ _ Hprep)|].
  destruct (@batchesOf_slices _ batchSize (List.length data) data)
    as [Hcount Hslices]; [unfold batchSize; lia | lia |].
  split; [rewrite Hcount; unfold batchSize; f_equal; lia|].
  split; [exact Hslices|].
  intros ->. cbn [List.length batchesOf]. apply afterBatches_nil.
Qed.

Lemma batches_are_slices_witness :
  let record :=
    mkPriceData (js "101") None 2 2020 (Finite false 15025 (-2)) in
  exists bs,
    processPriceData
      (repeat (sampleRow "Nacional" "" "" 2 2020 "150.25") 2001)
      [(js "Nacional|national|", js "101")] seededWorld
    = (Value (repeat record 2001), afterBatches seededWorld bs)
    /\ List.length bs = 3
    /\ nth_error bs 0 = Some (repeat record 1000)
    /\ nth_error bs 1 = Some (repeat record 1000)
    /\ nth_error bs 2 = Some [record].
Proof.
  intros record.
  destruct (@batches_are_slices
              (repeat (sampleRow "Nacional" "" "" 2 2020 "150.25") 2001)
              [(js "Nacional|national|", js "101")] seededWorld seededWorld
              (repeat record 2001)) as (bs & Hrun & Hcount & Hslices & _).
  - vm_compute. reflexivity.
  - exists bs. split; [exact Hrun|].
    assert (Hthree : List.length bs = 3).
    { rewrite Hcount, repeat_length. vm_compute. reflexivity. }
    split; [exact Hthree|].
    destruct bs as [|b0 [|b1 [|b2 [|b3 bs]]]]; try discriminate Hthree.
    destruct (Hslices 0 b0 eq_refl) as [-> _].
    destruct (Hslices 1 b1 eq_refl) as [-> _].
    destruct (Hslices 2 b2 eq_refl) as [-> _].
    cbn [nth_error]. repeat split; f_equal; vm_compute; reflexivity.
Defined.

(* ================================================================= *)
(** ** Referential consistency *)

Section Frames.

Variable R : World -> World -> Prop.
Hypothesis R_refl : forall w, R w w.
Hypothesis R_trans : forall w1 w2 w3, R w1 w2 -> R w2 w3 -> R w1 w3.

Lemma Keeps_ret {A} (a : A) : Keeps R (ret a).
Proof. intros w. apply R_refl. Qed.

Lemma Keeps_throw {A} (e : ErrorValue) : Keeps R (@throw A e).
Proof. intros w. apply R_refl. Qed.

Lemma Keeps_bind {A B} (m : M A) (k : A -> M B) :
  Keeps R m -> (forall a, Keeps R (k a)) -> Keeps R (bind m k).
Proof.
  intros Hm Hk w. unfold bind. specialize (Hm w).
  destruct (m w) as [[a|e] w1]; cbn [snd] in *.
  - eapply R_trans; [exact Hm | apply Hk].
  - exact Hm.
Qed.

Lemma Keeps_tryCatch {A} (m : M A) (h : ErrorValue -> M A) :
  Keeps R m -> (forall e, Keeps R (h e)) -> Keeps R (tryCatch m h).
Proof.
  intros Hm Hh w. unfold tryCatch. specialize (Hm w).
  destruct (m w) as [[a|e] w1]; cbn [snd] in *.
  - exact Hm.
  - eapply R_trans; [exact Hm | apply Hh].
Qed.

Lemma Keeps_forEachM {A B} (step : A -> B -> M A) (xs : list B) :
  (forall acc x, Keeps R (step acc x)) ->
  forall acc, Keeps R (forEachM step acc xs).
Proof.
  intros Hstep. induction xs as [|x xs IH]; intros acc; cbn [forEachM].
  - apply Keeps_ret.
  - apply Keeps_bind; [apply Hstep | intros a; apply IH].
Qed.

Lemma Keeps_request {A} (c : Call) (effect : World -> A * World) :
  (forall w, R w (setField_calls w (calls w ++ [c]))) ->
  (forall w, R w (snd (effect w))) ->
  Keeps R (request c effect).
Proof.
  intros Hrec Heff w. rewrite request_run. cbv zeta.
  destruct (plan w (List.length (calls w))); cbn [snd]; try apply Hrec.
  eapply R_trans; [apply Hrec | apply Heff].
Qed.

End Frames.

Lemma grows_refl (w : World) : grows w w.
Proof. exists []. now rewrite app_nil_r. Qed.

Lemma grows_trans (w1 w2 w3 : World) :
  grows w1 w2 -> grows w2 w3 -> grows w1 w3.
Proof.
  intros [c1 H1] [c2 H2]. exists (c1 ++ c2).
  now rewrite H2, H1, app_assoc.
Qed.

Lemma pricesKept_refl (w : World) : pricesKept w w.
Proof. split; [reflexivity | apply grows_refl]. Qed.

Lemma pricesKept_trans (w1 w2 w3 : World) :
  pricesKept w1 w2 -> pricesKept w2 w3 -> pricesKept w1 w3.
Proof.
  intros [Hp1 Hg1] [Hp2 Hg2]. split; [congruence|].
  eapply grows_trans; eassumption.
Qed.

Lemma pricesKept_request {A} (c : Call) (effect : World -> A * World) :
  (forall w, pricesKept w (snd (effect w))) ->
  Keeps pricesKept (request c effect).
Proof.
  intros Heff. apply Keeps_request.
  - apply pricesKept_trans.
  - intros w. split; [reflexivity|]. exists [].
    cbn [locations setField_calls]. now rewrite app_nil_r.
  - exact Heff.
Qed.

Lemma pricesKept_ret {A} (a : A) : Keeps pricesKept (ret a).
Proof. apply Keeps_ret, pricesKept_refl. Qed.

Lemma pricesKept_throw {A} (e : ErrorValue) : Keeps pricesKept (@throw A e).
Proof. apply Keeps_throw, pricesKept_refl. Qed.

Lemma pricesKept_bind {A B} (m : M A) (k : A -> M B) :
  Keeps pricesKept m -> (forall a, Keeps pricesKept (k a)) ->
  Keeps pricesKept (bind m k).
Proof. apply Keeps_bind, pricesKept_trans. Qed.

Lemma pricesKept_tryCatch {A} (m : M A) (h : ErrorValue -> M A) :
  Keeps pricesKept m -> (forall e, Keeps pricesKept (h e)) ->
  Keeps pricesKept (tryCatch m h).
Proof. apply Keeps_tryCatch, pricesKept_trans. Qed.

Lemma pricesKept_forEachM {A B} (step : A -> B -> M A) (xs : list B) :
  (forall acc x, Keeps pricesKept (step acc x)) ->
  forall acc, Keeps pricesKept (forEachM step acc xs).
Proof.
  apply Keeps_forEachM; [apply pricesKept_refl | apply pricesKept_trans].
Qed.

Lemma pricesKept_getPropertyTypes : Keeps pricesKept getPropertyTypes.
Proof. apply pricesKept_request. intros w. apply pricesKept_refl. Qed.

Lemma pricesKept_getLocations : Keeps pricesKept getLocations.
Proof. apply pricesKept_request. intros w. apply pricesKept_refl. Qed.

Lemma pricesKept_insertLocation (l : ProcessedLocation) :
  Keeps pricesKept (insertLocation l).
Proof.
  apply pricesKept_request. intros w. split; [reflexivity|].
  eexists. reflexivity.
Qed.

Lemma pricesKept_insertLog (f : jsstring) : Keeps pricesKept (insertLog f).
Proof.
  apply pricesKept_request. intros w. split; [reflexivity|].
  exists []. cbn [snd locations]. now rewrite app_nil_r.
Qed.

Lemma pricesKept_processLocations (rows : list SHFDataRow) :
  Keeps pricesKept (processLocations rows).
Proof.
  unfold processLocations. apply pricesKept_forEachM. intros m location.
  unfold reconcile.
  apply pricesKept_tryCatch; [|intros e; apply pricesKept_ret].
  apply pricesKept_bind; [apply pricesKept_getLocations|].
  intros [data|e]; [|apply pricesKept_throw].
  destruct (find _ _); [apply pricesKept_ret|].
  apply pricesKept_bind; [apply pricesKept_insertLocation|].
  intros [created|e]; [apply pricesKept_ret | apply pricesKept_throw].
Qed.

Lemma pricesKept_processPropertyTypes : Keeps pricesKept processPropertyTypes.
Proof.
  unfold processPropertyTypes.
  apply pricesKept_bind; [apply pricesKept_getPropertyTypes|].
  intros [data|e]; [apply pricesKept_ret | apply pricesKept_throw].
Qed.

Lemma pricesKept_prepareRecords (rows : list SHFDataRow) (m : JsMap.t) :
  Keeps pricesKept (prepareRecords rows m).
Proof.
  unfold prepareRecords. apply pricesKept_forEachM. intros acc row.
  apply pricesKept_bind; [|intros r; apply pricesKept_ret].
  unfold buildRecord.
  apply pricesKept_tryCatch; [|intros e; apply pricesKept_ret].
  destruct (priceLocationKey row); [|apply pricesKept_ret].
  destruct (JsMap.get m j) as [id|]; [|apply pricesKept_ret].
  destruct (negb (truthy id)); [apply pricesKept_ret|].
  apply pricesKept_bind; [|intros pt; apply pricesKept_ret].
  unfold resolvePropertyType.
  destruct (JsMap.get propertyTypeMap (global row)); [|apply pricesKept_ret].
  apply pricesKept_bind; [apply pricesKept_getPropertyTypes|].
  intros [data|e]; apply pricesKept_ret.
Qed.

Lemma JsMap_get_set (m : JsMap.t) (k v k' : jsstring) :
  JsMap.get (JsMap.set m k v) k'
  = if streq k k' then Some v else JsMap.get m k'.
Proof.
  induction m as [|[k0 v0] m IH]; cbn [JsMap.set JsMap.get].
  - reflexivity.
  - destruct (streq k0 k) eqn:Hk0.
    + apply streq_spec in Hk0. subst k0. cbn [JsMap.get].
      now destruct (streq k k').
    + cbn [JsMap.get]. destruct (streq k0 k') eqn:Hk0'; [|exact IH].
      apply streq_spec in Hk0'. subst k0.
      destruct (streq k k') eqn:Hk; [|reflexivity].
      apply streq_spec in Hk. subst k'. rewrite streq_refl in Hk0.
      discriminate Hk0.
Qed.

Lemma persisted_set (m : JsMap.t) (w : World) (loc : Location) :
  persisted m w -> In loc (locations w) ->
  persisted (JsMap.set m (keyOfLocation loc) (loc_id loc)) w.
Proof.
  intros Hm Hin k id. rewrite JsMap_get_set.
  destruct (streq (keyOfLocation loc) k) eqn:Hk; [|apply Hm].
  apply streq_spec in Hk. intros H. injection H as <-.
  exists loc. auto.
Qed.

Lemma persisted_grows (m : JsMap.t) (w w' : World) :
  persisted m w -> grows w w' -> persisted m w'.
Proof.
  intros Hm [created Hg] k id Hget.
  destruct (Hm k id Hget) as (loc & Hin & Hid & Hk).
  exists loc. rewrite Hg, in_app_iff. auto.
Qed.

Lemma sameLocation_key (location : ProcessedLocation) (loc : Location) :
  sameLocation location loc = true -> keyOfLocation loc = mapKey location.
Proof.
  intros H. apply sameLocation_spec in H as (Hn & Ht & st & Hs & Hs').
  unfold keyOfLocation, mapKey. cbn [name type state].
  rewrite Hn, Ht, Hs, Hs'. reflexivity.
Qed.

Lemma reconcile_persisted (m m' : JsMap.t) (location : ProcessedLocation)
      (w w' : World) :
  persisted m w ->
  reconcile m location w = (Value m', w') ->
  persisted m' w'.
Proof.
  intros Hm. rewrite reconcile_run. cbv zeta.
  assert (Hrec : forall cs, persisted m (recordCalls w cs))
    by (intros cs; exact Hm).
  destruct (plan w (List.length (calls w)));
    [|intros H; injection H as <- <-; apply Hrec..].
  destruct (find _ _) as [existing|] eqn:Hfind.
  - apply find_some in Hfind as [Hin Hsame]. rewrite orderBy_In in Hin.
    intros H. injection H as <- <-.
    rewrite <- (@sameLocation_key location existing Hsame).
    now apply (@persisted_set m (recordCalls w [SelectLocations])).
  - destruct (plan w (S (List.length (calls w))));
      [|intros H; injection H as <- <-; apply Hrec..].
    intros H. injection H as <- <-.
    set (w2 := addLocation _ _).
    assert (Hin : In (rowFor w location) (locations w2)).
    { unfold w2. cbn [locations addLocation recordCalls setField_calls].
      apply in_app_iff. right. now left. }
    assert (Hm2 : persisted m w2).
    { apply (@persisted_grows m w w2 Hm). exists [rowFor w location].
      reflexivity. }
    pose proof (@persisted_set m w2 (rowFor w location) Hm2 Hin) as Hset.
    assert (Hkey : keyOfLocation (rowFor w location) = mapKey location)
      by now destruct location.
    rewrite Hkey in Hset. exact Hset.
Qed.

Lemma reconcile_loop_persisted (ls : list ProcessedLocation)
      (m m' : JsMap.t) (w w' : World) :
  persisted m w ->
  forEachM reconcile m ls w = (Value m', w') ->
  persisted m' w'.
Proof.
  revert m w; induction ls as [|l ls IH]; intros m w Hm Hrun.
  - cbn in Hrun. injection Hrun as <- <-. exact Hm.
  - cbn [forEachM] in Hrun. unfold bind in Hrun.
    destruct (reconcile m l w) as [[m1|e] w1] eqn:Hstep;
      [|discriminate Hrun].
    exact (IH _ _ (@reconcile_persisted m m1 l w w1 Hm Hstep) Hrun).
Qed.

Lemma processLocations_persisted (rows : list SHFDataRow) (m : JsMap.t)
      (w w' : World) :
  processLocations rows w = (Value m, w') -> persisted m w'.
Proof.
  apply reconcile_loop_persisted. intros k id H. discriminate H.
Qed.

(** X7.  Every identifier in the map the Location Resolver returns is the
    identifier of a location that is in the store when it returns, with
    the name, type and state the key is made of. *)
Theorem location_map_is_persisted
        (rows : list SHFDataRow) (w w' : World) (locationMap : JsMap.t)
        (k id : jsstring) :
  processLocations rows w = (Value locationMap, w') ->
  JsMap.get locationMap k = Some id ->
  exists loc,
    In loc (locations w') /\ loc_id loc = id
    /\ k = loc_name loc ++ js "|" ++ loc_type loc ++ js "|"
           ++ match loc_state loc with Some st => st | None => [] end.
Proof.
  intros Hrun Hget.
  destruct (@processLocations_persisted rows locationMap w w' Hrun k id Hget)
    as (loc & Hin & Hid & Hk).
  exists loc. split; [exact Hin|]. split; [exact Hid|].
  rewrite <- Hk. unfold keyOfLocation, mapKey. cbn [name type state].
  destruct (loc_state loc) as [[|c st]|]; reflexivity.
Qed.

Lemma location_map_is_persisted_witness :
  exists loc,
    In loc (locations
              (snd (processLocations
                      [sampleRow "" "Jalisco" "Guadalajara" 1 2020 "1.5"]
                      seededWorld)))
    /\ loc_id loc = js "100".
Proof.
  destruct (@location_map_is_persisted
              [sampleRow "" "Jalisco" "Guadalajara" 1 2020 "1.5"]
              seededWorld
              (snd (processLocations
                      [sampleRow "" "Jalisco" "Guadalajara" 1 2020 "1.5"]
                      seededWorld))
              [(js "Guadalajara|municipality|Jalisco", js "100")]
              (js "Guadalajara|municipality|Jalisco") (js "100"))
    as (loc & Hin & Hid & _).
  - vm_compute. reflexivity.
  - vm_compute. reflexivity.
  - exists loc. split; [exact Hin | exact Hid].
Defined.

Lemma upsertOne_In (table : list ProcessedPriceData)
      (r p : ProcessedPriceData) :
  In p (upsertOne table r) -> In p table \/ p = r.
Proof.
  induction table as [|x t IH]; cbn [upsertOne].
  - intros [<-|[]]. now right.
  - destruct (sameKey x r).
    + intros [<-|H]; [now right | left; now right].
    + intros [<-|H]; [left; now left|].
      destruct (IH H) as [H'|H']; [left; now right | now right].
Qed.

Lemma upsert_In (batch table : list ProcessedPriceData)
      (p : ProcessedPriceData) :
  In p (fold_left upsertOne batch table) -> In p table \/ In p batch.
Proof.
  revert table; induction batch as [|r batch IH]; intros table H.
  - now left.
  - cbn [fold_left] in H. destruct (IH _ H) as [H'|H'].
    + destruct (upsertOne_In _ _ _ H') as [H''| ->];
        [now left | right; now left].
    + right. now right.
Qed.

Lemma commitBatches_In (plan0 : nat -> Fault) (n : nat)
      (bs : list (list ProcessedPriceData))
      (table : list ProcessedPriceData) (p : ProcessedPriceData) :
  In p (commitBatches plan0 n bs table) ->
  In p table \/ In p (List.concat bs).
Proof.
  revert n table; induction bs as [|b bs IH]; intros n table H.
  - now left.
  - cbn [commitBatches] in H. cbn [List.concat]. rewrite in_app_iff.
    destruct (IH _ _ H) as [H'|H']; [|auto].
    destruct (plan0 n); auto.
    destruct (upsert_In _ _ _ H'); auto.
Qed.

Lemma pricesKept_resolve (w w' : World) :
  pricesKept w w' -> newPricesResolve w w'.
Proof. intros [Hp _] p Hin. left. now rewrite <- Hp. Qed.

(** X8.  A run adds no price record that points nowhere: every record of
    the price table after [processCSV] was there before, or carries the
    identifier of a location that is in the store. *)
Theorem ingested_prices_resolve
        (csvContent fileName : jsstring) (w w' : World) (r : IngestResult) :
  processCSV csvContent fileName w = (Value r, w') ->
  newPricesResolve w w'.
Proof.
  rewrite processCSV_run. cbv zeta.
  set (rows := filter isResidential (parseCSV csvContent)).
  pose proof (pricesKept_insertLog fileName w) as K0.
  destruct (insertLog fileName w) as [[[createdLog|createErr]|e] w0];
    cbn [snd] in K0;
    [|intros H; injection H as _ <-; now apply pricesKept_resolve..].
  pose proof (pricesKept_processLocations rows w0) as K1.
  destruct (processLocations rows w0) as [[locs|e] w1] eqn:Hlocs;
    cbn [snd] in K1;
    [|intros H; injection H as _ <-;
      apply pricesKept_resolve; eapply pricesKept_trans; eassumption].
  pose proof (processLocations_persisted _ _ Hlocs) as Hpers.
  pose proof (pricesKept_trans K0 K1) as K01. clear K0 K1.
  pose proof (pricesKept_processPropertyTypes w1) as K2.
  destruct (processPropertyTypes w1) as [[[]|e] w2]; cbn [snd] in K2;
    [|intros H; injection H as _ <-;
      apply pricesKept_resolve; eapply pricesKept_trans; eassumption].
  destruct (prepareRecords_total rows locs w2) as (data & w3 & Hprep).
  pose proof (pricesKept_prepareRecords rows locs w2) as K3.
  rewrite Hprep in K3. cbn [snd] in K3.
  rewrite (processPriceData_run _ _ _ Hprep).
  set (bs := batchesOf batchSize (List.length data) data).
  assert (Hpers3 : persisted locs w3).
  { destruct K2 as [_ G2]. destruct K3 as [_ G3].
    apply (@persisted_grows locs w1 w3 Hpers).
    eapply grows_trans; eassumption. }
  assert (Hprices3 : price_indices w3 = price_indices w).
  { destruct K01 as [P01 _]. destruct K2 as [P2 _]. destruct K3 as [P3 _].
    congruence. }
  assert (Hres : forall w4,
             locations w4 = locations w3 ->
             price_indices w4 = price_indices (afterBatches w3 bs) ->
             newPricesResolve w w4).
  { intros w4 Hl4 Hp4 p Hin. rewrite Hp4 in Hin.
    cbn [price_indices afterBatches] in Hin.
    apply commitBatches_In in Hin as [Hin|Hin].
    - left. now rewrite <- Hprices3.
    - right. unfold bs in Hin.
      rewrite batchesOf_concat in Hin by (unfold batchSize; lia).
      unfold prepareRecords in Hprep.
      destruct (prepare_loop _ _ _ _ Hprep) as (new & Hdata & _ & Hnew).
      cbn [app] in Hdata. subst new.
      destruct (Hnew p Hin) as (row & wa & wb & _ & Hb).
      destruct (buildRecord_fields _ _ _ Hb) as (key & _ & Hget & _).
      destruct (Hpers3 key _ Hget) as (loc & Hloc & Hid & _).
      exists loc. rewrite Hl4. auto. }
  unfold updateLog. rewrite request_run. cbv zeta.
  destruct (plan _ _); intros H; injection H as _ <-;
    apply Hres; reflexivity.
Qed.

Lemma ingested_prices_resolve_witness :
  exists w',
    processCSV (js "h" ++ newline ++ js "1;Nacional;;;2;2020;150,25")
               (js "shf.csv") seededWorld
    = (Value (completedWith 1), w')
    /\ price_indices w' <> []
    /\ newPricesResolve seededWorld w'.
Proof.
  eexists. split; [vm_compute; reflexivity|].
  split; [discriminate|].
  apply (@ingested_prices_resolve
           (js "h" ++ newline ++ js "1;Nacional;;;2;2020;150,25")
           (js "shf.csv") seededWorld _ (completedWith 1)).
  vm_compute. reflexivity.
Defined.

(* ================================================================= *)
(** ** Ingesting again *)

Lemma recordCalls_afterLocations (w : World) (t : list Call) :
  recordCalls w t = afterLocations w [] t.
Proof.
  destruct w. unfold recordCalls, setField_calls, afterLocations.
  cbn. now rewrite app_nil_r.
Qed.

Lemma addLocation_afterLocations (w : World) (t : list Call)
      (row : Location) :
  addLocation (recordCalls w t) row = afterLocations w [row] t.
Proof. reflexivity. Qed.

Lemma stateless_false (l : ProcessedLocation) :
  stateless l = false -> exists st, state l = Some st.
Proof.
  unfold stateless. destruct (state l) as [st|]; [|discriminate].
  intros _. now exists st.
Qed.

(** The row created for a location with a state is found again. *)
Lemma sameLocation_rowFor (w : World) (l : ProcessedLocation) :
  stateless l = false -> sameLocation l (rowFor w l) = true.
Proof.
  intros Hl. apply stateless_false in Hl as [st Hst].
  apply sameLocation_spec. repeat split. exists st. split; assumption.
Qed.

(** When every call is carried out, the loop leaves in the store a
    location that the code finds again, for each of its keys that has a
    state. *)
Lemma reconcile_loop_covers (ls : list ProcessedLocation) (m : JsMap.t)
      (w : World) :
  (forall n, plan w n = Normal) ->
  exists m' w',
    forEachM reconcile m ls w = (Value m', w')
    /\ (forall n, plan w' n = Normal)
    /\ grows w w'
    /\ forall l, In l ls -> stateless l = false ->
                 exists loc, In loc (locations w')
                             /\ sameLocation l loc = true.
Proof.
  revert m w; induction ls as [|l ls IH]; intros m w Hplan.
  - exists m, w. split; [reflexivity|]. split; [exact Hplan|].
    split; [apply grows_refl | intros l []].
  - cbn [forEachM]. unfold bind. rewrite reconcile_run. cbv zeta.
    rewrite !Hplan.
    destruct (find (sameLocation l) (orderBy loc_name (locations w)))
      as [existing|] eqn:Hfind.
    + apply find_some in Hfind as [Hin Hsame]. rewrite orderBy_In in Hin.
      destruct (IH (JsMap.set m (mapKey l) (loc_id existing))
                   (recordCalls w [SelectLocations]) Hplan)
        as (m' & w' & Hrun & Hplan' & Hgrow & Hcover).
      exists m', w'. split; [exact Hrun|]. split; [exact Hplan'|].
      split; [exact Hgrow|].
      intros l0 [<-|Hl0]; [|now apply Hcover].
      intros _. destruct Hgrow as [created Hg]. exists existing.
      rewrite Hg, in_app_iff. auto.
    + destruct (IH (JsMap.set m (mapKey l) (idOfNat (next_id w)))
                   (addLocation
                      (recordCalls w [SelectLocations; InsertLocation l])
                      (rowFor w l)) Hplan)
        as (m' & w' & Hrun & Hplan' & Hgrow & Hcover).
      exists m', w'. split; [exact Hrun|]. split; [exact Hplan'|].
      split.
      * eapply grows_trans; [|exact Hgrow].
        exists [rowFor w l]. reflexivity.
      * intros l0 [<-|Hl0]; [|now apply Hcover].
        intros Hl. destruct Hgrow as [created Hg]. exists (rowFor w l).
        split; [|now apply sameLocation_rowFor].
        rewrite Hg. cbn [locations addLocation recordCalls setField_calls].
        rewrite !in_app_iff. left. right. now left.
Qed.

(** When every key with a state has its location in the store, the loop
    reads for each key, reuses for the keys with a state and creates for
    the others. *)
Lemma reconcile_loop_again (ls : list ProcessedLocation) (m : JsMap.t)
      (w : World) :
  (forall n, plan w n = Normal) ->
  (forall l, In l ls -> stateless l = false ->
             exists loc, In loc (locations w) /\ sameLocation l loc = true) ->
  exists m' created,
    forEachM reconcile m ls w
    = (Value m', afterLocations w created (flat_map repeatedCalls ls))
    /\ map unsaved created = filter stateless ls.
Proof.
  revert m w; induction ls as [|l ls IH]; intros m w Hplan Hall.
  - exists m, []. cbn [forEachM flat_map map filter].
    now rewrite afterLocations_nil.
  - cbn [forEachM flat_map map filter]. unfold bind, repeatedCalls at 1.
    rewrite reconcile_run. cbv zeta. rewrite !Hplan.
    destruct (stateless l) eqn:Hl.
    + assert (Hst : state l = None).
      { unfold stateless in Hl. now destruct (state l). }
      rewrite (@find_orderBy_none l w)
        by (intros loc _; now apply sameLocation_stateless).
      destruct (IH (JsMap.set m (mapKey l) (idOfNat (next_id w)))
                   (addLocation
                      (recordCalls w [SelectLocations; InsertLocation l])
                      (rowFor w l)) Hplan)
        as (m' & created & Hrun & Hcreated).
      { intros l0 Hl0 Hs0.
        destruct (Hall l0 (or_intror Hl0) Hs0) as (loc & Hin & Hsame).
        exists loc. split; [|exact Hsame].
        cbn [locations addLocation recordCalls setField_calls].
        apply in_app_iff. now left. }
      exists m', (rowFor w l :: created).
      rewrite Hrun, addLocation_afterLocations, afterLocations_twice.
      split; [reflexivity|].
      cbn [map]. rewrite Hcreated. f_equal. now destruct l.
    + destruct (Hall l (or_introl eq_refl) Hl) as (loc & Hin & Hsame).
      destruct (@find_orderBy_some l w loc Hin Hsame)
        as (existing & -> & _ & _).
      destruct (IH (JsMap.set m (mapKey l) (loc_id existing))
                   (recordCalls w [SelectLocations]) Hplan)
        as (m' & created & Hrun & Hcreated).
      { intros l0 Hl0 Hs0. exact (Hall l0 (or_intror Hl0) Hs0). }
      exists m', created.
      rewrite Hrun, recordCalls_afterLocations, afterLocations_twice.
      split; [reflexivity | exact Hcreated].
Qed.

(** X9.  When every call is carried out, resolving the same rows a second
    time reads the locations once per key, reuses the location of every
    key that has a state (the municipalities) and creates one more
    location for every key without state (national, metro zone, state):
    the rows created by the second run are, in order, the location
    objects without state. *)
Theorem second_resolution_recreates_stateless
        (rows : list SHFDataRow) (w : World) :
  (forall n, plan w n = Normal) ->
  let ls := map locationOfKey (extractLocationSet rows) in
  let w1 := snd (processLocations rows w) in
  let w2 := snd (processLocations rows w1) in
  calls w2 = calls w1 ++ flat_map repeatedCalls ls
  /\ exists created,
       locations w2 = locations w1 ++ created
       /\ map unsaved created = filter stateless ls.
Proof.
  intros Hplan ls w1 w2. unfold w2, w1, processLocations. fold ls.
  destruct (@reconcile_loop_covers ls [] w Hplan)
    as (m1 & wa & -> & Hplan1 & _ & Hcover).
  cbn [snd].
  destruct (@reconcile_loop_again ls [] wa Hplan1 Hcover)
    as (m2 & created & -> & Hcreated).
  cbn [snd afterLocations calls locations]. split; [reflexivity|].
  exists created. split; [reflexivity | exact Hcreated].
Qed.

Lemma second_resolution_recreates_stateless_witness :
  let rows := [sampleRow "" "Jalisco" "Guadalajara" 1 2020 "1.5";
               sampleRow "Nacional" "" "" 1 2020 "1.5"] in
  let nacional := mkProcessedLocation (js "national") (js "Nacional") None in
  let w1 := snd (processLocations rows seededWorld) in
  let w2 := snd (processLocations rows w1) in
  List.length (locations w1) = 2
  /\ calls w2
     = calls w1
       ++ [SelectLocations; SelectLocations; InsertLocation nacional].
Proof.
  intros rows nacional w1 w2. split; [vm_compute; reflexivity|].
  destruct (@second_resolution_recreates_stateless rows seededWorld)
    as [Hcalls _].
  - intros n. reflexivity.
  - fold w1 w2 in Hcalls. rewrite Hcalls. apply f_equal.
    vm_compute. reflexivity.
Defined.

(* ================================================================= *)
(** ** More on the text normalizer *)

Lemma pass_truthy (p : pass) (s : jsstring) :
  isIdentityPass p || goodPass p = true ->
  truthy (replaceAll (fst p) (snd p) s) = truthy s.
Proof.
  destruct p as [re r]. cbn [fst snd]. unfold replaceAll. intros Hp.
  apply orb_true_iff in Hp as [Hid|Hgood].
  - now rewrite (@identityPass_fixed re r Hid (List.length s) s None).
  - destruct s as [|c s].
    + now rewrite (@replaceFrom_nil re r None Hgood).
    + destruct (@replaceFrom_cases re r None c s Hgood)
        as [[_ ->]|(p' & s'' & _ & _ & _ & _ & ->)]; [reflexivity|].
      pose proof (@goodPass_truthy re r Hgood) as Hr.
      destruct r; [discriminate Hr | reflexivity].
Qed.

Lemma runPasses_truthy (ps : list pass) (s : jsstring) :
  forallb (fun p => isIdentityPass p || goodPass p) ps = true ->
  truthy (runPasses ps s) = truthy s.
Proof.
  revert s; induction ps as [|p ps IH]; intros s Hall; [reflexivity|].
  cbn [forallb] in Hall. apply andb_true_iff in Hall as [Hp Hall].
  unfold runPasses. cbn [fold_left].
  change (truthy (runPasses ps (replaceAll (fst p) (snd p) s)) = truthy s).
  rewrite (IH _ Hall). now apply pass_truthy.
Qed.

(** X10.  Normalization never empties a text: the result is empty only
    for the empty text. *)
Theorem normalizeText_keeps_presence (s : jsstring) :
  normalizeText s = [] <-> s = [].
Proof.
  split; [|intros ->; reflexivity].
  intros H. destruct s as [|c s]; [reflexivity|].
  change (normalizeText (c :: s)) with (runPasses passes (c :: s)) in H.
  assert (Ht : truthy (runPasses passes (c :: s)) = true).
  { apply runPasses_truthy. vm_compute. reflexivity. }
  rewrite H in Ht. discriminate Ht.
Qed.

(** X11.  Normalization is complete: in its result no pattern of the
    normalizer matches any more, the pattern that replaces [Zacatecas] by
    itself apart. *)
Theorem normalizeText_leaves_no_match (s : jsstring) (p : pass) :
  In p passes -> isIdentityPass p = false ->
  clean (fst p) (normalizeText s) = true.
Proof.
  intros Hin Hid.
  assert (Hs : Forall (fun p => settled p (runPasses passes s)) passes).
  { apply (@runPasses_settles passes [] s); [|constructor].
    vm_compute. reflexivity. }
  rewrite Forall_forall in Hs. specialize (Hs p Hin).
  destruct Hs as [Hs|Hs]; [congruence|].
  destruct s as [|c s]; [|exact Hs].
  change (normalizeText []) with (runPasses passes []). exact Hs.
Qed.

Lemma normalizeText_leaves_no_match_witness :
  clean (word "Len") (normalizeText (js "Nuevo Len, ZM Len")) = true.
Proof.
  apply (@normalizeText_leaves_no_match
           (js "Nuevo Len, ZM Len") (word "Len", js "León")).
  - vm_compute. do 14 right. left. reflexivity.
  - vm_compute. reflexivity.
Defined.

Lemma occurs_initial (wq : bool) (c0 : N) (q : jsstring) (prev : option N)
      (s : jsstring) :
  occurs wq (c0 :: q) prev s = true -> In c0 s.
Proof.
  revert prev; induction s as [|c s IH]; intros prev H.
  - cbn [occurs] in H. rewrite orb_false_r in H.
    unfold matchWord in H. apply andb_true_iff in H as [_ H].
    cbn [matchTail] in H. discriminate H.
  - cbn [occurs] in H. apply orb_true_iff in H as [H|H].
    + unfold matchWord in H. apply andb_true_iff in H as [_ H].
      cbn [matchTail] in H. apply andb_true_iff in H as [H _].
      apply N.eqb_eq in H. now left.
    + right. exact (IH _ H).
Qed.

(** X12.  A text with neither [Ã] nor any of the capital letters the
    place-name patterns begin with (L N M C Q Z J B A G T) is left as it
    is. *)
Theorem normalizeText_leaves_plain_text (s : jsstring) :
  (forall c, In c s -> ~ In c initials) -> normalizeText s = s.
Proof.
  intros Hplain. rewrite normalizeText_runPasses.
  destruct (truthy s); [|reflexivity].
  apply runPasses_fixed. apply Forall_forall. intros p Hp.
  right. unfold clean. apply forallb_forall. intros q Hq.
  apply negb_true_iff.
  destruct (occurs (bounded (fst p)) q None s) eqn:Hocc; [|reflexivity].
  exfalso.
  assert (Hinit :
            forallb
              (fun p => forallb
                          (fun q => match q with
                                    | c :: _ => existsb (N.eqb c) initials
                                    | [] => false
                                    end)
                          (alternatives (body (fst p))))
              passes = true) by (vm_compute; reflexivity).
  rewrite forallb_forall in Hinit. specialize (Hinit p Hp).
  rewrite forallb_forall in Hinit. specialize (Hinit q Hq).
  destruct q as [|c0 q]; [discriminate Hinit|].
  apply existsb_exists in Hinit as (c & Hc & Heq).
  apply N.eqb_eq in Heq. subst c.
  exact (Hplain c0 (occurs_initial _ _ _ _ _ Hocc) Hc).
Qed.

Lemma normalizeText_leaves_plain_text_witness :
  normalizeText (js "san luis potosí") = js "san luis potosí".
Proof.
  apply normalizeText_leaves_plain_text.
  intros c Hc Hi. vm_compute in Hc, Hi.
  repeat (destruct Hc as [<-|Hc];
          [repeat (destruct Hi as [Hi|Hi]; [discriminate Hi|]);
           exact Hi|]).
  exact Hc.
Defined.

(* ================================================================= *)
(** ** Reading the file *)

(** X13.  Encoding detection, when the three decoders exist and none
    decodes the file to the empty text: the text chosen is the one with
    the fewest replacement markers, and of two candidates with as few
    markers the one earlier in the list windows-1252, iso-8859-1, utf-8. *)
Theorem decodeContent_fewest_markers
        (TextDecoder : jsstring -> Result (list N -> jsstring))
        (buffer : list N) (d1 d2 d3 : list N -> jsstring) :
  TextDecoder (js "windows-1252") = Value d1 ->
  TextDecoder (js "iso-8859-1") = Value d2 ->
  TextDecoder (js "utf-8") = Value d3 ->
  truthy (d1 buffer) = true -> truthy (d2 buffer) = true ->
  truthy (d3 buffer) = true ->
  let c1 := replacementCharCount (d1 buffer) in
  let c2 := replacementCharCount (d2 buffer) in
  let c3 := replacementCharCount (d3 buffer) in
  decodeContent TextDecoder buffer
  = Value (if (c1 <=? c2) && (c1 <=? c3) then d1 buffer
           else if c2 <=? c3 then d2 buffer else d3 buffer).
Proof.
  intros H1 H2 H3 T1 T2 T3 c1 c2 c3.
  unfold decodeContent. cbn [tryEncodings]. rewrite H1, H2, H3.
  fold c1 c2 c3. cbn [truthy negb orb].
  destruct (Nat.eqb_spec c1 0) as [E1|N1].
  { rewrite T1. cbn [negb andb]. rewrite E1. reflexivity. }
  rewrite T1. cbn [negb orb].
  destruct (Nat.eqb_spec c2 0) as [E2|N2].
  { rewrite T2. cbn [negb andb].
    destruct (Nat.leb_spec c1 c2); [lia|]. cbn [andb].
    destruct (Nat.leb_spec c2 c3); [reflexivity | lia]. }
  destruct (Nat.ltb_spec c2 c1) as [L21|L21].
  - destruct (Nat.eqb_spec c3 0) as [E3|N3].
    { rewrite T3. cbn [negb andb].
      destruct (Nat.leb_spec c1 c2); [lia|]. cbn [andb].
      destruct (Nat.leb_spec c2 c3); [lia | reflexivity]. }
    rewrite T2. cbn [negb orb].
    destruct (Nat.leb_spec c1 c2); [lia|]. cbn [andb].
    destruct (Nat.ltb_spec c3 c2), (Nat.leb_spec c2 c3); try lia;
      cbn [truthy negb andb]; rewrite ?T2, ?T3; reflexivity.
  - destruct (Nat.eqb_spec c3 0) as [E3|N3].
    { rewrite T3. cbn [negb andb].
      destruct (Nat.leb_spec c1 c3); [lia|]. rewrite andb_false_r.
      destruct (Nat.leb_spec c2 c3); [lia | reflexivity]. }
    destruct (Nat.leb_spec c1 c2); [|lia]. cbn [andb].
    destruct (Nat.ltb_spec c3 c1), (Nat.leb_spec c1 c3); try lia;
      cbn [truthy negb andb]; rewrite ?T1, ?T3; try reflexivity.
    destruct (Nat.leb_spec c2 c3); [lia | reflexivity].
Qed.

Lemma decodeContent_fewest_markers_witness :
  decodeContent sampleTextDecoder [72; 233; 10]%N = Value [72; 233; 10]%N.
Proof.
  apply (@decodeContent_fewest_markers
           sampleTextDecoder [72; 233; 10]%N
           byteDecoder byteDecoder asciiDecoder);
    vm_compute; reflexivity.
Defined.

(** X14.  [processSHFCSV] reads, decodes and hands over to [processCSV].
    When the file cannot be read, or no decoder can be built, it returns a
    failure with the reason and issues no call to the store; otherwise
    its run is the run of [processCSV] on the decoded text and the name of
    the file. *)
Theorem processSHFCSV_reads_then_processes
        (TextDecoder : jsstring -> Result (list N -> jsstring))
        (file : File) (w : World) :
  match arrayBuffer file with
  | Thrown e =>
      processSHFCSV TextDecoder file w
      = (Value (mkResult false 0
                         (Some (describe e (js "Failed to read file")))), w)
  | Value buffer =>
      match decodeContent TextDecoder buffer with
      | Thrown e =>
          processSHFCSV TextDecoder file w
          = (Value (mkResult false 0
                             (Some (describe e (js "Failed to read file")))),
             w)
      | Value csvContent =>
          processSHFCSV TextDecoder file w
          = processCSV csvContent (file_name file) w
      end
  end.
Proof.
  unfold processSHFCSV, tryCatch.
  destruct (arrayBuffer file) as [buffer|e]; [|reflexivity].
  destruct (decodeContent TextDecoder buffer) as [csvContent|e];
    [|reflexivity].
  destruct (processCSV_total csvContent (file_name file) w)
    as (r & w' & ->).
  reflexivity.
Qed.

(* ================================================================= *)
(** ** More on the orchestrator *)

(** X15.  When the log entry cannot be created the run stops there: the
    insert of the entry is the only call issued, no table changes, and the
    result carries the reason. *)
Theorem log_creation_failure_stops_run
        (csvContent fileName : jsstring) (w : World) (e : ErrorValue) :
  (plan w (List.length (calls w)) = ErrorResult e ->
   processCSV csvContent fileName w
   = (Value (mkResult false 0
               (Some (js "Failed to create upload log: " ++ message e))),
      recordCalls w [InsertLog fileName]))
  /\ (plan w (List.length (calls w)) = Rejected e ->
      processCSV csvContent fileName w
      = (Value (mkResult false 0 (Some (describe e (js "Unknown error")))),
         recordCalls w [InsertLog fileName])).
Proof.
  split; intros Hplan; rewrite processCSV_run; cbv zeta;
    unfold insertLog; rewrite request_run; cbv zeta; rewrite Hplan;
    reflexivity.
Qed.

Lemma log_creation_failure_stops_run_witness :
  processCSV (js "h") (js "shf.csv") (withPlan (failingAt 0) seededWorld)
  = (Value (mkResult false 0
              (Some (js "Failed to create upload log: permission denied"))),
     recordCalls (withPlan (failingAt 0) seededWorld)
                 [InsertLog (js "shf.csv")]).
Proof.
  destruct (@log_creation_failure_stops_run
              (js "h") (js "shf.csv") (withPlan (failingAt 0) seededWorld)
              refused) as [H _].
  apply H. reflexivity.
Defined.

(** X16.  A run that reports success has turned its log entry to
    [completed] with the count it reports, and returns no error. *)
Theorem completed_run_updates_log
        (csvContent fileName : jsstring) (w w' : World) (r : IngestResult) :
  processCSV csvContent fileName w = (Value r, w') ->
  success r = true ->
  error r = None
  /\ In (mkLog (idOfNat (next_id w)) fileName (recordsProcessed r)
               completed None)
        (upload_logs w').
Proof.
  intros Hrun Hok.
  assert (Hcreate : plan w (List.length (calls w)) = Normal).
  { destruct (plan w (List.length (calls w))) as [|e|e] eqn:Hplan;
      [reflexivity|..];
      rewrite processCSV_run in Hrun; cbv zeta in Hrun;
      unfold insertLog in Hrun; rewrite request_run in Hrun;
      cbv zeta in Hrun; rewrite Hplan in Hrun;
      injection Hrun as <- _; discriminate Hok. }
  destruct (processCSV_outcome csvContent fileName w Hcreate)
    as (r0 & w0 & Hrun0 & Hout).
  rewrite Hrun in Hrun0. injection Hrun0 as <- <-.
  destruct Hout as [e w' Q | e w3 n Q Hrefused | w3 w' n Q Hdone Hlogs];
    try discriminate Hok.
  split; [reflexivity|]. rewrite Hlogs, map_app, in_app_iff. right.
  cbn [map createdEntry log_id filename error_message recordsProcessed
       completedWith].
  rewrite streq_refl. now left.
Qed.

Lemma completed_run_updates_log_witness :
  In (mkLog (js "100") (js "shf.csv") 1 completed None)
     (upload_logs
        (snd (processCSV
                (js "h" ++ newline ++ js "1;Nacional;;;2;2020;150,25")
                (js "shf.csv") seededWorld))).
Proof.
  destruct (@completed_run_updates_log
              (js "h" ++ newline ++ js "1;Nacional;;;2;2020;150,25")
              (js "shf.csv") seededWorld
              (snd (processCSV
                      (js "h" ++ newline ++ js "1;Nacional;;;2;2020;150,25")
                      (js "shf.csv") seededWorld))
              (completedWith 1)) as [_ H].
  - vm_compute. reflexivity.
  - reflexivity.
  - exact H.
Defined.

Lemma parseCSV_header_only (header : jsstring) :
  ~ In 10%N header -> parseCSV header = [].
Proof.
  intros Hnl. unfold parseCSV. now rewrite (@split_none _ _ Hnl).
Qed.

(** X17.  A file with a header line and nothing else completes with zero
    records, provided its three calls are carried out: the log entry is
    created, the property types are read and the entry is updated; no
    location is read or created and no price record is sent. *)
Theorem header_only_file_completes
        (header fileName : jsstring) (w : World) :
  ~ In 10%N header ->
  (forall i, i < 3 -> plan w (List.length (calls w) + i) = Normal) ->
  exists w',
    processCSV header fileName w = (Value (completedWith 0), w')
    /\ calls w'
       = calls w ++ [InsertLog fileName; SelectPropertyTypes;
                     UpdateLog (idOfNat (next_id w)) completed 0]
    /\ locations w' = locations w
    /\ price_indices w' = price_indices w.
Proof.
  intros Hnl Hplan.
  pose proof (Hplan 0 ltac:(lia)) as H0. rewrite Nat.add_0_r in H0.
  pose proof (Hplan 1 ltac:(lia)) as H1.
  pose proof (Hplan 2 ltac:(lia)) as H2.
  rewrite processCSV_run. cbv zeta.
  rewrite (@parseCSV_header_only header Hnl), (@insertLog_run fileName w H0).
  cbn [filter]. unfold processLocations. cbn [extractLocationSet fold_left
    map forEachM]. unfold ret at 1.
  unfold processPropertyTypes, bind at 1, getPropertyTypes.
  rewrite request_run. cbv zeta.
  cbn [calls plan afterCreation]. rewrite length_app. cbn [List.length].
  rewrite H1. cbn [fst snd]. unfold ret at 1.
  unfold processPriceData, prepareRecords. cbn [forEachM].
  unfold bind at 1, ret at 1. cbn [List.length insertBatches].
  unfold bind at 1, ret at 1 2.
  unfold updateLog. rewrite request_run. cbv zeta.
  cbn [calls plan setField_calls afterCreation].
  rewrite !length_app. cbn [List.length].
  replace (List.length (calls w) + 1 + 1) with (List.length (calls w) + 2)
    by lia.
  rewrite H2. eexists. split; [reflexivity|].
  cbn [fst snd calls locations price_indices setField_calls afterCreation
       createdEntry log_id].
  rewrite <- !app_assoc. repeat split.
Qed.

Lemma header_only_file_completes_witness :
  exists w',
    processCSV (js "consecutivo;global;estado") (js "shf.csv") seededWorld
    = (Value (completedWith 0), w')
    /\ locations w' = [].
Proof.
  destruct (@header_only_file_completes
              (js "consecutivo;global;estado") (js "shf.csv") seededWorld)
    as (w' & Hrun & _ & Hlocs & _).
  - vm_compute. intuition discriminate.
  - intros i _. reflexivity.
  - exists w'. split; [exact Hrun | exact Hlocs].
Defined.

(* ================================================================= *)
(** ** Lines are parsed one by one *)

Lemma split_app (sep : N) (a b : jsstring) :
  split sep (a ++ sep :: b) = split sep a ++ split sep b.
Proof.
  induction a as [|c a IH]; cbn [app split].
  - now rewrite N.eqb_refl.
  - destruct (c =? sep)%N; rewrite IH.
    + reflexivity.
    + pose proof (split_nonempty sep a) as Ha.
      destruct (split sep a) as [|h t]; [cbn in Ha; lia | reflexivity].
Qed.

Lemma parseCSV_body (header body : jsstring) :
  ~ In 10%N header ->
  parseCSV (header ++ newline ++ body)
  = flat_map rowsOfLine (split 10 body).
Proof.
  intros Hnl. unfold parseCSV, newline. cbn [app].
  rewrite (@split_first _ _ _ Hnl), parse_loop. reflexivity.
Qed.

(** X18.  Lines are parsed independently and in order: the rows of a file
    are the rows of its first lines followed by the rows of its remaining
    lines. *)
Theorem parseCSV_is_line_local (header body1 body2 : jsstring) :
  ~ In 10%N header ->
  parseCSV (header ++ newline ++ body1 ++ newline ++ body2)
  = parseCSV (header ++ newline ++ body1)
    ++ parseCSV (header ++ newline ++ body2).
Proof.
  intros Hnl.
  rewrite (@parseCSV_body header (body1 ++ newline ++ body2) Hnl),
    (@parseCSV_body header body1 Hnl), (@parseCSV_body header body2 Hnl).
  unfold newline. cbn [app]. rewrite split_app. apply flat_map_app.
Qed.

Lemma parseCSV_is_line_local_witness :
  parseCSV (js "h" ++ newline ++ js "1;Nacional;;;2;2020;150,25"
            ++ newline ++ js "2;;Jalisco;;2;2020;99,5")
  = [mkRow 1 (js "Nacional") [] [] 2 2020 (js "150.25")]
    ++ [mkRow 2 [] (js "Jalisco") [] 2 2020 (js "99.5")].
Proof.
  rewrite (@parseCSV_is_line_local
             (js "h") (js "1;Nacional;;;2;2020;150,25")
             (js "2;;Jalisco;;2;2020;99,5")).
  - vm_compute. reflexivity.
  - vm_compute. intuition discriminate.
Defined.

(** X19.  Encoding detection without the two single-byte decoders: the
    text is what the utf-8 decoder gives, whatever its markers; and when
    the utf-8 decoder cannot be built either, decoding fails with the
    error of its constructor. *)
Theorem decodeContent_falls_back
        (TextDecoder : jsstring -> Result (list N -> jsstring))
        (buffer : list N) (e1 e2 : ErrorValue) :
  TextDecoder (js "windows-1252") = Thrown e1 ->
  TextDecoder (js "iso-8859-1") = Thrown e2 ->
  decodeContent TextDecoder buffer
  = match TextDecoder (js "utf-8") with
    | Value decoder => Value (decoder buffer)
    | Thrown e => Thrown e
    end.
Proof.
  intros H1 H2. unfold decodeContent, utf8Fallback.
  cbn [tryEncodings]. rewrite H1, H2.
  destruct (TextDecoder (js "utf-8")) as [d3|e3]; [|reflexivity].
  destruct (replacementCharCount (d3 buffer) =? 0) eqn:Hc.
  - cbn [truthy negb andb]. destruct (d3 buffer); reflexivity.
  - cbn [truthy negb orb andb].
    destruct (d3 buffer) as [|c s] eqn:Hd; [discriminate Hc|].
    reflexivity.
Qed.

Lemma decodeContent_falls_back_witness :
  decodeContent utf8Only [72; 233]%N = Value [72; 0xFFFD]%N.
Proof.
  rewrite (@decodeContent_falls_back
             utf8Only [72; 233]%N
             (newError (js "unsupported encoding"))
             (newError (js "unsupported encoding")));
    vm_compute; reflexivity.
Defined.

(* ================================================================= *)
(** ** The keys of a run *)

(** X20.  The Location Resolver works on the set of the rows' keys: the
    keys are the keys of the rows, each once, and its run is one
    reconcile-or-create iteration per key, in order, each with one read of
    the locations and at most one insert, whatever the store answers.
    Rows with the same key get the same identifier in their records. *)
Theorem location_keys_iterated_once
        (rows : list SHFDataRow) (w : World) :
  let keys := extractLocationSet rows in
  NoDup keys
  /\ (forall k, In k keys <->
                exists row, In row rows /\ locationSetKey row = Some k)
  /\ (exists locationMap steps,
         processLocations rows w
         = (Value locationMap,
            afterLocations w (List.concat (map snd steps))
                           (List.concat (map fst steps)))
         /\ Forall2 (fun k => reconcileStep (locationOfKey k)) keys steps)
  /\ (forall locationMap r1 r2 w1 w2 w1' w2' p1 p2,
         priceLocationKey r1 = priceLocationKey r2 ->
         buildRecord locationMap r1 w1 = (Value (Some p1), w1') ->
         buildRecord locationMap r2 w2 = (Value (Some p2), w2') ->
         location_id p1 = location_id p2).
Proof.
  intros keys.
  destruct (extractLocationSet_spec rows) as [Hnd Hin].
  split; [exact Hnd|]. split; [exact Hin|]. split.
  - unfold processLocations. fold keys.
    destruct (reconcile_loop (map locationOfKey keys) [] w)
      as (m & steps & Hrun & Hsteps).
    exists m, steps. split; [exact Hrun|].
    clear Hrun. revert steps Hsteps.
    induction keys as [|k ks IH]; intros steps Hsteps;
      inversion Hsteps; subst; constructor; auto.
  - intros m r1 r2 w1 w2 w1' w2' p1 p2 Hkey H1 H2.
    apply buildRecord_location in H1 as (k1 & Hk1 & Hg1).
    apply buildRecord_location in H2 as (k2 & Hk2 & Hg2).
    rewrite Hkey, Hk2 in Hk1. injection Hk1 as <-.
    rewrite Hg1 in Hg2. now injection Hg2.
Qed.

(** Two rows for Guadalajara, Jalisco: one key, one iteration. *)
Lemma location_keys_iterated_once_witness :
  let r1 := sampleRow "" "Jalisco" "Guadalajara" 1 2020 "1.5" in
  let r2 := sampleRow "" "Jalisco" "Guadalajara" 2 2020 "1.7" in
  extractLocationSet [r1; r2] = [js "Guadalajara|municipality|Jalisco"]
  /\ exists locationMap steps,
       processLocations [r1; r2] seededWorld
       = (Value locationMap,
          afterLocations seededWorld (List.concat (map snd steps))
                         (List.concat (map fst steps)))
       /\ List.length steps = 1.
Proof.
  intros r1 r2. split; [vm_compute; reflexivity|].
  destruct (location_keys_iterated_once [r1; r2] seededWorld)
    as (_ & _ & (m & steps & Hrun & Hsteps) & _).
  exists m, steps. split; [exact Hrun|].
  apply Forall2_length in Hsteps. rewrite <- Hsteps.
  vm_compute. reflexivity.
Defined.
